(** * instassist: the response parser and the interaction state machine

    A shallow embedding of [prompt.go] (option parsing, ranking, text
    cleaning, the lookup of the options schema) and of [ui.go] (the
    bubbletea model, its [Update] reducer and its [View]), followed by the
    properties proved about them.

    Go strings are byte sequences ([list ascii]); Go [int]s are modelled as
    [Z] (every index computed by the program stays far below 2^63, so no
    wrap-around can occur; [%] is Go's truncated remainder, [Z.rem]).
    Library code the program calls (the strings, unicode/utf8, sort and
    encoding/json packages, the bubbles text area, lipgloss styles, the
    clipboard, the file system) is modelled after its documented behaviour
    or taken as an interface. *)

From Stdlib Require Import String Ascii ZArith NArith Lia Bool ZifyBool ZifyN ZifyNat.
From stdpp Require Import base option list.
From stdpp Require Import sorting.

(** A Go string: an immutable sequence of bytes. *)
Definition gostring : Type := list ascii.

(** String literals of the Go source. *)
Definition str (s : string) : gostring := list_ascii_of_string s.

(** The double quote character, and a quoted identifier as it appears in the
    JSON marker. *)
Definition dquote : ascii := ascii_of_nat 34.
Definition quoted (s : gostring) : gostring := dquote :: s ++ [dquote].

(** Byte-wise string equality, Go's [==] on strings. *)
Fixpoint streq (a b : gostring) : bool :=
  match a, b with
  | [], [] => true
  | x :: a', y :: b' => Ascii.eqb x y && streq a' b'
  | _, _ => false
  end.

(** ** Package unicode/utf8 and unicode.IsSpace *)
Module Utf8.

Definition RuneError : N := 0xFFFD%N.
Definition RuneSelf : N := 0x80%N.

Definition code (c : ascii) : N := N_of_ascii c.

(** Continuation bytes, [locb..hicb]. *)
Definition isCont (c : ascii) : bool :=
  ((0x80 <=? code c) && (code c <=? 0xBF))%N.

(** The accepted range of the second byte, by first byte ([acceptRanges]). *)
Definition acceptLo (b0 : N) : N :=
  (if b0 =? 0xE0 then 0xA0 else if b0 =? 0xF0 then 0x90 else 0x80)%N.
Definition acceptHi (b0 : N) : N :=
  (if b0 =? 0xED then 0x9F else if b0 =? 0xF4 then 0x8F else 0xBF)%N.

(** The length the first byte announces (table [first]); 1 for ASCII and
    for bytes that cannot start a sequence. *)
Definition seqLen (b0 : N) : nat :=
  if (b0 <? 0xC2)%N then 1
  else if (b0 <? 0xE0)%N then 2
  else if (b0 <? 0xF0)%N then 3
  else if (b0 <? 0xF5)%N then 4
  else 1.

Definition low6 (c : ascii) : N := N.land (code c) 0x3F.

(** [utf8.DecodeRuneInString]: the first rune of [s] and its width in bytes;
    an invalid or truncated sequence decodes to [(RuneError, 1)]. *)
Definition DecodeRune (s : gostring) : N * nat :=
  match s with
  | [] => (RuneError, 0)
  | s0 :: t =>
    let b0 := code s0 in
    let sz := seqLen b0 in
    if (b0 <? RuneSelf)%N then (b0, 1)
    else if sz =? 1 then (RuneError, 1)
    else if length s <? sz then (RuneError, 1)
    else match t with
    | [] => (RuneError, 1)
    | s1 :: t1 =>
      if ((code s1 <? acceptLo b0) || (acceptHi b0 <? code s1))%N
      then (RuneError, 1)
      else if sz <=? 2
      then (N.lor (N.shiftl (N.land b0 0x1F) 6) (low6 s1), 2)
      else match t1 with
      | [] => (RuneError, 1)
      | s2 :: t2 =>
        if negb (isCont s2) then (RuneError, 1)
        else if sz <=? 3
        then (N.lor (N.shiftl (N.land b0 0x0F) 12)
                (N.lor (N.shiftl (low6 s1) 6) (low6 s2)), 3)
        else match t2 with
        | [] => (RuneError, 1)
        | s3 :: _ =>
          if negb (isCont s3) then (RuneError, 1)
          else (N.lor (N.shiftl (N.land b0 0x07) 18)
                  (N.lor (N.shiftl (low6 s1) 12)
                     (N.lor (N.shiftl (low6 s2) 6) (low6 s3))), 4)
        end
      end
    end
  end.

(** [unicode.IsSpace]: the Latin-1 spaces, then the White_Space property. *)
Definition IsSpace (r : N) : bool :=
  (if r <=? 0xFF
   then ((0x09 <=? r) && (r <=? 0x0D)) || (r =? 0x20) || (r =? 0x85) || (r =? 0xA0)
   else (r =? 0x1680) || ((0x2000 <=? r) && (r <=? 0x200A))
        || (r =? 0x2028) || (r =? 0x2029) || (r =? 0x202F)
        || (r =? 0x205F) || (r =? 0x3000))%N.

(** One step of [for i, r := range s]: the rune and the bytes it spans. *)
Definition chunk : Type := N * gostring.

Fixpoint runesFuel (fuel : nat) (s : gostring) : list chunk :=
  match fuel with
  | O => []
  | S fuel' =>
    match s with
    | [] => []
    | _ :: _ =>
      let '(r, n) := DecodeRune s in
      (r, take n s) :: runesFuel fuel' (drop n s)
    end
  end.

(** The runes of [s] in order, as [range] yields them. Every step consumes
    at least one byte, so [length s] steps are enough. *)
Definition runes (s : gostring) : list chunk := runesFuel (length s) s.

Definition bytesOf (cs : list chunk) : gostring := concat (map snd cs).

Definition spaceChunk (c : chunk) : bool := IsSpace (fst c).

End Utf8.

(** ** Package strings *)
Module Strings.
Import Utf8.

Fixpoint HasPrefix (s prefix : gostring) {struct prefix} : bool :=
  match prefix with
  | [] => true
  | p :: prefix' =>
    match s with
    | [] => false
    | c :: s' => Ascii.eqb c p && HasPrefix s' prefix'
    end
  end.

(** The offset of the first occurrence of [substr] in [s], if any. *)
Fixpoint indexOf (s substr : gostring) : option nat :=
  if HasPrefix s substr then Some 0
  else match s with
       | [] => None
       | _ :: s' => S <$> indexOf s' substr
       end.

(** [strings.Index]: the byte offset of the first occurrence, or -1. *)
Definition Index (s substr : gostring) : Z :=
  match indexOf s substr with
  | Some i => Z.of_nat i
  | None => (-1)%Z
  end.

(** The slice expression [s[i:]], for [0 <= i <= len(s)]. *)
Definition sliceFrom (s : gostring) (i : Z) : gostring := drop (Z.to_nat i) s.

(** Go's [len] of a string or slice, an [int]. *)
Definition len {A} (l : list A) : Z := Z.of_nat (length l).

(** [strings.TrimSpace]: the string without its leading and trailing white
    space, white space being the runes [unicode.IsSpace] accepts. *)
Fixpoint dropSpaces (cs : list chunk) : list chunk :=
  match cs with
  | [] => []
  | c :: cs' => if spaceChunk c then dropSpaces cs' else cs
  end.

Definition TrimSpace (s : gostring) : gostring :=
  bytesOf (rev (dropSpaces (rev (dropSpaces (runes s))))).

(** [strings.Fields] ([FieldsFunc] with [unicode.IsSpace]): the maximal runs
    of non-space runes. [cur] holds the bytes of the field being read, empty
    when no field is open. *)
Fixpoint fieldsLoop (cur : gostring) (cs : list chunk) : list gostring :=
  match cs with
  | [] => match cur with [] => [] | _ :: _ => [cur] end
  | c :: cs' =>
    if spaceChunk c
    then match cur with
         | [] => fieldsLoop [] cs'
         | _ :: _ => cur :: fieldsLoop [] cs'
         end
    else fieldsLoop (cur ++ snd c) cs'
  end.

Definition Fields (s : gostring) : list gostring := fieldsLoop [] (runes s).

(** [strings.Join]. *)
Fixpoint Join (elems : list gostring) (sep : gostring) : gostring :=
  match elems with
  | [] => []
  | [e] => e
  | e :: rest => e ++ sep ++ Join rest sep
  end.

(** [strings.ReplaceAll] for a non-empty [old]: the occurrences are replaced
    left to right without overlap; [skip] counts the bytes of a matched
    occurrence still to be passed over. With an empty [old], [new] goes
    before every rune and at the end. *)
Fixpoint replaceLoop (skip : nat) (s old new : gostring) : gostring :=
  match s with
  | [] => []
  | c :: s' =>
    match skip with
    | S k => replaceLoop k s' old new
    | O =>
      if HasPrefix s old
      then new ++ replaceLoop (length old - 1) s' old new
      else c :: replaceLoop 0 s' old new
    end
  end.

Definition ReplaceAll (s old new : gostring) : gostring :=
  match old with
  | [] => concat (map (fun c : chunk => new ++ snd c) (runes s)) ++ new
  | _ :: _ => replaceLoop 0 s old new
  end.

(** [strings.Count] for a non-empty [substr]: non-overlapping occurrences. *)
Fixpoint countLoop (skip : nat) (s substr : gostring) : Z :=
  match s with
  | [] => 0
  | _ :: s' =>
    match skip with
    | S k => countLoop k s' substr
    | O =>
      if HasPrefix s substr
      then (1 + countLoop (length substr - 1) s' substr)%Z
      else countLoop 0 s' substr
    end
  end.

Definition Count (s substr : gostring) : Z :=
  match substr with
  | [] => (len (runes s) + 1)%Z
  | _ :: _ => countLoop 0 s substr
  end.

(** [strings.TrimRight] with a cutset of ASCII bytes (the program passes a
    newline only): trailing bytes of the cutset removed. *)
Definition inCutset (cutset : gostring) (c : ascii) : bool :=
  existsb (Ascii.eqb c) cutset.

Fixpoint dropCut (cutset s : gostring) : gostring :=
  match s with
  | [] => []
  | c :: s' => if inCutset cutset c then dropCut cutset s' else s
  end.

Definition TrimRight (s cutset : gostring) : gostring :=
  rev (dropCut cutset (rev s)).

(** [strings.Split]: the pieces of [s] between the occurrences of [sep],
    taken left to right without overlap; [cur] holds the piece being read.
    With an empty [sep] the string is cut after every rune. *)
Fixpoint splitLoop (skip : nat) (cur s sep : gostring) : list gostring :=
  match s with
  | [] => [cur]
  | c :: s' =>
    match skip with
    | S k => splitLoop k cur s' sep
    | O =>
      if HasPrefix s sep
      then cur :: splitLoop (length sep - 1) [] s' sep
      else splitLoop 0 (cur ++ [c]) s' sep
    end
  end.

Definition Split (s sep : gostring) : list gostring :=
  match sep with
  | [] => map snd (runes s)
  | _ :: _ => splitLoop 0 [] s sep
  end.

End Strings.

(** ** Package sort: [sort.SliceStable]

    The library sorts by insertion (runs of up to 20 elements, which covers
    any option list a backend realistically sends; longer slices have their
    sorted runs merged by the same comparisons). The comparison closure
    receives two positions and reads the slice as it currently is, so it is
    given the current contents here. *)
Module Sort.
Section Stable.
Context {A : Type}.
Variable less : list A -> nat -> nat -> bool.

(** [data[i], data[j] = data[j], data[i]] *)
Definition swap (data : list A) (i j : nat) : list A :=
  match data !! i, data !! j with
  | Some x, Some y => <[j := x]> (<[i := y]> data)
  | _, _ => data
  end.

(** [for j := i; j > a && less(j, j-1); j-- { swap(j, j-1) }] *)
Fixpoint insertDown (data : list A) (a j : nat) : list A :=
  match j with
  | O => data
  | S j' =>
    if (a <? j) && less data j j'
    then insertDown (swap data j j') a j'
    else data
  end.

(** [for i := a + 1; i < b; i++ { ... }], with [n] iterations left. *)
Fixpoint insertionLoop (data : list A) (a i n : nat) : list A :=
  match n with
  | O => data
  | S n' => insertionLoop (insertDown data a i) a (S i) n'
  end.

Definition insertionSort (data : list A) (a b : nat) : list A :=
  insertionLoop data a (S a) (b - S a).

Definition SliceStable (data : list A) : list A :=
  insertionSort data 0 (length data).

End Stable.
End Sort.

(** ** prompt.go *)

(** [type optionEntry struct] *)
Record optionEntry : Type := mkOption {
  Value : gostring;
  Description : gostring;
  RecommendationOrder : Z
}.

(** [json.NewDecoder(strings.NewReader(segment)).Decode(&resp)] for
    [resp : optionResponse]: one JSON value is read from the front of the
    segment, whatever follows it is left unread. [Some opts] stands for
    [err == nil] with [resp.Options = opts]; [None] for an error. The
    properties below hold for every decoder; [Json.decodeOptionResponse]
    further down is one that reads JSON. *)
Class Decoder : Type := decodeResponse : gostring -> option (list optionEntry).

Definition newline : gostring := [ascii_of_nat 10].

(** The example object of the prompt's trailer. *)
Definition schemaExample : gostring :=
  str "{" ++ quoted (str "options") ++ str ":[{"
  ++ quoted (str "value") ++ str ":" ++ quoted (str "...") ++ str ","
  ++ quoted (str "description") ++ str ":" ++ quoted (str "...") ++ str ","
  ++ quoted (str "recommendation_order") ++ str ":1}]}".

Definition buildPrompt (userPrompt : gostring) : gostring :=
  let base := str "Give me one or more concise options with short descriptions for the following: " in
  let schema := str "Respond ONLY with JSON shaped like " ++ schemaExample
                ++ str ". No extra text." in
  base ++ userPrompt ++ newline ++ schema.

(** The marker the scan looks for, an opening brace and the quoted key, and
    the shorter text (no closing quote) whose length the scan advances by. *)
Definition optionsMarker : gostring := str "{" ++ quoted (str "options").
Definition optionsAdvance : gostring := str "{" ++ dquote :: str "options".

(** The comparison closure handed to [sort.SliceStable]; [i] and [j] are
    positions in the slice being sorted. (Positions outside the slice are
    never passed by the sort.) *)
Definition lessOptions (opts : list optionEntry) (i j : nat) : bool :=
  match opts !! i, opts !! j with
  | Some ei, Some ej =>
    let oi := RecommendationOrder ei in
    let oj := RecommendationOrder ej in
    if ((0 <? oi) && (0 <? oj) && negb (oi =? oj))%Z then (oi <? oj)%Z
    else if ((0 <? oi) && (oj <=? 0))%Z then true
    else if ((oi <=? 0) && (0 <? oj))%Z then false
    else i <? j
  | _, _ => false
  end.

Definition sortOptions (opts : list optionEntry) : list optionEntry :=
  Sort.SliceStable lessOptions opts.

Definition parseError : gostring := str "failed to parse options JSON".

Section Parse.
Context {decoder : Decoder}.

(** One candidate: the decoded options, ranked, when the decode succeeds
    with a non-empty array; the previous result otherwise. *)
Definition tryCandidate (segment : gostring) (lastOpts : list optionEntry)
  : list optionEntry :=
  match decodeResponse segment with
  | Some opts => if (0 <? Strings.len opts)%Z then sortOptions opts else lastOpts
  | None => lastOpts
  end.

(** The [for] loop of [parseOptions]. Each round removes at least the nine
    bytes of [optionsAdvance] from [search]; [fuel] bounds the rounds. *)
Fixpoint parseLoop (fuel : nat) (search : gostring) (lastOpts : list optionEntry)
  : list optionEntry :=
  match fuel with
  | O => lastOpts
  | S fuel' =>
    let idx := Strings.Index search optionsMarker in
    if (idx <? 0)%Z then lastOpts
    else
      let segment := Strings.sliceFrom search idx in
      parseLoop fuel'
        (Strings.sliceFrom search (idx + Strings.len optionsAdvance))
        (tryCandidate segment lastOpts)
  end.

(** [parseOptions]: the options and the error of the Go pair. *)
Definition parseOptions (raw : gostring) : list optionEntry * option gostring :=
  let lastOpts := parseLoop (S (length raw)) raw [] in
  if (0 <? Strings.len lastOpts)%Z then (lastOpts, None)
  else ([], Some parseError).

End Parse.

Definition cleanText (s : gostring) : gostring :=
  let s := Strings.TrimSpace s in
  Strings.Join (Strings.Fields (Strings.ReplaceAll s newline (str " "))) (str " ").

(** ** A JSON decoder for [optionResponse]

    An instance of [Decoder] that reads JSON the way encoding/json does for
    this struct: one value is scanned from the front of the input (syntax
    errors anywhere in it fail the decode), an object's members are matched
    to the tagged fields (exact name, else ignoring ASCII case), unknown
    members are skipped, [null] leaves a field as it is and resets a slice,
    a value of the wrong JSON type or a number that is not an [int64] fails
    the decode, and a repeated key decodes onto the value already there. *)
Module Json.

#[warnings="-register-all"]
Inductive json : Type :=
| JNull
| JBool (b : bool)
| JNumber (literal : gostring)
| JString (s : gostring)
| JArray (elems : list json)
| JObject (members : list (gostring * json)).

Definition isCh (c : ascii) (s : string) : bool := streq [c] (str s).

Definition isWs (c : ascii) : bool :=
  let n := Utf8.code c in ((n =? 32) || (n =? 9) || (n =? 10) || (n =? 13))%N.

Fixpoint skipWs (s : gostring) : gostring :=
  match s with
  | c :: s' => if isWs c then skipWs s' else s
  | [] => []
  end.

Definition isDigit (c : ascii) : bool :=
  let n := Utf8.code c in ((48 <=? n) && (n <=? 57))%N.

Fixpoint spanDigits (s : gostring) : gostring * gostring :=
  match s with
  | c :: s' =>
    if isDigit c then let '(d, r) := spanDigits s' in (c :: d, r) else ([], s)
  | [] => ([], [])
  end.

(** A JSON number literal at the front of [s]. *)
Definition scanNumber (s : gostring) : option (gostring * gostring) :=
  let '(sign, s1) :=
    match s with
    | c :: r => if isCh c "-" then ([c], r) else ([], s)
    | [] => ([], s)
    end in
  let '(int, s2) := spanDigits s1 in
  match int with
  | [] => None
  | d :: ds =>
    if isCh d "0" && negb (bool_decide (ds = [])) then None
    else
      let frac :=
        match s2 with
        | c :: r =>
          if isCh c "."
          then match spanDigits r with
               | ([], _) => None
               | (f, r') => Some (c :: f, r')
               end
          else Some ([], s2)
        | [] => Some ([], s2)
        end in
      '(f, s3) ← frac;
      let expo :=
        match s3 with
        | c :: r =>
          if isCh c "e" || isCh c "E"
          then
            let '(sg, r1) :=
              match r with
              | c1 :: r' => if isCh c1 "+" || isCh c1 "-" then ([c1], r') else ([], r)
              | [] => ([], r)
              end in
            match spanDigits r1 with
            | ([], _) => None
            | (e, r') => Some (c :: sg ++ e, r')
            end
          else Some ([], s3)
        | [] => Some ([], s3)
        end in
      '(e, s4) ← expo;
      Some (sign ++ int ++ f ++ e, s4)
  end.

Definition hexVal (c : ascii) : option N :=
  let n := Utf8.code c in
  if ((48 <=? n) && (n <=? 57))%N then Some (n - 48)%N
  else if ((97 <=? n) && (n <=? 102))%N then Some (n - 87)%N
  else if ((65 <=? n) && (n <=? 70))%N then Some (n - 55)%N
  else None.

Definition hex4 (s : gostring) : option (N * gostring) :=
  match s with
  | a :: b :: c :: d :: r =>
    x ← hexVal a; y ← hexVal b; z ← hexVal c; w ← hexVal d;
    Some (x * 4096 + y * 256 + z * 16 + w, r)%N
  | _ => None
  end.

Definition byteOf (n : N) : ascii := ascii_of_N n.

(** [utf8.AppendRune] *)
Definition encodeRune (r : N) : gostring :=
  (if r <? 0x80 then [byteOf r]
   else if r <? 0x800
   then [byteOf (N.lor 0xC0 (N.shiftr r 6)); byteOf (N.lor 0x80 (N.land r 0x3F))]
   else if ((0xD800 <=? r) && (r <=? 0xDFFF)) || (0x10FFFF <? r)
   then [byteOf 0xEF; byteOf 0xBF; byteOf 0xBD]
   else if r <? 0x10000
   then [byteOf (N.lor 0xE0 (N.shiftr r 12));
         byteOf (N.lor 0x80 (N.land (N.shiftr r 6) 0x3F));
         byteOf (N.lor 0x80 (N.land r 0x3F))]
   else [byteOf (N.lor 0xF0 (N.shiftr r 18));
         byteOf (N.lor 0x80 (N.land (N.shiftr r 12) 0x3F));
         byteOf (N.lor 0x80 (N.land (N.shiftr r 6) 0x3F));
         byteOf (N.lor 0x80 (N.land r 0x3F))])%N.

(** The body of a string literal, after its opening quote: the unquoted
    bytes and the input after the closing quote. *)
Fixpoint scanString (fuel : nat) (s : gostring) : option (gostring * gostring) :=
  match fuel with
  | O => None
  | S fuel' =>
    match s with
    | [] => None
    | c :: r =>
      if Ascii.eqb c dquote then Some ([], r)
      else if (Utf8.code c <? 32)%N then None
      else if isCh c "\"
      then match r with
           | [] => None
           | e :: r1 =>
             if isCh e "u"
             then
               '(u, r2) ← hex4 r1;
               let '(rune, r3) :=
                 if ((0xD800 <=? u) && (u <? 0xDC00))%N
                 then match r2 with
                      | b :: u' :: r2' =>
                        if isCh b "\" && isCh u' "u"
                        then match hex4 r2' with
                             | Some (v, r4) =>
                               if ((0xDC00 <=? v) && (v <? 0xE000))%N
                               then (0x10000 + (u - 0xD800) * 0x400 + (v - 0xDC00), r4)%N
                               else (Utf8.RuneError, r2)
                             | None => (Utf8.RuneError, r2)
                             end
                        else (Utf8.RuneError, r2)
                      | _ => (Utf8.RuneError, r2)
                      end
                 else (u, r2) in
               '(t, rest) ← scanString fuel' r3;
               Some (encodeRune rune ++ t, rest)
             else
               b ← (if Ascii.eqb e dquote then Some dquote
                    else if isCh e "\" then Some e
                    else if isCh e "/" then Some e
                    else if isCh e "b" then Some (ascii_of_nat 8)
                    else if isCh e "f" then Some (ascii_of_nat 12)
                    else if isCh e "n" then Some (ascii_of_nat 10)
                    else if isCh e "r" then Some (ascii_of_nat 13)
                    else if isCh e "t" then Some (ascii_of_nat 9)
                    else None);
               '(t, rest) ← scanString fuel' r1;
               Some (b :: t, rest)
           end
      else
        '(t, rest) ← scanString fuel' r;
        Some (c :: t, rest)
    end
  end.

(** Bytes that are not valid UTF-8 become U+FFFD in a decoded string. *)
Definition sanitize (s : gostring) : gostring :=
  concat (map (fun c : Utf8.chunk =>
                 if (fst c =? Utf8.RuneError)%N && (length (snd c) =? 1)
                 then encodeRune Utf8.RuneError else snd c)
              (Utf8.runes s)).

Definition literal (word : string) (v : json) (s : gostring)
  : option (json * gostring) :=
  if Strings.HasPrefix s (str word)
  then Some (v, drop (length (str word)) s) else None.

(** One JSON value at the front of [s] and the input after it. *)
Fixpoint parseValue (fuel : nat) (s : gostring) : option (json * gostring) :=
  match fuel with
  | O => None
  | S fuel' =>
    match skipWs s with
    | [] => None
    | c :: r =>
      if isCh c "{"
      then match skipWs r with
           | c' :: r' =>
             if isCh c' "}" then Some (JObject [], r')
             else '(ms, rest) ← parseMembers fuel' (c' :: r'); Some (JObject ms, rest)
           | [] => None
           end
      else if isCh c "["
      then match skipWs r with
           | c' :: r' =>
             if isCh c' "]" then Some (JArray [], r')
             else '(vs, rest) ← parseElems fuel' (c' :: r'); Some (JArray vs, rest)
           | [] => None
           end
      else if Ascii.eqb c dquote
      then '(t, rest) ← scanString (S (length r)) r; Some (JString (sanitize t), rest)
      else if isCh c "t" then literal "true" (JBool true) (c :: r)
      else if isCh c "f" then literal "false" (JBool false) (c :: r)
      else if isCh c "n" then literal "null" JNull (c :: r)
      else '(n, rest) ← scanNumber (c :: r); Some (JNumber n, rest)
    end
  end
with parseElems (fuel : nat) (s : gostring) : option (list json * gostring) :=
  match fuel with
  | O => None
  | S fuel' =>
    '(v, r) ← parseValue fuel' s;
    match skipWs r with
    | c :: r' =>
      if isCh c "," then '(vs, rest) ← parseElems fuel' r'; Some (v :: vs, rest)
      else if isCh c "]" then Some ([v], r')
      else None
    | [] => None
    end
  end
with parseMembers (fuel : nat) (s : gostring)
  : option (list (gostring * json) * gostring) :=
  match fuel with
  | O => None
  | S fuel' =>
    match skipWs s with
    | q :: r0 =>
      if Ascii.eqb q dquote
      then
        '(k, r1) ← scanString (S (length r0)) r0;
        match skipWs r1 with
        | colon :: r2 =>
          if isCh colon ":"
          then
            '(v, r3) ← parseValue fuel' r2;
            match skipWs r3 with
            | c :: r' =>
              if isCh c ","
              then '(ms, rest) ← parseMembers fuel' r'; Some ((sanitize k, v) :: ms, rest)
              else if isCh c "}" then Some ([(sanitize k, v)], r')
              else None
            | [] => None
            end
          else None
        | [] => None
        end
      else None
    | [] => None
    end
  end.

Definition lower (c : ascii) : ascii :=
  let n := Utf8.code c in
  if ((65 <=? n) && (n <=? 90))%N then ascii_of_N (n + 32) else c.

(** A member key names the field tagged [name]. *)
Definition keyIs (name : string) (key : gostring) : bool :=
  streq (map lower key) (map lower (str name)).

Fixpoint digitsVal (acc : Z) (s : gostring) : Z :=
  match s with
  | c :: s' => digitsVal (acc * 10 + Z.of_N (Utf8.code c - 48)) s'
  | [] => acc
  end.

(** [strconv.ParseInt(literal, 10, 64)] on a JSON number literal. *)
Definition parseInt (lit : gostring) : option Z :=
  let '(neg, digits) :=
    match lit with
    | c :: r => if isCh c "-" then (true, r) else (false, lit)
    | [] => (false, lit)
    end in
  if forallb isDigit digits && negb (bool_decide (digits = []))
  then
    let v := if neg then (- digitsVal 0 digits)%Z else digitsVal 0 digits in
    if ((- 2 ^ 63 <=? v) && (v <? 2 ^ 63))%Z then Some v else None
  else None.

Definition storeString (cur : gostring) (v : json) : option gostring :=
  match v with
  | JString s => Some s
  | JNull => Some cur
  | _ => None
  end.

Definition storeInt (cur : Z) (v : json) : option Z :=
  match v with
  | JNumber lit => parseInt lit
  | JNull => Some cur
  | _ => None
  end.

(** The members of an object stored into an [optionEntry], in order. *)
Fixpoint storeEntryMembers (cur : optionEntry) (ms : list (gostring * json))
  : option optionEntry :=
  match ms with
  | [] => Some cur
  | (k, v) :: ms' =>
    cur' ← (if keyIs "value" k
            then s ← storeString (Value cur) v;
                 Some (mkOption s (Description cur) (RecommendationOrder cur))
            else if keyIs "description" k
            then s ← storeString (Description cur) v;
                 Some (mkOption (Value cur) s (RecommendationOrder cur))
            else if keyIs "recommendation_order" k
            then n ← storeInt (RecommendationOrder cur) v;
                 Some (mkOption (Value cur) (Description cur) n)
            else Some cur);
    storeEntryMembers cur' ms'
  end.

Definition zeroEntry : optionEntry := mkOption [] [] 0.

Definition storeEntry (cur : optionEntry) (v : json) : option optionEntry :=
  match v with
  | JObject ms => storeEntryMembers cur ms
  | JNull => Some cur
  | _ => None
  end.

(** The elements of an array stored into a slice that holds [cur]: element
    [i] is decoded onto [cur[i]] when there is one, onto a zero entry
    otherwise. *)
Fixpoint storeElems (cur : list optionEntry) (vs : list json)
  : option (list optionEntry) :=
  match vs with
  | [] => Some []
  | v :: vs' =>
    e ← storeEntry (hd zeroEntry cur) v;
    es ← storeElems (tl cur) vs';
    Some (e :: es)
  end.

Definition storeOptions (cur : list optionEntry) (v : json)
  : option (list optionEntry) :=
  match v with
  | JArray vs => storeElems cur vs
  | JNull => Some []
  | _ => None
  end.

Fixpoint storeResponseMembers (cur : list optionEntry) (ms : list (gostring * json))
  : option (list optionEntry) :=
  match ms with
  | [] => Some cur
  | (k, v) :: ms' =>
    cur' ← (if keyIs "options" k then storeOptions cur v else Some cur);
    storeResponseMembers cur' ms'
  end.

Definition decodeOptionResponse (segment : gostring) : option (list optionEntry) :=
  '(v, _) ← parseValue (S (length segment)) segment;
  match v with
  | JObject ms => storeResponseMembers [] ms
  | JNull => Some []
  | _ => None
  end.

End Json.

(** ** ui.go *)

(** [type viewMode int] *)
Inductive viewMode : Type := modeInput | modeRunning | modeViewing.

(** [type cliOption struct]: a backend by name. Its [runPrompt] closure
    starts the external program; the runtime runs it when it executes the
    command [CmdRunPrompt] below. *)
Record cliOption : Type := mkCLI { name : gostring }.

(** bubbletea's key messages: the key types the program looks at, and
    [Key.String]. *)
Inductive keyType : Type :=
| KeyRunes | KeyEnter | KeyEsc | KeyCtrlC | KeyCtrlJ | KeyCtrlN | KeyCtrlP
| KeyCtrlR | KeyUp | KeyDown | KeyTab | KeyBackspace.

Record KeyMsg : Type := mkKey {
  KType : keyType;
  Runes : gostring;
  Alt : bool;
  Paste : bool
}.

Definition keyName (t : keyType) : gostring :=
  match t with
  | KeyRunes => []
  | KeyEnter => str "enter"
  | KeyEsc => str "esc"
  | KeyCtrlC => str "ctrl+c"
  | KeyCtrlJ => str "ctrl+j"
  | KeyCtrlN => str "ctrl+n"
  | KeyCtrlP => str "ctrl+p"
  | KeyCtrlR => str "ctrl+r"
  | KeyUp => str "up"
  | KeyDown => str "down"
  | KeyTab => str "tab"
  | KeyBackspace => str "backspace"
  end.

(** [func (k Key) String() string]: an alt prefix, then the runes (a paste
    in brackets) or the key's name. *)
Definition keyString (k : KeyMsg) : gostring :=
  (if Alt k then str "alt+" else [])
  ++ match KType k with
     | KeyRunes => if Paste k then str "[" ++ Runes k ++ str "]" else Runes k
     | t => keyName t
     end.

(** The messages [Update] receives. [OtherMsg] stands for the messages of
    other components (the text area's cursor blink and the like). *)
Inductive msg : Type :=
| WindowSizeMsg (Width Height : Z)
| TickMsg
| ResponseMsg (output : gostring) (err : option gostring) (cli : gostring)
| ExecResultMsg (err : option gostring) (exit : bool)
| Key (k : KeyMsg)
| OtherMsg (tag : nat).

(** The commands [Update] hands back to the runtime: [tea.Quit], [tickCmd],
    the closure of [submitPrompt] (it runs the backend captured at
    submission with the full prompt and reports a [ResponseMsg]),
    [execWithFeedback], [tea.Batch], and a command of the text area. *)
Inductive cmd : Type :=
| CmdNil
| CmdQuit
| CmdTick
| CmdRunPrompt (selectedCLI : cliOption) (fullPrompt : gostring)
| CmdExec (value : gostring) (exitOnSuccess : bool)
| CmdBatch (c1 c2 : cmd)
| CmdInput (tag : nat).

(** The bubbles text area, by the operations the program uses. *)
Class TextArea (T : Type) : Type := {
  taNew : T;
  taValue : T -> gostring;
  taSetValue : gostring -> T -> T;
  taFocus : T -> T;
  taSetHeight : Z -> T -> T;
  taSetWidth : Z -> T -> T;
  taUpdate : T -> msg -> T * option nat
}.

Definition inputCmd (c : option nat) : cmd :=
  match c with
  | Some tag => CmdInput tag
  | None => CmdNil
  end.

(** lipgloss styles, as renderers of text. *)
Class Styles : Type := {
  noOptsStyle : gostring -> gostring;
  selectedStyle : gostring -> gostring;
  normalStyle : gostring -> gostring;
  descStyle : gostring -> gostring
}.

(** The system clipboard: its content, and the error a write reports when
    the clipboard is not available. *)
Record world : Type := mkWorld {
  clipboard : gostring;
  clipboardError : option gostring
}.

(** [clipboard.WriteAll] *)
Definition WriteAll (text : gostring) (w : world) : option gostring * world :=
  match clipboardError w with
  | Some e => (Some e, w)
  | None => (None, mkWorld text None)
  end.

(** The environment [newModel] probes: whether the options schema file is
    found, and which backend programs are installed. *)
Class Env : Type := {
  schemaFound : bool;
  cliAvailable : gostring -> bool
}.

(** [type model struct] *)
Record model (T : Type) : Type := mkModel {
  cliOptions : list cliOption;
  cliIndex : Z;
  input : T;
  mode : viewMode;
  running : bool;
  width : Z;
  height : Z;
  ready : bool;
  lastPrompt : gostring;
  status : gostring;
  rawOutput : gostring;
  options : list optionEntry;
  selected : Z;
  lastParseError : option gostring;
  autoExecute : bool;
  spinnerFrame : Z
}.
Arguments cliOptions {T} _.
Arguments cliIndex {T} _.
Arguments input {T} _.
Arguments mode {T} _.
Arguments running {T} _.
Arguments width {T} _.
Arguments height {T} _.
Arguments ready {T} _.
Arguments lastPrompt {T} _.
Arguments status {T} _.
Arguments rawOutput {T} _.
Arguments options {T} _.
Arguments selected {T} _.
Arguments lastParseError {T} _.
Arguments autoExecute {T} _.
Arguments spinnerFrame {T} _.
Arguments mkModel {T}.

(** Field assignments [m.f = v]. *)
Definition set_cliIndex {T} (v : Z) (m : model T) : model T :=
  mkModel (cliOptions m) v (input m) (mode m) (running m) (width m) (height m) (ready m) (lastPrompt m) (status m) (rawOutput m) (options m) (selected m) (lastParseError m) (autoExecute m) (spinnerFrame m).
Definition set_input {T} (v : T) (m : model T) : model T :=
  mkModel (cliOptions m) (cliIndex m) v (mode m) (running m) (width m) (height m) (ready m) (lastPrompt m) (status m) (rawOutput m) (options m) (selected m) (lastParseError m) (autoExecute m) (spinnerFrame m).
Definition set_mode {T} (v : viewMode) (m : model T) : model T :=
  mkModel (cliOptions m) (cliIndex m) (input m) v (running m) (width m) (height m) (ready m) (lastPrompt m) (status m) (rawOutput m) (options m) (selected m) (lastParseError m) (autoExecute m) (spinnerFrame m).
Definition set_running {T} (v : bool) (m : model T) : model T :=
  mkModel (cliOptions m) (cliIndex m) (input m) (mode m) v (width m) (height m) (ready m) (lastPrompt m) (status m) (rawOutput m) (options m) (selected m) (lastParseError m) (autoExecute m) (spinnerFrame m).
Definition set_width {T} (v : Z) (m : model T) : model T :=
  mkModel (cliOptions m) (cliIndex m) (input m) (mode m) (running m) v (height m) (ready m) (lastPrompt m) (status m) (rawOutput m) (options m) (selected m) (lastParseError m) (autoExecute m) (spinnerFrame m).
Definition set_height {T} (v : Z) (m : model T) : model T :=
  mkModel (cliOptions m) (cliIndex m) (input m) (mode m) (running m) (width m) v (ready m) (lastPrompt m) (status m) (rawOutput m) (options m) (selected m) (lastParseError m) (autoExecute m) (spinnerFrame m).
Definition set_ready {T} (v : bool) (m : model T) : model T :=
  mkModel (cliOptions m) (cliIndex m) (input m) (mode m) (running m) (width m) (height m) v (lastPrompt m) (status m) (rawOutput m) (options m) (selected m) (lastParseError m) (autoExecute m) (spinnerFrame m).
Definition set_lastPrompt {T} (v : gostring) (m : model T) : model T :=
  mkModel (cliOptions m) (cliIndex m) (input m) (mode m) (running m) (width m) (height m) (ready m) v (status m) (rawOutput m) (options m) (selected m) (lastParseError m) (autoExecute m) (spinnerFrame m).
Definition set_status {T} (v : gostring) (m : model T) : model T :=
  mkModel (cliOptions m) (cliIndex m) (input m) (mode m) (running m) (width m) (height m) (ready m) (lastPrompt m) v (rawOutput m) (options m) (selected m) (lastParseError m) (autoExecute m) (spinnerFrame m).
Definition set_rawOutput {T} (v : gostring) (m : model T) : model T :=
  mkModel (cliOptions m) (cliIndex m) (input m) (mode m) (running m) (width m) (height m) (ready m) (lastPrompt m) (status m) v (options m) (selected m) (lastParseError m) (autoExecute m) (spinnerFrame m).
Definition set_options {T} (v : list optionEntry) (m : model T) : model T :=
  mkModel (cliOptions m) (cliIndex m) (input m) (mode m) (running m) (width m) (height m) (ready m) (lastPrompt m) (status m) (rawOutput m) v (selected m) (lastParseError m) (autoExecute m) (spinnerFrame m).
Definition set_selected {T} (v : Z) (m : model T) : model T :=
  mkModel (cliOptions m) (cliIndex m) (input m) (mode m) (running m) (width m) (height m) (ready m) (lastPrompt m) (status m) (rawOutput m) (options m) v (lastParseError m) (autoExecute m) (spinnerFrame m).
Definition set_lastParseError {T} (v : option gostring) (m : model T) : model T :=
  mkModel (cliOptions m) (cliIndex m) (input m) (mode m) (running m) (width m) (height m) (ready m) (lastPrompt m) (status m) (rawOutput m) (options m) (selected m) v (autoExecute m) (spinnerFrame m).
Definition set_autoExecute {T} (v : bool) (m : model T) : model T :=
  mkModel (cliOptions m) (cliIndex m) (input m) (mode m) (running m) (width m) (height m) (ready m) (lastPrompt m) (status m) (rawOutput m) (options m) (selected m) (lastParseError m) v (spinnerFrame m).
Definition set_spinnerFrame {T} (v : Z) (m : model T) : model T :=
  mkModel (cliOptions m) (cliIndex m) (input m) (mode m) (running m) (width m) (height m) (ready m) (lastPrompt m) (status m) (rawOutput m) (options m) (selected m) (lastParseError m) (autoExecute m) v.

Definition helpInput : gostring :=
  str "enter: send • ctrl+r: send & run • alt+enter/ctrl+j: newline".
Definition helpViewing : gostring :=
  str "up/down/j/k: select • enter: copy & exit • ctrl+r: run & exit • alt+enter: new prompt • esc/q: quit".
Definition bullet : gostring := str " • ".

(** The index expression [l[i]]: [None] is the run-time panic of an index
    out of range. *)
Definition index {A} (l : list A) (i : Z) : option A :=
  if ((i <? 0) || (Strings.len l <=? i))%Z then None else l !! Z.to_nat i.

(** [strings.EqualFold] on the backend names: ASCII letters compared without
    case (none of the four names has a letter with a non-ASCII fold). *)
Definition EqualFold (s t : gostring) : bool :=
  streq (map Json.lower s) (map Json.lower t).

Definition isNewline (k : KeyMsg) : bool :=
  match KType k with
  | KeyCtrlJ => true
  | KeyEnter => if Alt k then true else streq (keyString k) (str "alt+enter")
  | _ => streq (keyString k) (str "alt+enter")
  end.

Definition isCtrlR (k : KeyMsg) : bool :=
  match KType k with
  | KeyCtrlR => true
  | _ => streq (keyString k) (str "ctrl+r")
  end.

Definition isCtrlEnter (k : KeyMsg) : bool :=
  streq (keyString k) (str "ctrl+enter").

Definition isCtrlC (k : KeyMsg) : bool :=
  match KType k with KeyCtrlC => true | _ => false end.

Definition isEnter (k : KeyMsg) : bool :=
  match KType k with KeyEnter => true | _ => false end.

Section Machine.
Context {decoder : Decoder} {T : Type} {textarea : TextArea T}.
Context {styles : Styles} {env : Env}.

Definition allCLIOptions : list cliOption :=
  [mkCLI (str "codex"); mkCLI (str "claude"); mkCLI (str "gemini");
   mkCLI (str "opencode")].

(** The first position whose backend name matches [defaultCLI], else 0. *)
Fixpoint findCLI (defaultCLI : gostring) (i : Z) (opts : list cliOption) : Z :=
  match opts with
  | [] => 0
  | opt :: rest =>
    if EqualFold (name opt) defaultCLI then i
    else findCLI defaultCLI (i + 1) rest
  end.

(** [newModel]; [None] when [log.Fatalf] ends the process (no schema file,
    or no backend installed). *)
Definition newModel (defaultCLI : gostring) : option (model T) :=
  if negb schemaFound then None
  else
    let cliOptions := filter (fun opt => cliAvailable (name opt) = true) allCLIOptions in
    if (Strings.len cliOptions =? 0)%Z then None
    else
      let input := taSetHeight 1 (taFocus taNew) in
      Some (mkModel cliOptions (findCLI defaultCLI 0 cliOptions) input modeInput
              false 0 0 false [] helpInput [] [] 0 None false 0).

Definition currentCLI (m : model T) : option cliOption :=
  index (cliOptions m) (cliIndex m).

Definition resizeComponents (m : model T) : model T :=
  if negb (ready m) then m
  else if (10 <? width m)%Z
  then set_input (taSetWidth (width m - 10) (input m)) m
  else m.

Definition adjustTextareaHeight (m : model T) : model T :=
  let content := taValue (input m) in
  let lines := (Strings.Count content newline + 1)%Z in
  let lines := if (lines <? 1)%Z then 1%Z else lines in
  let lines := if (1 <? lines)%Z then (lines + 1)%Z else lines in
  let lines := if (20 <? lines)%Z then 20%Z else lines in
  set_input (taSetHeight lines (input m)) m.

Definition nextCLI (m : model T) : option (model T) :=
  if (Strings.len (cliOptions m) =? 0)%Z then Some m
  else
    let m := set_cliIndex (Z.rem (cliIndex m + 1) (Strings.len (cliOptions m))) m in
    cli ← currentCLI m;
    Some (set_status (str "using " ++ name cli ++ bullet ++ helpInput) m).

Definition prevCLI (m : model T) : option (model T) :=
  if (Strings.len (cliOptions m) =? 0)%Z then Some m
  else
    let m := set_cliIndex
               (Z.rem (cliIndex m - 1 + Strings.len (cliOptions m))
                      (Strings.len (cliOptions m))) m in
    cli ← currentCLI m;
    Some (set_status (str "using " ++ name cli ++ bullet ++ helpInput) m).

Definition moveSelection (delta : Z) (m : model T) : model T :=
  if (Strings.len (options m) =? 0)%Z then m
  else set_selected
         (Z.rem (selected m + delta + Strings.len (options m))
                (Strings.len (options m))) m.

Definition selectedValue (m : model T) : option gostring :=
  if (Strings.len (options m) =? 0)%Z then Some []
  else if ((selected m <? 0) || (Strings.len (options m) <=? selected m))%Z
  then Some []
  else Value <$> index (options m) (selected m).

(** The rows of [renderOptionsTable], option [i] first. *)
Fixpoint renderRows (i : Z) (sel : Z) (opts : list optionEntry) : list gostring :=
  match opts with
  | [] => []
  | opt :: rest =>
    let value := cleanText (Value opt) in
    let desc := cleanText (Description opt) in
    let line := if (i =? sel)%Z
                then selectedStyle (str "▶ " ++ value)
                else normalStyle (str "  " ++ value) in
    let rows := if streq desc [] then [line]
                else [line; descStyle (str "  " ++ desc)] in
    rows ++ renderRows (i + 1) sel rest
  end.

Definition renderOptionsTable (m : model T) : gostring :=
  if (Strings.len (options m) =? 0)%Z then noOptsStyle (str "(no options)")
  else Strings.Join (renderRows 0 (selected m) (options m)) newline.

Definition execWithFeedback (value : gostring) (exitOnSuccess : bool) : cmd :=
  CmdExec value exitOnSuccess.

Definition handleResponse (m : model T)
    (output : gostring) (err : option gostring) (cli : gostring)
  : model T * cmd :=
  let m := set_running false m in
  let m := set_mode modeViewing m in
  let respText := Strings.TrimSpace output in
  let respText :=
    match err with
    | Some e => if streq respText [] then e else respText
    | None => respText
    end in
  let m := set_rawOutput respText m in
  let m := set_lastParseError None m in
  match err with
  | Some _ =>
    let m := set_status (str "error from " ++ cli ++ bullet ++ helpViewing) m in
    let m := set_options [] m in
    let m := set_selected 0 m in
    (m, CmdNil)
  | None =>
    match parseOptions respText with
    | (_, Some parseErr) =>
      let m := set_lastParseError (Some parseErr) m in
      let m := set_status (str "parse error: " ++ parseErr ++ bullet ++ helpViewing) m in
      let m := set_options [] m in
      let m := set_selected 0 m in
      (m, CmdNil)
    | (opts, None) =>
      let m := set_options opts m in
      let m := set_selected 0 m in
      let m := set_status helpViewing m in
      match opts with
      | first :: _ =>
        (* [len(opts) > 0], so [opts[0]] is [first] *)
        if autoExecute m
        then
          let value := Value first in
          let m := set_status (str "running: " ++ cleanText value) m in
          let m := set_autoExecute false m in
          (m, execWithFeedback value true)
        else (m, CmdNil)
      | [] => (m, CmdNil)
      end
    end
  end.

Definition submitPrompt (m : model T) : option (model T * cmd) :=
  let userPrompt := Strings.TrimRight (taValue (input m)) newline in
  if streq (Strings.TrimSpace userPrompt) []
  then Some (set_status (str "prompt is empty • " ++ helpInput) m, CmdNil)
  else
    let m := set_lastPrompt userPrompt m in
    let fullPrompt := buildPrompt userPrompt in
    let m := set_running true m in
    let m := set_mode modeRunning m in
    let m := set_spinnerFrame 0 m in
    let m := set_status [] m in
    let m := set_options [] m in
    let m := set_lastParseError None m in
    let m := set_rawOutput [] m in
    let m := set_selected 0 m in
    selectedCLI ← currentCLI m;
    let m := resizeComponents m in
    Some (m, CmdBatch (CmdRunPrompt selectedCLI fullPrompt) CmdTick).

Definition updateInput (m : model T) (k : KeyMsg) : model T * cmd :=
  let m :=
    if isEnter k
    then
      let content := taValue (input m) in
      let futureLines := (Strings.Count content newline + 2)%Z in
      let futureLines := if (1 <? futureLines)%Z then (futureLines + 1)%Z else futureLines in
      let futureLines := if (20 <? futureLines)%Z then 20%Z else futureLines in
      set_input (taSetHeight futureLines (input m)) m
    else m in
  let '(input', c) := taUpdate (input m) (Key k) in
  let m := set_input input' m in
  (adjustTextareaHeight m, inputCmd c).

Definition handleInputKeys (m : model T) (k : KeyMsg) : option (model T * cmd) :=
  if isCtrlC k || streq (keyString k) (str "esc") then Some (m, CmdQuit)
  else if streq (keyString k) (str "ctrl+n") then m' ← nextCLI m; Some (m', CmdNil)
  else if streq (keyString k) (str "ctrl+p") then m' ← prevCLI m; Some (m', CmdNil)
  else if isNewline k
  then
    let currentLines := (Strings.Count (taValue (input m)) newline + 1)%Z in
    let newLines := (currentLines + 1)%Z in
    let m := if (newLines <=? 10)%Z
             then set_input (taSetHeight newLines (input m)) m else m in
    let '(input', c) := taUpdate (input m) (Key (mkKey KeyEnter [] false false)) in
    Some (set_input input' m, inputCmd c)
  else if isCtrlR k then submitPrompt (set_autoExecute true m)
  else if isEnter k || isCtrlEnter k then submitPrompt (set_autoExecute false m)
  else Some (updateInput m k).

Definition handleViewingKeys (w : world) (m : model T) (k : KeyMsg)
  : option (model T * cmd * world) :=
  if isCtrlC k || streq (keyString k) (str "esc") || streq (keyString k) (str "q")
  then Some (m, CmdQuit, w)
  else if isNewline k
  then
    let m := set_mode modeInput m in
    let m := set_running false m in
    let m := set_input (taFocus (taSetValue [] (input m))) m in
    let m := set_status helpInput m in
    let m := set_options [] m in
    let m := set_lastParseError None m in
    let m := set_rawOutput [] m in
    let m := set_autoExecute false m in
    Some (m, CmdNil, w)
  else if isCtrlR k
  then
    value ← selectedValue m;
    if streq value [] && streq (rawOutput m) []
    then Some (set_status (str "nothing to run • " ++ helpViewing) m, CmdNil, w)
    else
      let value := if streq value [] then rawOutput m else value in
      let m := set_status (str "running: " ++ cleanText value) m in
      Some (m, execWithFeedback value true, w)
  else if isEnter k
  then
    value ← selectedValue m;
    if streq value [] && streq (rawOutput m) []
    then Some (set_status (str "nothing to copy • " ++ helpViewing) m, CmdNil, w)
    else
      let value := if streq value [] then rawOutput m else value in
      match WriteAll value w with
      | (Some e, w') =>
        Some (set_status (str "❌ CLIPBOARD FAILED: " ++ e
                          ++ str " • Install xclip/xsel on Linux • " ++ helpViewing) m,
              CmdNil, w')
      | (None, w') =>
        Some (set_status (str "✅ Copied to clipboard: " ++ value) m, CmdQuit, w')
      end
  else if streq (keyString k) (str "up") || streq (keyString k) (str "k")
  then Some (moveSelection (-1) m, CmdNil, w)
  else if streq (keyString k) (str "down") || streq (keyString k) (str "j")
  then Some (moveSelection 1 m, CmdNil, w)
  else Some (m, CmdNil, w).

Definition handleRunningKeys (m : model T) (k : KeyMsg) : model T * cmd :=
  (* Only allow quitting while running *)
  if isCtrlC k || streq (keyString k) (str "esc") then (m, CmdQuit)
  else (m, CmdNil).

Definition handleKeyMsg (w : world) (m : model T) (k : KeyMsg)
  : option (model T * cmd * world) :=
  match mode m with
  | modeInput => r ← handleInputKeys m k; Some (r, w)
  | modeRunning => Some (handleRunningKeys m k, w)
  | modeViewing => handleViewingKeys w m k
  end.

(** [func (m model) Update(msg tea.Msg) (tea.Model, tea.Cmd)]; [None] is a
    run-time panic. *)
Definition Update (w : world) (m : model T) (message : msg)
  : option (model T * cmd * world) :=
  match message with
  | WindowSizeMsg Width Height =>
    let m := set_width Width m in
    let m := set_height Height m in
    let m := set_ready true m in
    let m := resizeComponents m in
    let m := match mode m with
             | modeInput => adjustTextareaHeight m
             | _ => m
             end in
    Some (m, CmdNil, w)
  | TickMsg =>
    if running m
    then Some (set_spinnerFrame (Z.rem (spinnerFrame m + 1) 10) m, CmdTick, w)
    else Some (m, CmdNil, w)
  | ResponseMsg output err cli => Some (handleResponse m output err cli, w)
  | ExecResultMsg err exit =>
    match err with
    | Some e =>
      let m := set_running false m in
      let m := set_mode modeViewing m in
      let m := set_status (str "❌ exec failed: " ++ e ++ bullet ++ helpViewing) m in
      Some (m, CmdNil, w)
    | None => if exit then Some (m, CmdQuit, w) else Some (m, CmdNil, w)
    end
  | Key k => handleKeyMsg w m k
  | OtherMsg _ =>
    match mode m with
    | modeInput =>
      let '(input', c) := taUpdate (input m) message in
      let m := set_input input' m in
      Some (adjustTextareaHeight m, inputCmd c, w)
    | _ => Some (m, CmdNil, w)
    end
  end.

(** The states of a run: the initial model, and every model [Update]
    returns from one. *)
Inductive reachable : model T -> Prop :=
| reach_init defaultCLI m :
    newModel defaultCLI = Some m -> reachable m
| reach_step w m message m' c w' :
    reachable m -> Update w m message = Some (m', c, w') -> reachable m'.

End Machine.

(** ** Concrete instances of the interfaces

    Used where a property is run on a concrete input: a text area that
    keeps its value, height and width; styles that render text as it is;
    an environment with the schema file and all four backends. *)
Module Ref.

Record area : Type := mkArea {
  areaValue : gostring;
  areaHeight : Z;
  areaWidth : Z;
  areaFocused : bool
}.

Definition areaUpdate (a : area) (message : msg) : area * option nat :=
  match message with
  | Key k =>
    match KType k with
    | KeyRunes => (mkArea (areaValue a ++ Runes k) (areaHeight a) (areaWidth a) (areaFocused a), None)
    | KeyEnter => (mkArea (areaValue a ++ newline) (areaHeight a) (areaWidth a) (areaFocused a), None)
    | _ => (a, None)
    end
  | _ => (a, None)
  end.

#[export] Instance areaTextArea : TextArea area := {|
  taNew := mkArea [] 6 40 false;
  taValue := areaValue;
  taSetValue := fun v a => mkArea v (areaHeight a) (areaWidth a) (areaFocused a);
  taFocus := fun a => mkArea (areaValue a) (areaHeight a) (areaWidth a) true;
  taSetHeight := fun h a => mkArea (areaValue a) h (areaWidth a) (areaFocused a);
  taSetWidth := fun w a => mkArea (areaValue a) (areaHeight a) w (areaFocused a);
  taUpdate := areaUpdate
|}.

#[export] Instance plainStyles : Styles := {|
  noOptsStyle := fun s => s;
  selectedStyle := fun s => s;
  normalStyle := fun s => s;
  descStyle := fun s => s
|}.

#[export] Instance fullEnv : Env := {|
  schemaFound := true;
  cliAvailable := fun _ => true
|}.

#[export] Instance jsonDecoder : Decoder := Json.decodeOptionResponse.

(** A JSON object member [key:value] with a string value, and one with a
    number. *)
Definition memberS (key value : string) : gostring :=
  quoted (str key) ++ str ":" ++ quoted (str value).
Definition memberN (key value : string) : gostring :=
  quoted (str key) ++ str ":" ++ str value.

(** An option object, and the response object around a list of them. *)
Definition optionJSON (value description rank : string) : gostring :=
  str "{" ++ memberS "value" value ++ str "," ++ memberS "description" description
  ++ str "," ++ memberN "recommendation_order" rank ++ str "}".

Definition responseJSON (opts : list gostring) : gostring :=
  str "{" ++ quoted (str "options") ++ str ":[" ++ Strings.Join opts (str ",") ++ str "]}".

Definition entry (value description : string) (rank : Z) : optionEntry :=
  mkOption (str value) (str description) rank.

(** The backend answer of the spec's end-to-end example. *)
Definition lsResponse : gostring :=
  responseJSON [optionJSON "ls -la" "list all files" "1";
                optionJSON "ls" "list files" "2"].

Definition clearWorld : world := mkWorld [] None.

(** The initial model with [codex] as the default backend, and the keys of
    the examples. *)
Definition key (t : keyType) : KeyMsg := mkKey t [] false false.
Definition typed (s : string) : KeyMsg := mkKey KeyRunes (str s) false false.
Definition altEnter : KeyMsg := mkKey KeyEnter [] true false.

Definition startModel : model area :=
  default (mkModel [] 0 taNew modeInput false 0 0 false [] [] [] [] 0 None false 0)
          (newModel (str "codex")).

(** The model and world after the messages [ms], from [m] and [w]; a panic
    keeps the state where it is. *)
Fixpoint run (w : world) (m : model area) (ms : list msg) : model area * world :=
  match ms with
  | [] => (m, w)
  | message :: rest =>
    match Update w m message with
    | Some (m', _, w') => run w' m' rest
    | None => (m, w)
    end
  end.

(** States of the examples: text typed into the input; the run started from
    it with a plain Enter and with ctrl+r; the review of the answer. *)
Definition typedModel : model area :=
  fst (run clearWorld startModel [Key (typed "list files in current directory")]).
Definition runningModel : model area :=
  fst (run clearWorld typedModel [Key (key KeyEnter)]).
Definition autoRunningModel : model area :=
  fst (run clearWorld typedModel [Key (key KeyCtrlR)]).
Definition reviewingModel : model area :=
  fst (run clearWorld runningModel [ResponseMsg lsResponse None (str "codex")]).

(** A failed backend run that still printed something. *)
Definition failedModel : model area :=
  fst (handleResponse runningModel (str "permission denied")
         (Some (str "exit status 1")) (str "codex")).

(** A draft object, then the final one, then the start of a third that is
    cut off. *)
Definition draftResponse : gostring :=
  str "Draft: " ++ responseJSON [optionJSON "ls" "list files" "1"]
  ++ str " Final: " ++ lsResponse
  ++ str " " ++ str "{" ++ quoted (str "options") ++ str ":[{".

(** Candidates that all fail: an empty array, a null, a string where the
    array belongs, and an object that is cut off. *)
Definition failingResponse : gostring :=
  str "{" ++ quoted (str "options") ++ str ":[]} "
  ++ str "{" ++ quoted (str "options") ++ str ":null} "
  ++ str "{" ++ quoted (str "options") ++ str ":" ++ quoted (str "none") ++ str "} "
  ++ str "{" ++ quoted (str "options") ++ str ":[{" ++ quoted (str "value") ++ str ":".

(** Valid JSON for the struct, with a space after the opening brace. *)
Definition spacedResponse : gostring :=
  str "{ " ++ quoted (str "options") ++ str ": [" ++ optionJSON "ls" "list files" "1"
  ++ str "] }".

(** A review whose only option has a value with repeated blanks. *)
Definition spacedOption : optionEntry := entry "echo  a   b" "print" 1.
Definition spacedModel : model area := set_options [spacedOption] reviewingModel.

End Ref.
(** ** prompt.go: the lookup of the options schema *)

(** The calls [schemaSources] makes to the operating system, in order. *)
Inductive osCall : Type :=
| CallReadFile (path : gostring)
| CallCreateTemp
| CallWrite (data : gostring)
| CallClose.

(** The operating system as [schemaSources] sees it: the results of
    [os.Executable], [os.Getwd] and [os.ReadFile] ([None] is an error),
    [filepath.Dir] and [filepath.Join], the outcome of [os.CreateTemp] (the
    name of the new file, or the text of the error) and the errors, if any,
    of the write to the temporary file and of closing it. [embeddedSchema]
    is the package variable with the schema compiled into the program. *)
Class Os : Type := {
  Executable : option gostring;
  Getwd : option gostring;
  Dir : gostring -> gostring;
  PathJoin : gostring -> gostring -> gostring;
  ReadFile : gostring -> option gostring;
  CreateTemp : gostring + gostring;
  TempWrite : gostring -> option gostring;
  TempClose : option gostring;
  embeddedSchema : gostring
}.

Definition schemaFile : gostring := str "options.schema.json".
Definition systemSchemaPath : gostring :=
  str "/usr/local/share/insta-assist/options.schema.json".
Definition schemaNotFound : gostring :=
  str "options.schema.json not found in executable directory, working directory, or /usr/local/share/insta-assist".

Section Schema.
Context {os : Os}.

Definition tryPaths : list gostring :=
  (match Executable with
   | Some exe => [PathJoin (Dir exe) schemaFile]
   | None => []
   end)
  ++ (match Getwd with
      | Some cwd => [PathJoin cwd schemaFile]
      | None => []
      end)
  ++ [systemSchemaPath].

(** The [for _, p := range tryPaths] loop: the first path that can be read,
    with its content, and the reads made. *)
Fixpoint readFirst (paths : list gostring)
  : option (gostring * gostring) * list osCall :=
  match paths with
  | [] => (None, [])
  | p :: rest =>
    match ReadFile p with
    | Some data => (Some (p, data), [CallReadFile p])
    | None =>
      let '(found, calls) := readFirst rest in
      (found, CallReadFile p :: calls)
    end
  end.

(** [schemaSources]: the path and the content of the schema ([inl]) or the
    text of the error ([inr]), and the calls made. *)
Definition schemaSources : (gostring * gostring + gostring) * list osCall :=
  let '(found, reads) := readFirst tryPaths in
  match found with
  | Some (p, data) => (inl (p, data), reads)
  | None =>
    if (0 <? Strings.len embeddedSchema)%Z
    then
      match CreateTemp with
      | inr e =>
        (inr (str "failed to create temp schema file: " ++ e),
         reads ++ [CallCreateTemp])
      | inl tmpName =>
        match TempWrite embeddedSchema with
        | Some e =>
          (inr (str "failed to write temp schema file: " ++ e),
           reads ++ [CallCreateTemp; CallWrite embeddedSchema; CallClose])
        | None =>
          match TempClose with
          | Some e =>
            (inr (str "failed to close temp schema file: " ++ e),
             reads ++ [CallCreateTemp; CallWrite embeddedSchema; CallClose])
          | None =>
            (inl (tmpName, embeddedSchema),
             reads ++ [CallCreateTemp; CallWrite embeddedSchema; CallClose])
          end
        end
      end
    else (inr schemaNotFound, reads)
  end.

End Schema.

(** ** ui.go: what a finished shell command reports *)

(** The callback [execWithFeedback] hands to [tea.ExecProcess]: the message
    [Update] receives when the command has run, [err] being the error of
    the run, if any. *)
Definition execResult (exitOnSuccess : bool) (err : option gostring) : msg :=
  match err with
  | Some e => ExecResultMsg (Some e) false
  | None => ExecResultMsg None exitOnSuccess
  end.

(** ** ui.go: the view *)

(** What [View] draws with: the lipgloss styles it builds, as renderers of
    text, [lipgloss.JoinHorizontal] at the top position, and the [View] and
    the [Height] of the text area. *)
Class ViewKit (T : Type) : Type := {
  loadingStyle : gostring -> gostring;
  tab : gostring -> gostring;
  activeTab : gostring -> gostring;
  spinnerStyle : gostring -> gostring;
  promptStyle : gostring -> gostring;
  errorStyle : gostring -> gostring;
  rawStyle : gostring -> gostring;
  warnStyle : gostring -> gostring;
  inputBoxStyle : gostring -> gostring;
  indicatorStyle : gostring -> gostring;
  statusStyle : gostring -> gostring;
  JoinHorizontal : list gostring -> gostring;
  taView : T -> gostring;
  taHeight : T -> Z
}.

Definition spinnerFrames : list gostring :=
  [str "⠋"; str "⠙"; str "⠹"; str "⠸"; str "⠼"; str "⠴"; str "⠦"; str "⠧";
   str "⠇"; str "⠏"].

Section Render.
Context {T : Type} {textarea : TextArea T} {styles : Styles} {kit : ViewKit T}.

(** The tabs, backend [i] first: the active one in the active style. *)
Fixpoint renderTabs (i : Z) (active : Z) (opts : list cliOption) : list gostring :=
  match opts with
  | [] => []
  | opt :: rest =>
    (if (i =? active)%Z then activeTab (name opt) else tab (name opt))
    :: renderTabs (i + 1) active rest
  end.

(** [scrollLines]: [make([]string, n)], then the first entry set to the up
    arrow, the last to the down arrow and those between to the bar. [None]
    is the panic of [make] with a negative length or of the assignment to
    the first entry of an empty slice. *)
Definition scrollLines (n : Z) : option (list gostring) :=
  if (n <? 0)%Z then None
  else if (n =? 0)%Z then None
  else if (n =? 1)%Z then Some [str "▼"]
  else Some (str "▲" :: replicate (Z.to_nat (n - 2)) (str "│") ++ [str "▼"]).

(** [emojiColumn]: one entry of two blanks per line of the input box. *)
Definition emojiColumn (inputLines : list gostring) : option (list gostring) :=
  match inputLines with
  | [] => None
  | _ :: _ => Some (replicate (length inputLines) (str "  "))
  end.

(** The branch [if m.running]: the spinner line. *)
Definition viewRunning (m : model T) : option gostring :=
  spinner ← index spinnerFrames (Z.rem (spinnerFrame m) (Strings.len spinnerFrames));
  cli ← currentCLI m;
  Some (spinnerStyle (spinner ++ str " Running " ++ name cli ++ str "...") ++ newline).

(** The branch [else if m.mode == modeViewing]: the condensed results. *)
Definition viewReview (m : model T) : gostring :=
  (if streq (Strings.TrimSpace (lastPrompt m)) [] then []
   else promptStyle (str "❯ " ++ lastPrompt m) ++ newline)
  ++ match lastParseError m with
     | Some e =>
       errorStyle (str "❌ Parse error: " ++ e) ++ newline
       ++ (if streq (rawOutput m) [] then []
           else rawStyle (rawOutput m) ++ newline)
     | None =>
       if (Strings.len (options m) =? 0)%Z
       then warnStyle (str "⚠ No options returned") ++ newline
       else renderOptionsTable m ++ newline
     end.

(** The last branch: the input box, with a scroll indicator when the text
    has more lines than the text area shows. *)
Definition viewInput (m : model T) : option gostring :=
  let totalLines := (Strings.Count (taValue (input m)) newline + 1)%Z in
  let visibleHeight := taHeight (input m) in
  let hasScroll := (visibleHeight <? totalLines)%Z in
  scrollIndicator ←
    (if hasScroll
     then lines ← scrollLines (visibleHeight + 2);
          Some (indicatorStyle (Strings.Join lines newline))
     else Some []);
  let inputBox := inputBoxStyle (taView (input m)) in
  let inputLines := Strings.Split inputBox newline in
  column ← emojiColumn inputLines;
  let emoji := Strings.Join column newline in
  let combined :=
    if hasScroll
    then JoinHorizontal [emoji; str " "; inputBox; str " "; scrollIndicator]
    else JoinHorizontal [emoji; str " "; inputBox] in
  Some (combined ++ newline).

(** [func (m model) View() string]; [None] is a run-time panic. *)
Definition View (m : model T) : option gostring :=
  if negb (ready m) then Some (loadingStyle (str "⏳ Loading..."))
  else
    let row := JoinHorizontal (renderTabs 0 (cliIndex m) (cliOptions m)) in
    body ← (if running m then viewRunning m
            else match mode m with
                 | modeViewing => Some (viewReview m)
                 | _ => viewInput m
                 end);
    let statusLine :=
      if streq (status m) [] then []
      else statusStyle (str "💡 " ++ status m) in
    Some (row ++ newline ++ body ++ statusLine).

End Render.

(** More instances and states for the examples. *)
Module RefView.
Import Ref.

(** Styles that put the text in brackets behind a letter, columns joined
    with a bar. *)
Definition tagged (tag : string) (s : gostring) : gostring :=
  str tag ++ str "[" ++ s ++ str "]".

#[export] Instance plainKit : ViewKit area := {|
  loadingStyle := tagged "L";
  tab := tagged "t";
  activeTab := tagged "T";
  spinnerStyle := tagged "S";
  promptStyle := tagged "P";
  errorStyle := tagged "E";
  rawStyle := tagged "R";
  warnStyle := tagged "W";
  inputBoxStyle := tagged "I";
  indicatorStyle := tagged "i";
  statusStyle := tagged "s";
  JoinHorizontal := fun cols => Strings.Join cols (str "|");
  taView := areaValue;
  taHeight := areaHeight
|}.

(** A system where only the system-wide schema file can be read, and one
    with no schema file at all but a schema compiled in. *)
Definition pathJoin (dir file : gostring) : gostring := dir ++ str "/" ++ file.

#[export] Instance installedOs : Os := {|
  Executable := Some (str "/opt/bin/insta");
  Getwd := Some (str "/home/user");
  Dir := fun _ => str "/opt/bin";
  PathJoin := pathJoin;
  ReadFile := fun p => if streq p systemSchemaPath then Some (str "{}") else None;
  CreateTemp := inl (str "/tmp/insta-options-schema-1.json");
  TempWrite := fun _ => None;
  TempClose := None;
  embeddedSchema := str "{}"
|}.

Definition bareOs : Os := {|
  Executable := None;
  Getwd := Some (str "/home/user");
  Dir := fun _ => str "/";
  PathJoin := pathJoin;
  ReadFile := fun _ => None;
  CreateTemp := inl (str "/tmp/insta-options-schema-1.json");
  TempWrite := fun _ => None;
  TempClose := None;
  embeddedSchema := str "{}"
|}.

(** The first window size message, and the states of the examples once the
    window is known. *)
Definition sized : msg := WindowSizeMsg 80 24.
Definition shownRunning : model area := fst (run clearWorld runningModel [sized]).
Definition shownReview : model area := fst (run clearWorld reviewingModel [sized]).
Definition shownFailed : model area := fst (run clearWorld failedModel [sized]).

End RefView.

(** * Definitions used in the statements

    Spec-side notions the theorems compare the program with. *)

(** The order of the ranking, read off the three cases of the comparison:
    [x] goes before [y] when both are ranked and [x]'s rank is the lower
    one, or when only [x] is ranked. *)
Definition before (x y : optionEntry) : bool :=
  let ox := RecommendationOrder x in
  let oy := RecommendationOrder y in
  (((0 <? ox) && (0 <? oy) && negb (ox =? oy) && (ox <? oy))
   || ((0 <? ox) && (oy <=? 0)))%Z.

(** Neither goes before the other: both unranked, or the same rank. *)
Definition sameRank (x y : optionEntry) : bool :=
  negb (before x y) && negb (before y x).

(** Insertion of [x] at the end of a sorted prefix, the prefix given in
    reverse: [x] moves past the elements it goes before. *)
Fixpoint sink (x : optionEntry) (rp : list optionEntry) : list optionEntry :=
  match rp with
  | [] => [x]
  | y :: rp' => if before x y then y :: sink x rp' else x :: rp
  end.

(** Stable insertion sort, as a function on lists. *)
Definition insertAll (l rp : list optionEntry) : list optionEntry :=
  fold_left (fun rp x => sink x rp) l rp.
Definition stableSort (l : list optionEntry) : list optionEntry :=
  rev (insertAll l []).

(** [a] may stand ahead of [b]: [b] does not go before [a]. *)
Definition inOrder (a b : optionEntry) : Prop := before b a = false.

(** A list is ranked when no later element goes before an earlier one. *)
Definition ranked (l : list optionEntry) : Prop := StronglySorted inOrder l.


(** The candidates of the scan, spec side: every suffix of the text that
    begins with the marker, from left to right. *)
Fixpoint candidates (s : gostring) : list gostring :=
  match s with
  | [] => []
  | _ :: s' =>
    if Strings.HasPrefix s optionsMarker then s :: candidates s' else candidates s'
  end.

(** A candidate is good when it decodes to a non-empty options array. *)
Definition goodDecode `{Decoder} (segment : gostring) : option (list optionEntry) :=
  match decodeResponse segment with
  | Some (o :: os) => Some (o :: os)
  | _ => None
  end.

(** The options of the last good candidate. *)
Definition lastGood `{Decoder} (segments : list gostring) : option (list optionEntry) :=
  last (omap goodDecode segments).

(** [marker] occurs in [s]. *)
Definition occursIn (marker s : gostring) : Prop :=
  exists pre post, s = pre ++ marker ++ post.


(** Notions for the text functions. *)

(** [v] can follow a rune: it is empty or begins with a byte that is not a
    continuation byte. *)
Definition boundary (v : gostring) : Prop :=
  match v with
  | [] => True
  | c :: _ => Utf8.isCont c = false
  end.

(** A chunk list that is the decoding of its own bytes. *)
Definition Decoded (cs : list Utf8.chunk) : Prop := Utf8.runes (Utf8.bytesOf cs) = cs.

(** A field: a non-empty string whose runes are all non-space. *)
Definition Solid (f : gostring) : Prop :=
  f <> [] /\ Forall (fun c => Utf8.spaceChunk c = false) (Utf8.runes f).

Definition spaceByte : ascii := ascii_of_nat 32.


(** Notions for the state machine. *)

(** The selection is a position of the option list, when there is one. *)
Definition selectionValid {T} (m : model T) : Prop :=
  options m <> [] -> (0 <= selected m < Strings.len (options m))%Z.

(** The active backend is a position of the registry. *)
Definition cliValid {T} (m : model T) : Prop :=
  (0 <= cliIndex m < Strings.len (cliOptions m))%Z.

(** The three outcomes of a completed run. *)
Definition showsOptions {T} (m : model T) : Prop := options m <> [].
Definition showsParseError {T} (m : model T) : Prop := lastParseError m <> None.
Definition showsErrorText {T} (err : option gostring) (m : model T) : Prop :=
  match err with
  | Some e => rawOutput m = e
  | None => False
  end.

Definition exactlyOne (A B C : Prop) : Prop :=
  (A /\ ~ B /\ ~ C) \/ (~ A /\ B /\ ~ C) \/ (~ A /\ ~ B /\ C).
Definition atMostOne (A B C : Prop) : Prop :=
  ~ (A /\ B) /\ ~ (A /\ C) /\ ~ (B /\ C).

(** The command runs a shell command. *)
Fixpoint runsShell (c : cmd) : bool :=
  match c with
  | CmdExec _ _ => true
  | CmdBatch c1 c2 => runsShell c1 || runsShell c2
  | _ => false
  end.

Definition isKey (message : msg) : bool :=
  match message with
  | Key _ => true
  | _ => false
  end.

(** The commands [Update] returns along a sequence of messages. *)
Fixpoint commands `{Decoder} `{TextArea T} (w : world) (m : model T) (ms : list msg)
  : list cmd :=
  match ms with
  | [] => []
  | message :: rest =>
    match Update w m message with
    | Some (m', c, w') => c :: commands w' m' rest
    | None => []
    end
  end.

(** The plain Enter key. *)
Definition plainEnter (k : KeyMsg) : Prop := KType k = KeyEnter /\ Alt k = false.

(** The part of the model the properties below speak about. *)
Definition core {T} (m : model T)
  : list cliOption * Z * list optionEntry * Z * bool * viewMode :=
  (cliOptions m, cliIndex m, options m, selected m, autoExecute m, mode m).

(** The invariant of the machine: the active backend is a position of the
    registry and the selection a position of the option list. *)
Definition modelInv {T} (m : model T) : Prop := cliValid m /\ selectionValid m.

(** The prompt [submitPrompt] sends for the text in the input. *)
Definition promptOf `{TextArea T} (m : model T) : gostring :=
  Strings.TrimRight (taValue (input m)) newline.

(** ** More notions for the state machine *)

(** The command asks a backend for options. *)
Fixpoint startsRun (c : cmd) : bool :=
  match c with
  | CmdRunPrompt _ _ => true
  | CmdBatch c1 c2 => startsRun c1 || startsRun c2
  | _ => false
  end.

(** The command ends the program. *)
Fixpoint quits (c : cmd) : bool :=
  match c with
  | CmdQuit => true
  | CmdBatch c1 c2 => quits c1 || quits c2
  | _ => false
  end.

(** The command re-arms the spinner tick. *)
Fixpoint ticks (c : cmd) : bool :=
  match c with
  | CmdTick => true
  | CmdBatch c1 c2 => ticks c1 || ticks c2
  | _ => false
  end.

(** The keys that quit in every mode. *)
Definition quitKey (k : KeyMsg) : bool :=
  isCtrlC k || streq (keyString k) (str "esc").

(** The part of the model that describes the current exchange. *)
Definition session {T} (m : model T)
  : bool * viewMode * list optionEntry * gostring * option gostring * Z :=
  (running m, mode m, options m, rawOutput m, lastParseError m, spinnerFrame m).

(** What the fields of an exchange satisfy together: the running flag is
    set in the running mode only, an answer (options, raw output, parse
    error) is held in the reviewing mode only, options and a parse error
    exclude each other, the options are in ranking order, and the spinner
    frame is a position of the ten spinner frames. *)
Definition sessionInv {T} (m : model T) : Prop :=
  (running m = true <-> mode m = modeRunning)
  /\ (mode m <> modeViewing ->
      options m = [] /\ rawOutput m = [] /\ lastParseError m = None)
  /\ (lastParseError m <> None -> options m = [])
  /\ ranked (options m)
  /\ (0 <= spinnerFrame m < 10)%Z.

(** ** More notions for the text functions and the parser *)

(** An ASCII white space byte: tab, newline, vertical tab, form feed,
    carriage return, space. *)
Definition asciiSpace (b : ascii) : bool :=
  Utf8.IsSpace (Utf8.code b) && (Utf8.code b <? Utf8.RuneSelf)%N.

(** The rune an ASCII byte decodes to, with the byte it spans. *)
Definition asciiChunk (b : ascii) : Utf8.chunk := (Utf8.code b, [b]).

(** A word: not empty, no ASCII white space in it. *)
Definition word (f : gostring) : Prop :=
  f <> [] /\ forall b, b ∈ f -> asciiSpace b = false.

(** The newline byte; the byte map of [ReplaceAll s "\n" " "]; and the same
    on a chunk: the newline becomes the space. *)
Definition newlineByte : ascii := ascii_of_nat 10.

Definition unbreak (b : ascii) : ascii :=
  if Ascii.eqb b newlineByte then spaceByte else b.

Definition unbreakChunk (c : Utf8.chunk) : Utf8.chunk :=
  match snd c with
  | [b] => if Ascii.eqb b newlineByte then (32%N, [spaceByte]) else c
  | _ => c
  end.

(** The trailer of the prompt from its example object on, and the option
    the example object spells out. *)
Definition promptTail : gostring := schemaExample ++ str ". No extra text.".
Definition placeholderOption : optionEntry := mkOption (str "...") (str "...") 1.

(** * Ranking: [sort.SliceStable] under [lessOptions] *)

Section SortFacts.

Lemma swap_adjacent {A} (l1 l2 : list A) (a b : A) :
  Sort.swap (l1 ++ a :: b :: l2) (S (length l1)) (length l1) = l1 ++ b :: a :: l2.
Proof.
  unfold Sort.swap.
  rewrite (lookup_app_r l1) by lia.
  rewrite (lookup_app_r l1) by lia.
  replace (S (length l1) - length l1) with 1 by lia.
  rewrite Nat.sub_diag. simpl.
  rewrite insert_app_r_alt by lia.
  replace (S (length l1) - length l1) with 1 by lia. simpl.
  rewrite insert_app_r_alt by lia.
  rewrite Nat.sub_diag. reflexivity.
Qed.

Lemma lessOptions_adjacent (l1 l2 : list optionEntry) (a b : optionEntry) :
  lessOptions (l1 ++ a :: b :: l2) (S (length l1)) (length l1) = before b a.
Proof.
  unfold lessOptions, before.
  rewrite (lookup_app_r l1) by lia.
  rewrite (lookup_app_r l1) by lia.
  replace (S (length l1) - length l1) with 1 by lia.
  rewrite Nat.sub_diag. simpl.
  replace (S (length l1) <? length l1) with false
    by (symmetry; apply Nat.ltb_ge; lia).
  destruct (0 <? RecommendationOrder b)%Z eqn:Hb;
    destruct (0 <? RecommendationOrder a)%Z eqn:Ha;
    destruct (RecommendationOrder b =? RecommendationOrder a)%Z eqn:He;
    destruct (RecommendationOrder a <=? 0)%Z eqn:Ha';
    destruct (RecommendationOrder b <=? 0)%Z eqn:Hb';
    simpl; try reflexivity; try lia.
  all: destruct (RecommendationOrder b <? RecommendationOrder a)%Z; reflexivity.
Qed.

Lemma insertDown_sink_at (l1 rp post : list optionEntry) (x : optionEntry) :
  l1 = rev rp ->
  Sort.insertDown lessOptions (l1 ++ x :: post) 0 (length l1)
  = rev (sink x rp) ++ post.
Proof.
  revert l1 post. induction rp as [|y rp IH]; intros l1 post ->; simpl.
  - reflexivity.
  - rewrite length_app. simpl length. rewrite Nat.add_1_r. simpl.
    rewrite <- (app_assoc (rev rp) [y]). simpl.
    rewrite lessOptions_adjacent.
    destruct (before x y) eqn:Hb.
    + rewrite swap_adjacent. rewrite (IH (rev rp)) by reflexivity. simpl.
      rewrite <- app_assoc. reflexivity.
    + simpl. rewrite <- !app_assoc. reflexivity.
Qed.

Lemma insertDown_sink (rp post : list optionEntry) (x : optionEntry) :
  Sort.insertDown lessOptions (rev rp ++ x :: post) 0 (length rp)
  = rev (sink x rp) ++ post.
Proof.
  rewrite <- (length_rev rp). apply insertDown_sink_at. reflexivity.
Qed.

Lemma insertionLoop_insertAll (rest rp : list optionEntry) :
  Sort.insertionLoop lessOptions (rev rp ++ rest) 0 (length rp) (length rest)
  = rev (insertAll rest rp).
Proof.
  revert rp. induction rest as [|x rest IH]; intros rp; simpl.
  - rewrite app_nil_r. reflexivity.
  - rewrite insertDown_sink.
    assert (Hlen : S (length rp) = length (sink x rp)).
    { clear. induction rp as [|y rp IH]; simpl; [reflexivity|].
      destruct (before x y); simpl; congruence. }
    rewrite Hlen. apply IH.
Qed.

(** The sort of the program, by swaps on the slice under the position-aware
    comparison, is stable insertion sort under [before]. *)
Lemma sortOptions_stableSort (opts : list optionEntry) :
  sortOptions opts = stableSort opts.
Proof.
  unfold sortOptions, Sort.SliceStable, Sort.insertionSort, stableSort.
  destruct opts as [|x rest]; [reflexivity|].
  simpl length. replace (S (length rest) - 1) with (length rest) by lia.
  exact (insertionLoop_insertAll rest [x]).
Qed.

Lemma sink_perm x rp : sink x rp ≡ₚ x :: rp.
Proof.
  induction rp as [|y rp IH]; simpl; [reflexivity|].
  destruct (before x y); [|reflexivity].
  rewrite IH. apply Permutation_swap.
Qed.

Lemma insertAll_perm l rp : insertAll l rp ≡ₚ rev l ++ rp.
Proof.
  revert rp. induction l as [|x l IH]; intros rp; simpl; [reflexivity|].
  unfold insertAll in *. simpl. rewrite IH, sink_perm.
  rewrite <- app_assoc. reflexivity.
Qed.

Lemma stableSort_perm l : stableSort l ≡ₚ l.
Proof.
  unfold stableSort. rewrite <- Permutation_rev, insertAll_perm, app_nil_r.
  symmetry. apply Permutation_rev.
Qed.

Lemma before_asym x y : before x y = true -> before y x = false.
Proof. unfold before. intros H. lia. Qed.

Lemma before_trans_neg x y z :
  before x y = false -> before y z = false -> before x z = false.
Proof. unfold before. lia. Qed.



Lemma sink_sorted x rp :
  StronglySorted (flip inOrder) rp -> StronglySorted (flip inOrder) (sink x rp).
Proof.
  induction rp as [|y rp IH]; simpl; intros Hs.
  - repeat constructor.
  - pose proof Hs as Hs0.
    apply StronglySorted_cons in Hs as [Hall Hs].
    destruct (before x y) eqn:Hb.
    + apply StronglySorted_cons. split; [|auto].
      rewrite sink_perm. constructor; [|exact Hall].
      unfold flip, inOrder. apply before_asym. exact Hb.
    + apply StronglySorted_cons. split; [|exact Hs0].
      constructor; [exact Hb|].
      eapply Forall_impl; [exact Hall|].
      intros z Hz. unfold flip, inOrder in *.
      eapply before_trans_neg; eassumption.
Qed.

Lemma insertAll_sorted l rp :
  StronglySorted (flip inOrder) rp -> StronglySorted (flip inOrder) (insertAll l rp).
Proof.
  revert rp. induction l as [|x l IH]; intros rp Hs; simpl; [exact Hs|].
  apply IH, sink_sorted, Hs.
Qed.

Lemma sorted_rev (rp : list optionEntry) :
  StronglySorted (flip inOrder) rp -> ranked (rev rp).
Proof.
  unfold ranked. induction rp as [|y rp IH]; simpl; intros Hs; [constructor|].
  apply StronglySorted_cons in Hs as [Hall Hs].
  apply StronglySorted_app. split_and!.
  - intros a b Ha Hb. apply list_elem_of_singleton in Hb as ->.
    rewrite Forall_forall in Hall. apply Hall.
    apply list_elem_of_In, in_rev, list_elem_of_In in Ha. exact Ha.
  - auto.
  - repeat constructor.
Qed.

Lemma stableSort_ranked l : ranked (stableSort l).
Proof. apply sorted_rev, insertAll_sorted. constructor. Qed.

Lemma sameRank_before e x y :
  sameRank e x = true -> sameRank e y = true -> before x y = false.
Proof. unfold sameRank, before. lia. Qed.

Lemma sink_filter e x rp :
  filter (fun y => sameRank e y = true) (sink x rp)
  = filter (fun y => sameRank e y = true) (x :: rp).
Proof.
  induction rp as [|y rp IH]; simpl; [reflexivity|].
  destruct (before x y) eqn:Hb; [|reflexivity].
  rewrite (filter_cons _ y), IH, !(filter_cons _ x), !(filter_cons _ y).
  destruct (decide (sameRank e x = true)) as [Hx|Hx];
    destruct (decide (sameRank e y = true)) as [Hy|Hy]; try reflexivity.
  rewrite (sameRank_before e x y Hx Hy) in Hb. discriminate.
Qed.

Lemma filter_rev_list {A} (P : A -> Prop) `{!forall x, Decision (P x)} (l : list A) :
  filter P (rev l) = rev (filter P l).
Proof.
  induction l as [|x l IH]; simpl; [reflexivity|].
  rewrite filter_app, IH, filter_cons.
  destruct (decide (P x)); simpl.
  - rewrite filter_cons_True by assumption. rewrite filter_nil. reflexivity.
  - rewrite filter_cons_False by assumption. rewrite filter_nil, app_nil_r. reflexivity.
Qed.

Lemma insertAll_filter e l rp :
  filter (fun y => sameRank e y = true) (insertAll l rp)
  = filter (fun y => sameRank e y = true) (rev l ++ rp).
Proof.
  revert rp. induction l as [|x l IH]; intros rp; [reflexivity|].
  unfold insertAll in *. cbn [fold_left rev]. rewrite IH.
  rewrite <- app_assoc, !filter_app, sink_filter.
  change (x :: rp) with ([x] ++ rp). rewrite filter_app. reflexivity.
Qed.

Lemma stableSort_stable e l :
  filter (fun y => sameRank e y = true) (stableSort l)
  = filter (fun y => sameRank e y = true) l.
Proof.
  unfold stableSort.
  rewrite filter_rev_list, insertAll_filter, app_nil_r, filter_rev_list.
  apply rev_involutive.
Qed.

End SortFacts.

(** C2. The ranking of [parseOptions] is a stable sort under the order of the
    three cases: its result is a rearrangement of the decoded options in
    which no option stands behind one it goes before (lower positive rank
    first, ranked before unranked), and options that do not go before one
    another (both unranked, or equal ranks) keep their decode order. Ranks
    3,1,2 come out as the options at positions 1,2,0; ranks 0,0,0 stay as
    they are; ranks 0,5,0 bring the rank-5 option to the front and leave the
    other two in their order. *)
Theorem sortOptions_stable_ranking (opts : list optionEntry) :
  sortOptions opts ≡ₚ opts
  /\ ranked (sortOptions opts)
  /\ (forall e, filter (fun y => sameRank e y = true) (sortOptions opts)
               = filter (fun y => sameRank e y = true) opts)
  /\ (forall v0 d0 v1 d1 v2 d2,
        sortOptions [mkOption v0 d0 3; mkOption v1 d1 1; mkOption v2 d2 2]
        = [mkOption v1 d1 1; mkOption v2 d2 2; mkOption v0 d0 3])
  /\ (forall v0 d0 v1 d1 v2 d2,
        sortOptions [mkOption v0 d0 0; mkOption v1 d1 0; mkOption v2 d2 0]
        = [mkOption v0 d0 0; mkOption v1 d1 0; mkOption v2 d2 0])
  /\ (forall v0 d0 v1 d1 v2 d2,
        sortOptions [mkOption v0 d0 0; mkOption v1 d1 5; mkOption v2 d2 0]
        = [mkOption v1 d1 5; mkOption v0 d0 0; mkOption v2 d2 0]).
Proof.
  rewrite sortOptions_stableSort. split_and!.
  - apply stableSort_perm.
  - apply stableSort_ranked.
  - intros e. apply stableSort_stable.
  - reflexivity.
  - reflexivity.
  - reflexivity.
Qed.

(** * The scan of [parseOptions] *)

Lemma streq_eq (a b : gostring) : streq a b = true <-> a = b.
Proof.
  revert b. induction a as [|x a IH]; intros [|y b]; simpl; try easy.
  rewrite andb_true_iff, Ascii.eqb_eq, IH. split.
  - intros [-> ->]. reflexivity.
  - intros [= -> ->]. auto.
Qed.

Lemma streq_refl (a : gostring) : streq a a = true.
Proof. apply streq_eq. reflexivity. Qed.

Lemma streq_nil (a : gostring) : streq a [] = true <-> a = [].
Proof. apply streq_eq. Qed.

Lemma HasPrefix_true (s p : gostring) :
  Strings.HasPrefix s p = true <-> exists r, s = p ++ r.
Proof.
  revert s. induction p as [|c p IH]; intros s; simpl.
  - split; [eauto|reflexivity].
  - destruct s as [|d s]; simpl.
    + split; [discriminate|]. intros [r Hr]. discriminate Hr.
    + rewrite andb_true_iff, Ascii.eqb_eq, IH. split.
      * intros [-> [r ->]]. eauto.
      * intros [r [= -> ->]]. eauto.
Qed.

Lemma indexOf_None_candidates (s : gostring) :
  Strings.indexOf s optionsMarker = None -> candidates s = [].
Proof.
  induction s as [|c s IH]; [reflexivity|].
  cbn [Strings.indexOf candidates].
  destruct (Strings.HasPrefix (c :: s) optionsMarker); [discriminate|].
  destruct (Strings.indexOf s optionsMarker); [discriminate|]. auto.
Qed.

Lemma indexOf_Some_candidates (s : gostring) (i : nat) :
  Strings.indexOf s optionsMarker = Some i ->
  candidates s = candidates (drop i s)
  /\ Strings.HasPrefix (drop i s) optionsMarker = true
  /\ i < length s.
Proof.
  revert i. induction s as [|c s IH]; intros i.
  - discriminate.
  - cbn [Strings.indexOf].
    destruct (Strings.HasPrefix (c :: s) optionsMarker) eqn:Hp.
    + intros [= <-]. rewrite drop_0, Hp. split_and!; [reflexivity..|simpl; lia].
    + destruct (Strings.indexOf s optionsMarker) as [j|]; [|discriminate].
      intros [= <-]. destruct (IH j eq_refl) as (H1 & H2 & H3).
      cbn [drop length candidates]. rewrite Hp.
      split_and!; [assumption..|lia].
Qed.

(** No occurrence of the marker begins inside the nine bytes the scan then
    skips: the marker's only brace is its first byte. *)
Lemma candidates_marker (seg : gostring) :
  Strings.HasPrefix seg optionsMarker = true ->
  candidates seg = seg :: candidates (drop (length optionsAdvance) seg).
Proof.
  intros [r ->]%HasPrefix_true. reflexivity.
Qed.

Section ParseFacts.
Context {decoder : Decoder}.

Lemma parseLoop_candidates (fuel : nat) (search : gostring) (lastOpts : list optionEntry) :
  length search < fuel ->
  parseLoop fuel search lastOpts
  = fold_left (fun acc seg => tryCandidate seg acc) (candidates search) lastOpts.
Proof.
  revert search lastOpts. induction fuel as [|fuel IH]; intros search lastOpts Hlen.
  - lia.
  - cbn [parseLoop]. unfold Strings.Index.
    destruct (Strings.indexOf search optionsMarker) as [i|] eqn:Hi.
    + destruct (indexOf_Some_candidates _ _ Hi) as (Hc & Hp & Hlt).
      assert ((Z.of_nat i <? 0)%Z = false) as -> by (apply Z.ltb_ge; lia).
      rewrite Hc, (candidates_marker _ Hp). cbn [fold_left].
      unfold Strings.sliceFrom, Strings.len.
      rewrite Nat2Z.id, <- Nat2Z.inj_add, Nat2Z.id.
      rewrite IH by (rewrite length_drop; change (length optionsAdvance) with 9; lia).
      rewrite drop_drop. reflexivity.
    + rewrite (indexOf_None_candidates _ Hi). reflexivity.
Qed.

(** The loop never runs out of fuel: more fuel changes nothing. *)
Lemma parseLoop_fuel (fuel : nat) (search : gostring) (lastOpts : list optionEntry) :
  length search < fuel ->
  parseLoop fuel search lastOpts = parseLoop (S (length search)) search lastOpts.
Proof.
  intros H. rewrite !parseLoop_candidates by lia. reflexivity.
Qed.

Lemma length_sortOptions (opts : list optionEntry) :
  length (sortOptions opts) = length opts.
Proof.
  apply Permutation_length. rewrite sortOptions_stableSort. apply stableSort_perm.
Qed.

Lemma tryCandidate_good (seg : gostring) (lastOpts : list optionEntry) :
  tryCandidate seg lastOpts
  = match goodDecode seg with
    | Some opts => sortOptions opts
    | None => lastOpts
    end.
Proof.
  unfold tryCandidate, goodDecode.
  destruct (decodeResponse seg) as [[|o os]|]; reflexivity.
Qed.

Lemma fold_tryCandidate (segs : list gostring) (lastOpts : list optionEntry) :
  fold_left (fun acc seg => tryCandidate seg acc) segs lastOpts
  = match lastGood segs with
    | Some opts => sortOptions opts
    | None => lastOpts
    end.
Proof.
  revert lastOpts. unfold lastGood.
  induction segs as [|seg segs IH]; intros lastOpts; [reflexivity|].
  cbn [fold_left]. rewrite IH, tryCandidate_good.
  change (omap goodDecode (seg :: segs))
    with (match goodDecode seg with
          | Some y => y :: omap goodDecode segs
          | None => omap goodDecode segs
          end).
  destruct (goodDecode seg) as [opts|]; [|reflexivity].
  destruct (omap goodDecode segs) as [|o2 l2] eqn:Ho; [reflexivity|].
  rewrite last_cons_cons. destruct (last (o2 :: l2)) eqn:Hl; [reflexivity|].
  apply last_None in Hl. discriminate.
Qed.

Lemma goodDecode_nonempty (seg : gostring) (opts : list optionEntry) :
  goodDecode seg = Some opts -> opts <> [].
Proof.
  unfold goodDecode. destruct (decodeResponse seg) as [[|o os]|]; intros [= <-].
  discriminate.
Qed.

Lemma lastGood_nonempty (segs : list gostring) (opts : list optionEntry) :
  lastGood segs = Some opts -> opts <> [].
Proof.
  unfold lastGood. intros Hl.
  apply last_Some_elem_of, list_elem_of_omap in Hl as (seg & _ & Hg).
  eapply goodDecode_nonempty, Hg.
Qed.

Lemma parseOptions_lastGood (raw : gostring) :
  parseOptions raw
  = match lastGood (candidates raw) with
    | Some opts => (sortOptions opts, None)
    | None => ([], Some parseError)
    end.
Proof.
  unfold parseOptions.
  rewrite parseLoop_candidates by lia. rewrite fold_tryCandidate.
  destruct (lastGood (candidates raw)) as [opts|] eqn:Hl; [|reflexivity].
  apply lastGood_nonempty in Hl. unfold Strings.len.
  rewrite length_sortOptions. destruct opts; [congruence|reflexivity].
Qed.

Lemma candidates_spec (raw seg : gostring) :
  seg ∈ candidates raw
  <-> Strings.HasPrefix seg optionsMarker = true /\ seg <> [] /\ exists pre, raw = pre ++ seg.
Proof.
  induction raw as [|c raw IH]; cbn [candidates].
  - split; [intros H; inversion H|].
    intros (_ & Hne & pre & Hpre). symmetry in Hpre.
    apply app_eq_nil in Hpre as [_ ->]. congruence.
  - assert (Htail : seg ∈ candidates raw <->
                    exists pre, Strings.HasPrefix seg optionsMarker = true
                                /\ seg <> [] /\ c :: raw = (c :: pre) ++ seg).
    { rewrite IH. split.
      - intros (H1 & H2 & pre & ->). eauto.
      - intros (pre & H1 & H2 & [= ->]). eauto. }
    destruct (Strings.HasPrefix (c :: raw) optionsMarker) eqn:Hp.
    + rewrite elem_of_cons, Htail. split.
      * intros [->|(pre & H1 & H2 & H3)].
        -- split_and!; [assumption|discriminate|exists []; reflexivity].
        -- eauto.
      * intros (H1 & H2 & [|d pre] & H3).
        -- left. simpl in H3. congruence.
        -- right. injection H3 as <- H3. exists pre. rewrite H3. auto.
    + rewrite Htail. split.
      * intros (pre & H1 & H2 & H3). eauto.
      * intros (H1 & H2 & [|d pre] & H3).
        -- simpl in H3. subst seg. congruence.
        -- injection H3 as <- H3. exists pre. rewrite H3. auto.
Qed.

Lemma lastGood_app_failing (cs1 cs2 : list gostring) (seg : gostring)
    (opts : list optionEntry) :
  goodDecode seg = Some opts ->
  Forall (fun c => goodDecode c = None) cs2 ->
  lastGood (cs1 ++ seg :: cs2) = Some opts.
Proof.
  intros Hg Hall. unfold lastGood.
  assert (Hnil : omap goodDecode cs2 = []).
  { induction Hall as [|c cs Hc _ IH]; [reflexivity|].
    change (omap goodDecode (c :: cs))
      with (match goodDecode c with
            | Some y => y :: omap goodDecode cs
            | None => omap goodDecode cs
            end).
    rewrite Hc. exact IH. }
  rewrite omap_app.
  change (omap goodDecode (seg :: cs2))
    with (match goodDecode seg with
          | Some y => y :: omap goodDecode cs2
          | None => omap goodDecode cs2
          end).
  rewrite Hg, Hnil, last_app. reflexivity.
Qed.

Lemma occursIn_candidates (raw : gostring) :
  occursIn optionsMarker raw <-> candidates raw <> [].
Proof.
  split.
  - intros (pre & post & ->) Hnil.
    assert (Hin : (optionsMarker ++ post) ∈ candidates (pre ++ optionsMarker ++ post)).
    { apply candidates_spec. split_and!.
      - apply HasPrefix_true. eauto.
      - discriminate.
      - eauto. }
    rewrite Hnil in Hin. inversion Hin.
  - destruct (candidates raw) as [|seg cs] eqn:Hc; [congruence|]. intros _.
    assert (Hin : seg ∈ candidates raw) by (rewrite Hc; left).
    apply candidates_spec in Hin as ([post ->]%HasPrefix_true & _ & pre & ->).
    exists pre, post. reflexivity.
Qed.

Lemma indexOf_occursIn (raw : gostring) :
  Strings.indexOf raw optionsMarker = None -> ~ occursIn optionsMarker raw.
Proof.
  intros Hi Ho. apply occursIn_candidates in Ho.
  apply Ho, indexOf_None_candidates, Hi.
Qed.

(** C1. [parseOptions] returns the (ranked) options of the last candidate,
    in left-to-right order of the marker's occurrences, that decodes to a
    non-empty options array, and fails when there is none. The candidates
    are exactly the suffixes of the text that begin with the marker. For a
    text with two candidates that both decode, the second one's options are
    returned; and a good candidate followed only by candidates that fail is
    the one returned. *)
Theorem parseOptions_last_good_candidate (raw : gostring) :
  parseOptions raw
  = match lastGood (candidates raw) with
    | Some opts => (sortOptions opts, None)
    | None => ([], Some parseError)
    end
  /\ (forall seg, seg ∈ candidates raw
                  <-> Strings.HasPrefix seg optionsMarker = true
                      /\ exists pre, raw = pre ++ seg)
  /\ (forall seg1 seg2 opts1 opts2,
        candidates raw = [seg1; seg2] ->
        goodDecode seg1 = Some opts1 -> goodDecode seg2 = Some opts2 ->
        parseOptions raw = (sortOptions opts2, None))
  /\ (forall cs1 seg cs2 opts,
        candidates raw = cs1 ++ seg :: cs2 ->
        goodDecode seg = Some opts ->
        Forall (fun c => goodDecode c = None) cs2 ->
        parseOptions raw = (sortOptions opts, None)).
Proof.
  split_and!.
  - apply parseOptions_lastGood.
  - intros seg. rewrite candidates_spec. split.
    + intros (H1 & _ & H3). auto.
    + intros (H1 & H3). split_and!; [assumption| |assumption].
      apply HasPrefix_true in H1 as [r ->]. discriminate.
  - intros seg1 seg2 opts1 opts2 Hc H1 H2.
    rewrite parseOptions_lastGood, Hc.
    change [seg1; seg2] with ([seg1] ++ [seg2]).
    rewrite (lastGood_app_failing [seg1] [] seg2 opts2 H2); [reflexivity|constructor].
  - intros cs1 seg cs2 opts Hc Hg Hall.
    rewrite parseOptions_lastGood, Hc, (lastGood_app_failing _ _ _ _ Hg Hall).
    reflexivity.
Qed.

(** C7. When no candidate decodes to a non-empty options array (no marker
    in the text at all, or every candidate fails to decode or decodes to an
    empty array, which is what a missing key, a null or an empty array give),
    [parseOptions] returns the error and no options. *)
Theorem parseOptions_no_good_candidate (raw : gostring) :
  Forall (fun seg => decodeResponse seg = None \/ decodeResponse seg = Some [])
         (candidates raw) ->
  parseOptions raw = ([], Some parseError).
Proof.
  intros Hall. rewrite parseOptions_lastGood.
  replace (lastGood (candidates raw)) with (@None (list optionEntry)); [reflexivity|].
  symmetry. unfold lastGood. apply last_None.
  induction Hall as [|seg cs Hseg _ IH]; [reflexivity|].
  change (omap goodDecode (seg :: cs))
    with (match goodDecode seg with
          | Some y => y :: omap goodDecode cs
          | None => omap goodDecode cs
          end).
  unfold goodDecode at 1. destruct Hseg as [-> | ->]; exact IH.
Qed.

(** C9. [parseOptions] succeeds only on a text that contains the marker, an
    opening brace immediately followed by the quoted key; on a text without
    it, whatever JSON it holds, the decoder is never consulted and the parse
    reports its error. *)
Theorem parseOptions_needs_marker (raw : gostring) :
  (forall opts, parseOptions raw = (opts, None) -> occursIn optionsMarker raw)
  /\ (~ occursIn optionsMarker raw ->
      candidates raw = [] /\ parseOptions raw = ([], Some parseError)).
Proof.
  split.
  - intros opts Hp. apply occursIn_candidates. intros Hnil.
    rewrite parseOptions_lastGood, Hnil in Hp. discriminate.
  - intros Hno.
    assert (Hnil : candidates raw = []).
    { destruct (candidates raw) eqn:Hc; [reflexivity|].
      exfalso. apply Hno, occursIn_candidates. congruence. }
    split; [exact Hnil|]. rewrite parseOptions_lastGood, Hnil. reflexivity.
Qed.

End ParseFacts.

(** * Text cleaning: runes, fields and [cleanText] *)

Section TextFacts.
Import Utf8.

Lemma DecodeRune_size (s : gostring) :
  s <> [] -> 1 <= snd (DecodeRune s) <= length s.
Proof.
  intros Hs. unfold DecodeRune.
  destruct s as [|s0 t]; [congruence|].
  repeat (case_match; simplify_eq/=; try lia).
Qed.

Lemma runesFuel_enough (fuel1 fuel2 : nat) (s : gostring) :
  length s <= fuel1 -> length s <= fuel2 ->
  runesFuel fuel1 s = runesFuel fuel2 s.
Proof.
  revert fuel2 s. induction fuel1 as [|fuel1 IH]; intros fuel2 s H1 H2.
  - destruct s; [|simpl in H1; lia]. destruct fuel2; reflexivity.
  - destruct s as [|c s]; [destruct fuel2; reflexivity|].
    destruct fuel2 as [|fuel2]; [simpl in H2; lia|].
    cbn [runesFuel].
    pose proof (DecodeRune_size (c :: s) ltac:(discriminate)) as Hn.
    destruct (DecodeRune (c :: s)) as [r n]. cbn [snd] in Hn.
    f_equal. apply IH; rewrite length_drop; simpl in *; lia.
Qed.

Lemma runes_nil : runes [] = [].
Proof. reflexivity. Qed.

Lemma runes_step (s : gostring) :
  s <> [] ->
  runes s = (fst (DecodeRune s), take (snd (DecodeRune s)) s)
            :: runes (drop (snd (DecodeRune s)) s).
Proof.
  intros Hs. pose proof (DecodeRune_size s Hs) as Hn.
  unfold runes at 1. destruct s as [|c s]; [congruence|].
  cbn [length runesFuel].
  destruct (DecodeRune (c :: s)) as [r n]. cbn [fst snd] in *.
  f_equal. apply runesFuel_enough; rewrite length_drop; simpl in *; lia.
Qed.

(** Induction along the runes of a string. *)
Lemma runes_ind (P : gostring -> Prop) :
  P [] ->
  (forall s, s <> [] -> P (drop (snd (DecodeRune s)) s) -> P s) ->
  forall s, P s.
Proof.
  intros Hnil Hstep s.
  induction s as [s IH] using (induction_ltof1 _ (@length ascii)).
  destruct s as [|c s]; [exact Hnil|].
  apply Hstep; [discriminate|].
  apply IH. unfold ltof.
  pose proof (DecodeRune_size (c :: s) ltac:(discriminate)).
  rewrite length_drop. simpl in *. lia.
Qed.

Lemma bytesOf_cons (c : chunk) (cs : list chunk) :
  bytesOf (c :: cs) = snd c ++ bytesOf cs.
Proof. reflexivity. Qed.

Lemma bytesOf_app (cs1 cs2 : list chunk) :
  bytesOf (cs1 ++ cs2) = bytesOf cs1 ++ bytesOf cs2.
Proof. unfold bytesOf. rewrite map_app, concat_app. reflexivity. Qed.

Lemma bytesOf_runes (s : gostring) : bytesOf (runes s) = s.
Proof.
  induction s as [|s Hs IH] using runes_ind; [reflexivity|].
  rewrite runes_step, bytesOf_cons, IH by assumption.
  apply take_drop.
Qed.

Lemma notCont_rejected (b0 : N) (c : ascii) :
  isCont c = false ->
  ((code c <? acceptLo b0) || (acceptHi b0 <? code c))%N = true.
Proof.
  unfold isCont, acceptLo, acceptHi. intros H.
  repeat case_match; lia.
Qed.

Lemma seqLen_bound (b0 : N) : 1 <= seqLen b0 <= 4.
Proof. unfold seqLen. repeat case_match; lia. Qed.

Lemma DecodeRune_app (u v : gostring) :
  u <> [] -> boundary v -> DecodeRune (u ++ v) = DecodeRune u.
Proof.
  intros Hu Hv.
  destruct v as [|c v]; [rewrite app_nil_r; reflexivity|].
  cbn [boundary] in Hv.
  pose proof (fun b0 => notCont_rejected b0 c Hv) as Hrej.
  destruct u as [|u0 [|u1 [|u2 [|u3 u']]]]; [congruence|..];
    pose proof (seqLen_bound (code u0));
    unfold DecodeRune; cbn [app length]; rewrite ?length_app;
    repeat first
      [ rewrite Hrej | rewrite Hv
      | progress cbn [negb]
      | match goal with
        | |- context [if ?b then _ else _] => destruct b eqn:?
        end ];
    try reflexivity; try lia.
Qed.

Lemma runes_app (u v : gostring) :
  boundary v -> runes (u ++ v) = runes u ++ runes v.
Proof.
  intros Hv. induction u as [|u Hu IH] using runes_ind; [reflexivity|].
  pose proof (DecodeRune_size u Hu) as Hn.
  assert (Huv : u ++ v <> []) by (destruct u; [congruence|discriminate]).
  rewrite (runes_step (u ++ v) Huv), (runes_step u Hu).
  rewrite (DecodeRune_app u v Hu Hv).
  rewrite take_app_le, drop_app_le by lia.
  rewrite IH. reflexivity.
Qed.

Lemma Decoded_runes (s : gostring) : Decoded (runes s).
Proof. unfold Decoded. rewrite bytesOf_runes. reflexivity. Qed.

Lemma Decoded_cons_inv (c : chunk) (cs : list chunk) :
  Decoded (c :: cs) ->
  snd c <> [] /\ DecodeRune (snd c ++ bytesOf cs) = (fst c, length (snd c))
  /\ Decoded cs.
Proof.
  unfold Decoded. rewrite bytesOf_cons. intros H.
  destruct (decide (snd c ++ bytesOf cs = [])) as [He|Hne].
  { rewrite He in H. discriminate H. }
  pose proof (DecodeRune_size _ Hne) as Hn.
  rewrite (runes_step _ Hne) in H.
  destruct (DecodeRune (snd c ++ bytesOf cs)) as [r n]. cbn [fst snd] in *.
  injection H as Hc Hcs. destruct c as [r' b]. cbn [fst snd] in *.
  injection Hc as -> Hb.
  assert (Hlen : length b = n).
  { rewrite <- Hb at 1. rewrite length_take. lia. }
  split_and!.
  - intros ->. simpl in Hlen. lia.
  - rewrite Hlen. reflexivity.
  - rewrite <- Hlen, drop_app_length in Hcs. exact Hcs.
Qed.

Lemma Decoded_app_r (cs1 cs2 : list chunk) : Decoded (cs1 ++ cs2) -> Decoded cs2.
Proof.
  induction cs1 as [|c cs1 IH]; [auto|].
  intros H. apply IH. apply (Decoded_cons_inv c _ H).
Qed.

Lemma Decoded_nonempty (cs : list chunk) :
  Decoded cs -> Forall (fun c => snd c <> []) cs.
Proof.
  induction cs as [|c cs IH]; intros H; constructor.
  - apply (Decoded_cons_inv c cs H).
  - apply IH. apply (Decoded_cons_inv c cs H).
Qed.

Lemma IsSpace_RuneError : IsSpace RuneError = false.
Proof. reflexivity. Qed.

(** A rune that starts with a continuation byte is the error rune. *)
Lemma DecodeRune_cont (c : ascii) (s : gostring) :
  isCont c = true -> fst (DecodeRune (c :: s)) = RuneError.
Proof.
  unfold isCont, DecodeRune, seqLen, RuneSelf. intros H.
  repeat case_match; simpl; try reflexivity; lia.
Qed.

Lemma space_chunk_boundary (c : chunk) (cs : list chunk) :
  Decoded (c :: cs) -> spaceChunk c = true -> boundary (bytesOf (c :: cs)).
Proof.
  intros H Hsp. destruct (Decoded_cons_inv c cs H) as (Hne & Hd & _).
  rewrite bytesOf_cons. destruct c as [r [|b bs]]; cbn [fst snd] in *; [congruence|].
  cbn [app boundary]. destruct (isCont b) eqn:Hc; [|reflexivity].
  pose proof (DecodeRune_cont b (bs ++ bytesOf cs) Hc) as Herr.
  cbn [app] in Hd. rewrite Hd in Herr. cbn [fst] in Herr.
  unfold spaceChunk in Hsp. rewrite Herr in Hsp. discriminate.
Qed.

(** A run of chunks followed by nothing, or by a space, is the decoding of
    its own bytes. *)
Lemma Decoded_app_l (run post : list chunk) :
  Decoded (run ++ post) ->
  match post with [] => True | c :: _ => spaceChunk c = true end ->
  Decoded run.
Proof.
  intros H Hpost.
  assert (Hb : boundary (bytesOf post)).
  { destruct post as [|c post]; [exact I|].
    apply space_chunk_boundary; [|exact Hpost].
    apply (Decoded_app_r run), H. }
  pose proof (Decoded_app_r _ _ H) as Hp.
  unfold Decoded in *.
  rewrite bytesOf_app, (runes_app _ _ Hb), Hp in H.
  apply app_inv_tail in H. exact H.
Qed.

Lemma fieldsLoop_solid (run cs : list chunk) :
  Decoded (run ++ cs) ->
  Forall (fun c => spaceChunk c = false) run ->
  Forall Solid (Strings.fieldsLoop (bytesOf run) cs).
Proof.
  revert run. induction cs as [|c cs IH]; intros run Hd Hrun.
  - cbn [Strings.fieldsLoop]. rewrite app_nil_r in Hd.
    destruct (bytesOf run) eqn:Hb; [constructor|].
    constructor; [|constructor]. rewrite <- Hb. split.
    + rewrite Hb. discriminate.
    + rewrite Hd. exact Hrun.
  - cbn [Strings.fieldsLoop]. destruct (spaceChunk c) eqn:Hsp.
    + assert (Hcs : Decoded cs).
      { apply (Decoded_app_r (run ++ [c])). rewrite <- app_assoc. exact Hd. }
      specialize (IH [] Hcs ltac:(constructor)).
      destruct (bytesOf run) eqn:Hb; [exact IH|].
      constructor; [|exact IH]. rewrite <- Hb. split.
      * rewrite Hb. discriminate.
      * rewrite (Decoded_app_l run (c :: cs) Hd Hsp). exact Hrun.
    + replace (bytesOf run ++ snd c) with (bytesOf (run ++ [c])).
      * apply IH; [rewrite <- app_assoc; exact Hd|].
        apply Forall_app. split; [exact Hrun|]. constructor; [exact Hsp|constructor].
      * rewrite bytesOf_app. unfold bytesOf at 2. simpl. rewrite app_nil_r. reflexivity.
Qed.

Lemma Fields_solid (s : gostring) : Forall Solid (Strings.Fields s).
Proof.
  unfold Strings.Fields.
  apply (fieldsLoop_solid [] (runes s)); [apply Decoded_runes|constructor].
Qed.

Lemma fieldsLoop_run (cur : gostring) (run cs : list chunk) :
  Forall (fun c => spaceChunk c = false) run ->
  Strings.fieldsLoop cur (run ++ cs) = Strings.fieldsLoop (cur ++ bytesOf run) cs.
Proof.
  revert cur. induction run as [|c run IH]; intros cur Hrun.
  - rewrite app_nil_r. reflexivity.
  - apply Forall_cons in Hrun as [Hc Hrun].
    cbn [app Strings.fieldsLoop]. rewrite Hc, IH by assumption.
    rewrite bytesOf_cons, app_assoc. reflexivity.
Qed.

Lemma runes_space (s : gostring) :
  runes (spaceByte :: s) = (32%N, [spaceByte]) :: runes s.
Proof. rewrite runes_step by discriminate. reflexivity. Qed.

(** The runes of joined fields: the runes of each field, a space between. *)
Lemma runes_Join_cons (f : gostring) (fs : list gostring) :
  fs <> [] ->
  runes (Strings.Join (f :: fs) (str " "))
  = runes f ++ (32%N, [spaceByte]) :: runes (Strings.Join fs (str " ")).
Proof.
  intros Hfs. destruct fs as [|g fs]; [congruence|].
  change (Strings.Join (f :: g :: fs) (str " "))
    with (f ++ spaceByte :: Strings.Join (g :: fs) (str " ")).
  rewrite runes_app by reflexivity. rewrite runes_space. reflexivity.
Qed.

Lemma Fields_Join (fs : list gostring) :
  Forall Solid fs -> Strings.Fields (Strings.Join fs (str " ")) = fs.
Proof.
  unfold Strings.Fields. induction 1 as [|f fs [Hne Hf] Hfs IH]; [reflexivity|].
  destruct fs as [|g fs].
  - cbn [Strings.Join]. rewrite <- (app_nil_r (runes f)).
    rewrite fieldsLoop_run by assumption. rewrite bytesOf_runes.
    cbn [app Strings.fieldsLoop]. destruct f; [congruence|reflexivity].
  - rewrite runes_Join_cons by discriminate.
    rewrite fieldsLoop_run by assumption. rewrite bytesOf_runes.
    cbn [app Strings.fieldsLoop]. change (spaceChunk (32%N, [spaceByte])) with true.
    cbn iota. rewrite IH. destruct f; [congruence|reflexivity].
Qed.

Lemma Solid_runes_head (f : gostring) :
  Solid f -> exists c cs, runes f = c :: cs /\ spaceChunk c = false.
Proof.
  intros [Hne Hall]. rewrite (runes_step f Hne) in *.
  apply Forall_cons in Hall as [Hc _]. eauto.
Qed.

Lemma Solid_runes_last (f : gostring) :
  Solid f -> exists cs c, runes f = cs ++ [c] /\ spaceChunk c = false.
Proof.
  intros [Hne Hall].
  destruct (runes f) as [|c0 cs0] eqn:Hr using rev_ind.
  - rewrite (runes_step f Hne) in Hr. discriminate.
  - apply Forall_app in Hall as [_ Hc]. apply Forall_cons in Hc as [Hc _]. eauto.
Qed.

Lemma runes_Join_head (fs : list gostring) :
  Forall Solid fs -> fs <> [] ->
  exists c cs, runes (Strings.Join fs (str " ")) = c :: cs /\ spaceChunk c = false.
Proof.
  intros Hall Hne. destruct Hall as [|f fs Hf Hfs]; [congruence|].
  destruct (Solid_runes_head f Hf) as (c & cs & Hr & Hc).
  destruct fs as [|g fs].
  - cbn [Strings.Join]. eauto.
  - rewrite runes_Join_cons by discriminate. rewrite Hr. cbn [app]. eauto.
Qed.

Lemma runes_Join_last (fs : list gostring) :
  Forall Solid fs -> fs <> [] ->
  exists cs c, runes (Strings.Join fs (str " ")) = cs ++ [c] /\ spaceChunk c = false.
Proof.
  induction 1 as [|f fs Hf Hfs IH]; [congruence|]. intros _.
  destruct fs as [|g fs].
  - cbn [Strings.Join]. apply Solid_runes_last, Hf.
  - destruct (IH ltac:(discriminate)) as (cs & c & Hr & Hc).
    rewrite runes_Join_cons by discriminate. rewrite Hr.
    exists (runes f ++ (32%N, [spaceByte]) :: cs), c.
    split; [|exact Hc]. rewrite <- app_assoc. reflexivity.
Qed.

Lemma TrimSpace_Join (fs : list gostring) :
  Forall Solid fs ->
  Strings.TrimSpace (Strings.Join fs (str " ")) = Strings.Join fs (str " ").
Proof.
  intros Hall. destruct (decide (fs = [])) as [->|Hne]; [reflexivity|].
  unfold Strings.TrimSpace.
  destruct (runes_Join_head fs Hall Hne) as (c & cs & Hr & Hc).
  destruct (runes_Join_last fs Hall Hne) as (cs' & c' & Hr' & Hc').
  rewrite Hr. cbn [Strings.dropSpaces]. rewrite Hc, <- Hr, Hr'.
  rewrite rev_app_distr. cbn [rev app Strings.dropSpaces]. rewrite Hc'.
  change (c' :: rev cs') with (rev [c'] ++ rev cs').
  rewrite <- rev_app_distr, rev_involutive, <- Hr'.
  apply bytesOf_runes.
Qed.

(** An ASCII byte of a string is a rune of its own. *)
Lemma DecodeRune_ascii (s : gostring) (b : ascii) :
  b ∈ take (snd (DecodeRune s)) s -> (code b < RuneSelf)%N ->
  DecodeRune s = (code b, 1) /\ take 1 s = [b].
Proof.
  unfold DecodeRune, RuneSelf, isCont, acceptLo, acceptHi.
  destruct s as [|s0 t]; [intros H; inversion H|].
  repeat (case_match; simplify_eq/=);
    rewrite ?take_0; intros Hin Hb;
    repeat match goal with
           | H : _ ∈ _ :: _ |- _ => apply elem_of_cons in H as [->|H]
           | H : _ ∈ [] |- _ => inversion H
           end;
    try (split; reflexivity); try lia.
Qed.

Lemma ascii_chunk (s : gostring) (b : ascii) :
  b ∈ s -> (code b < RuneSelf)%N -> (code b, [b]) ∈ runes s.
Proof.
  intros Hin Hb. induction s as [|s Hs IH] using runes_ind; [inversion Hin|].
  rewrite (runes_step s Hs).
  rewrite <- (take_drop (snd (DecodeRune s)) s) in Hin.
  apply elem_of_app in Hin as [Hin|Hin].
  - destruct (DecodeRune_ascii s b Hin Hb) as [Hd Ht].
    rewrite Hd. cbn [fst snd]. rewrite Ht. left.
  - right. apply IH, Hin.
Qed.

Lemma Solid_no_newline (f : gostring) :
  Solid f -> ascii_of_nat 10 ∉ f.
Proof.
  intros [_ Hall] Hin.
  apply ascii_chunk in Hin; [|reflexivity].
  rewrite Forall_forall in Hall. apply Hall in Hin. discriminate Hin.
Qed.

Lemma Join_no_newline (fs : list gostring) :
  Forall Solid fs -> ascii_of_nat 10 ∉ Strings.Join fs (str " ").
Proof.
  induction 1 as [|f fs Hf Hfs IH]; [intros H; inversion H|].
  destruct fs as [|g fs].
  - cbn [Strings.Join]. apply Solid_no_newline, Hf.
  - change (Strings.Join (f :: g :: fs) (str " "))
      with (f ++ spaceByte :: Strings.Join (g :: fs) (str " ")).
    intros [Hin|Hin]%elem_of_app.
    + apply (Solid_no_newline f Hf Hin).
    + apply elem_of_cons in Hin as [Hin|Hin]; [discriminate|]. apply IH, Hin.
Qed.

Lemma replaceLoop_absent (s new : gostring) (c : ascii) :
  c ∉ s -> Strings.replaceLoop 0 s [c] new = s.
Proof.
  induction s as [|x s IH]; [reflexivity|]. intros Hnin.
  cbn [Strings.replaceLoop Strings.HasPrefix].
  apply not_elem_of_cons in Hnin as [Hx Hs].
  destruct (Ascii.eqb x c) eqn:He.
  - apply Ascii.eqb_eq in He. congruence.
  - cbn [andb]. rewrite IH by assumption. reflexivity.
Qed.

Lemma cleanText_Join (fs : list gostring) :
  Forall Solid fs ->
  cleanText (Strings.Join fs (str " ")) = Strings.Join fs (str " ").
Proof.
  intros Hall. unfold cleanText.
  rewrite (TrimSpace_Join fs Hall).
  unfold Strings.ReplaceAll, newline.
  rewrite (replaceLoop_absent _ _ _ (Join_no_newline fs Hall)).
  rewrite (Fields_Join fs Hall). reflexivity.
Qed.

Lemma cleanText_idempotent (s : gostring) :
  cleanText (cleanText s) = cleanText s.
Proof.
  unfold cleanText at 2 3. apply cleanText_Join, Fields_solid.
Qed.

End TextFacts.

(** * The interaction state machine *)

Ltac model_simpl :=
  cbn [cliOptions cliIndex input mode running width height ready lastPrompt
       status rawOutput options selected lastParseError autoExecute spinnerFrame
       set_cliIndex set_input set_mode set_running set_width set_height
       set_ready set_lastPrompt set_status set_rawOutput set_options
       set_selected set_lastParseError set_autoExecute set_spinnerFrame
       fst snd] in *.

Ltac handler_inj :=
  repeat match goal with
         | H : Some _ = Some _ |- _ => injection H; clear H; intros
         | H : (_, _) = (_, _) |- _ => injection H; clear H; intros
         | H : Some _ = None |- _ => discriminate H
         | H : None = Some _ |- _ => discriminate H
         end.

Section MachineFacts.
Context {decoder : Decoder} {T : Type} {textarea : TextArea T}.
Context {styles : Styles} {env : Env}.

Lemma parseOptions_cases (raw : gostring) :
  (exists first rest, parseOptions raw = (first :: rest, None))
  \/ parseOptions raw = ([], Some parseError).
Proof.
  rewrite parseOptions_lastGood.
  destruct (lastGood (candidates raw)) as [opts|] eqn:Hl; [left|right; reflexivity].
  apply lastGood_nonempty in Hl.
  destruct (sortOptions opts) as [|first rest] eqn:Hs; [|eauto].
  apply (f_equal length) in Hs. rewrite length_sortOptions in Hs.
  destruct opts; [congruence|discriminate].
Qed.

(** C3 (as amended). After [handleResponse] the model is in the reviewing
    mode, and of the three outcomes (options non-empty, parse error set, raw
    output equal to the subprocess error's text) at most one holds; exactly
    one holds when the subprocess reported no error or its trimmed output is
    empty. An error with empty trimmed output makes the error text the raw
    output. An error with other output keeps the trimmed output as raw
    output, with no options and no parse error. *)
Theorem handleResponse_outcome (m : model T) (output : gostring)
    (err : option gostring) (cli : gostring) :
  let m' := fst (handleResponse m output err cli) in
  mode m' = modeViewing /\ running m' = false
  /\ atMostOne (showsOptions m') (showsParseError m') (showsErrorText err m')
  /\ (err = None \/ Strings.TrimSpace output = [] ->
      exactlyOne (showsOptions m') (showsParseError m') (showsErrorText err m'))
  /\ (forall e, err = Some e -> Strings.TrimSpace output = [] -> rawOutput m' = e)
  /\ (forall e, err = Some e -> Strings.TrimSpace output <> [] ->
      rawOutput m' = Strings.TrimSpace output
      /\ options m' = [] /\ lastParseError m' = None).
Proof.
  cbv zeta. unfold handleResponse.
  destruct err as [e0|].
  - destruct (streq (Strings.TrimSpace output) []) eqn:Ht; model_simpl.
    + apply streq_nil in Ht. rewrite Ht.
      split; [reflexivity|]. split; [reflexivity|]. split; [|split; [|split]].
      * unfold atMostOne, showsOptions, showsParseError. model_simpl. tauto.
      * intros _. right. right.
        unfold showsOptions, showsParseError, showsErrorText. model_simpl. tauto.
      * intros e' [= ->] _. reflexivity.
      * intros e' _ Hne. congruence.
    + assert (Hne : Strings.TrimSpace output <> []).
      { intros Hn. rewrite Hn in Ht. discriminate. }
      split; [reflexivity|]. split; [reflexivity|]. split; [|split; [|split]].
      * unfold atMostOne, showsOptions, showsParseError. model_simpl. tauto.
      * intros [Hn|Hn]; [discriminate|congruence].
      * intros e' _ Hn. congruence.
      * intros e' _ _. auto.
  - destruct (parseOptions_cases (Strings.TrimSpace output))
      as [(first & rest & ->)| ->]; model_simpl.
    + destruct (autoExecute m); model_simpl.
      all: split; [reflexivity|]; split; [reflexivity|]; split; [|split; [|split]].
      all: unfold atMostOne, exactlyOne, showsOptions, showsParseError, showsErrorText;
        model_simpl; try tauto; try (intros; discriminate).
      all: intros _; left; split_and!; [discriminate|tauto|tauto].
    + split; [reflexivity|]. split; [reflexivity|]. split; [|split; [|split]].
      all: unfold atMostOne, exactlyOne, showsOptions, showsParseError, showsErrorText;
        model_simpl; try tauto; try (intros; discriminate).
      intros _. right. left. split_and!; [tauto|discriminate|tauto].
Qed.

Lemma index_Some {A} (l : list A) (i : Z) :
  (0 <= i < Strings.len l)%Z -> exists x, index l i = Some x /\ l !! Z.to_nat i = Some x.
Proof.
  unfold index, Strings.len. intros Hi.
  replace ((i <? 0)%Z || (Z.of_nat (length l) <=? i)%Z) with false by lia.
  destruct (lookup_lt_is_Some_2 l (Z.to_nat i)) as [x Hx]; [lia|]. eauto.
Qed.

Lemma len_nil_iff {A} (l : list A) : (Strings.len l =? 0)%Z = true <-> l = [].
Proof. unfold Strings.len. destruct l; simpl; split; intros; try done; lia. Qed.

Lemma len_pos {A} (l : list A) : l <> [] -> (0 < Strings.len l)%Z.
Proof. unfold Strings.len. destruct l; simpl; [done|lia]. Qed.

(** [selectedValue] never reads outside the option list. *)
Lemma selectedValue_total (m : model T) :
  exists v, selectedValue m = Some v.
Proof.
  unfold selectedValue.
  destruct (Strings.len (options m) =? 0)%Z eqn:Hl; [eauto|].
  destruct ((selected m <? 0)%Z || (Strings.len (options m) <=? selected m)%Z) eqn:Hs;
    [eauto|].
  destruct (index_Some (options m) (selected m)) as (o & -> & _); [lia|].
  simpl. eauto.
Qed.

Lemma selectedValue_empty (m : model T) :
  options m = [] -> selectedValue m = Some [].
Proof. unfold selectedValue. intros ->. reflexivity. Qed.

Lemma selectedValue_valid (m : model T) :
  options m <> [] -> selectionValid m ->
  exists o, options m !! Z.to_nat (selected m) = Some o
            /\ selectedValue m = Some (Value o).
Proof.
  intros Hne Hv. specialize (Hv Hne). unfold selectedValue.
  destruct (Strings.len (options m) =? 0)%Z eqn:Hl.
  { apply len_nil_iff in Hl. congruence. }
  replace ((selected m <? 0)%Z || (Strings.len (options m) <=? selected m)%Z)
    with false by lia.
  destruct (index_Some (options m) (selected m) Hv) as (o & -> & Ho). eauto.
Qed.

Lemma moveSelection_empty (delta : Z) (m : model T) :
  options m = [] -> moveSelection delta m = m.
Proof. unfold moveSelection. intros ->. reflexivity. Qed.

Lemma moveSelection_wraps (delta : Z) (m : model T) :
  (delta = 1 \/ delta = -1)%Z -> options m <> [] -> selectionValid m ->
  moveSelection delta m
  = set_selected ((selected m + delta) mod Strings.len (options m)) m.
Proof.
  intros Hd Hne Hv. specialize (Hv Hne). unfold moveSelection.
  destruct (Strings.len (options m) =? 0)%Z eqn:Hl.
  { apply len_nil_iff in Hl. congruence. }
  f_equal.
  assert (0 < Strings.len (options m))%Z by lia.
  assert (0 <= selected m + delta + Strings.len (options m))%Z by lia.
  rewrite Z.rem_mod_nonneg by assumption.
  rewrite <- (Z.mod_add (selected m + delta) 1) by lia. f_equal. lia.
Qed.

Lemma moveSelection_valid (delta : Z) (m : model T) :
  (delta = 1 \/ delta = -1)%Z -> selectionValid m ->
  selectionValid (moveSelection delta m).
Proof.
  intros Hd Hv. destruct (decide (options m = [])) as [He|Hne].
  - rewrite moveSelection_empty by assumption. exact Hv.
  - rewrite moveSelection_wraps by assumption.
    unfold selectionValid. model_simpl. intros _.
    apply Z.mod_pos_bound, len_pos, Hne.
Qed.

Lemma resizeComponents_core (m : model T) : core (resizeComponents m) = core m.
Proof. unfold resizeComponents. repeat case_match; reflexivity. Qed.

Lemma adjustTextareaHeight_core (m : model T) :
  core (adjustTextareaHeight m) = core m.
Proof. reflexivity. Qed.

Lemma inputCmd_quiet (o : option nat) : runsShell (inputCmd o) = false.
Proof. destruct o; reflexivity. Qed.

Lemma updateInput_core (m : model T) (k : KeyMsg) :
  core (fst (updateInput m k)) = core m
  /\ runsShell (snd (updateInput m k)) = false.
Proof.
  unfold updateInput.
  destruct (taUpdate _ _) as [input' c]. cbn [fst snd].
  split; [|apply inputCmd_quiet].
  rewrite adjustTextareaHeight_core. destruct (isEnter k); reflexivity.
Qed.

Lemma currentCLI_valid (m : model T) :
  cliValid m -> exists cli, currentCLI m = Some cli.
Proof.
  intros H. destruct (index_Some (cliOptions m) (cliIndex m) H) as (cli & Hc & _).
  exists cli. exact Hc.
Qed.

Lemma nextCLI_spec (m m' : model T) :
  nextCLI m = Some m' ->
  (cliOptions m = [] /\ m' = m)
  \/ (cliOptions m <> []
      /\ core m' = (cliOptions m,
                    Z.rem (cliIndex m + 1) (Strings.len (cliOptions m)),
                    options m, selected m, autoExecute m, mode m)).
Proof.
  unfold nextCLI. destruct (Strings.len (cliOptions m) =? 0)%Z eqn:Hl.
  - apply len_nil_iff in Hl. intros [= <-]. left. auto.
  - intros H. right. split.
    + intros Hn. rewrite Hn in Hl. discriminate.
    + destruct (currentCLI _) as [cli|]; [|discriminate].
      cbn in H. injection H as <-. reflexivity.
Qed.

Lemma prevCLI_spec (m m' : model T) :
  prevCLI m = Some m' ->
  (cliOptions m = [] /\ m' = m)
  \/ (cliOptions m <> []
      /\ core m' = (cliOptions m,
                    Z.rem (cliIndex m - 1 + Strings.len (cliOptions m))
                          (Strings.len (cliOptions m)),
                    options m, selected m, autoExecute m, mode m)).
Proof.
  unfold prevCLI. destruct (Strings.len (cliOptions m) =? 0)%Z eqn:Hl.
  - apply len_nil_iff in Hl. intros [= <-]. left. auto.
  - intros H. right. split.
    + intros Hn. rewrite Hn in Hl. discriminate.
    + destruct (currentCLI _) as [cli|]; [|discriminate].
      cbn in H. injection H as <-. reflexivity.
Qed.

Lemma nextCLI_total (m : model T) :
  cliValid m -> exists m', nextCLI m = Some m'.
Proof.
  intros Hv. unfold nextCLI.
  destruct (Strings.len (cliOptions m) =? 0)%Z eqn:Hl; [eauto|].
  destruct (currentCLI_valid
              (set_cliIndex (Z.rem (cliIndex m + 1) (Strings.len (cliOptions m))) m))
    as [cli ->]; [|cbn; eauto].
  unfold cliValid in *. model_simpl.
  apply Z.rem_bound_pos; lia.
Qed.

Lemma prevCLI_total (m : model T) :
  cliValid m -> exists m', prevCLI m = Some m'.
Proof.
  intros Hv. unfold prevCLI.
  destruct (Strings.len (cliOptions m) =? 0)%Z eqn:Hl; [eauto|].
  destruct (currentCLI_valid
              (set_cliIndex (Z.rem (cliIndex m - 1 + Strings.len (cliOptions m))
                                   (Strings.len (cliOptions m))) m))
    as [cli ->]; [|cbn; eauto].
  unfold cliValid in *. model_simpl.
  apply Z.rem_bound_pos; lia.
Qed.

Lemma submitPrompt_spec (m m' : model T) (c : cmd) :
  submitPrompt m = Some (m', c) ->
  (Strings.TrimSpace (promptOf m) = [] /\ core m' = core m /\ c = CmdNil)
  \/ (Strings.TrimSpace (promptOf m) <> []
      /\ core m' = (cliOptions m, cliIndex m, [], 0%Z, autoExecute m, modeRunning)
      /\ running m' = true
      /\ exists cli, currentCLI m = Some cli
                     /\ c = CmdBatch (CmdRunPrompt cli (buildPrompt (promptOf m))) CmdTick).
Proof.
  unfold submitPrompt, promptOf.
  destruct (streq (Strings.TrimSpace _) []) eqn:Ht.
  - apply streq_nil in Ht. intros [= <- <-]. left. auto.
  - intros H. right.
    assert (Hne : Strings.TrimSpace (Strings.TrimRight (taValue (input m)) newline) <> []).
    { intros Hn. rewrite Hn in Ht. discriminate. }
    split; [exact Hne|].
    change (currentCLI (set_selected _ _)) with (currentCLI m) in H.
    destruct (currentCLI m) as [cli|]; [|discriminate].
    cbn [mbind option_bind] in H. injection H as <- <-.
    rewrite resizeComponents_core. split_and!; [reflexivity| |eauto].
    unfold resizeComponents. repeat case_match; reflexivity.
Qed.

Lemma submitPrompt_total (m : model T) :
  cliValid m -> exists r, submitPrompt m = Some r.
Proof.
  intros Hv. unfold submitPrompt.
  destruct (streq _ []); [eauto|].
  change (currentCLI (set_selected _ _)) with (currentCLI m).
  destruct (currentCLI_valid m Hv) as [cli ->]. cbn. eauto.
Qed.

Lemma handleInputKeys_cases (m m' : model T) (k : KeyMsg) (c : cmd) :
  handleInputKeys m k = Some (m', c) ->
  (core m' = core m /\ runsShell c = false)
  \/ (streq (keyString k) (str "ctrl+n") = true /\ nextCLI m = Some m' /\ c = CmdNil)
  \/ (streq (keyString k) (str "ctrl+p") = true /\ prevCLI m = Some m' /\ c = CmdNil)
  \/ (isCtrlR k = true /\ submitPrompt (set_autoExecute true m) = Some (m', c))
  \/ (isCtrlR k = false /\ isNewline k = false /\ isEnter k || isCtrlEnter k = true
      /\ submitPrompt (set_autoExecute false m) = Some (m', c)).
Proof.
  unfold handleInputKeys.
  destruct (isCtrlC k || streq (keyString k) (str "esc")).
  { intros [= <- <-]. left. auto. }
  destruct (streq (keyString k) (str "ctrl+n")) eqn:Hn.
  { destruct (nextCLI m) as [m1|] eqn:H1; [|discriminate].
    intros [= <- <-]. right. left. auto. }
  destruct (streq (keyString k) (str "ctrl+p")) eqn:Hp.
  { destruct (prevCLI m) as [m1|] eqn:H1; [|discriminate].
    intros [= <- <-]. right. right. left. auto. }
  destruct (isNewline k) eqn:Hnl.
  { destruct (taUpdate _ _) as [input' c0]. intros [= <- <-]. left.
    split; [|apply inputCmd_quiet]. case_match; reflexivity. }
  destruct (isCtrlR k) eqn:Hr.
  { intros H. right. right. right. left. auto. }
  destruct (isEnter k || isCtrlEnter k) eqn:He.
  { intros H. right. right. right. right. auto. }
  intros [= H]. left.
  destruct (updateInput_core m k) as [H1 H2].
  rewrite H in H1, H2. auto.
Qed.

Lemma handleInputKeys_total (m : model T) (k : KeyMsg) :
  cliValid m -> exists r, handleInputKeys m k = Some r.
Proof.
  intros Hv. unfold handleInputKeys.
  repeat case_match; eauto.
  - destruct (nextCLI_total m Hv) as [m' ->]. cbn. eauto.
  - destruct (prevCLI_total m Hv) as [m' ->]. cbn. eauto.
  - apply submitPrompt_total. exact Hv.
  - apply submitPrompt_total. exact Hv.
Qed.

Lemma handleRunningKeys_spec (m : model T) (k : KeyMsg) :
  fst (handleRunningKeys m k) = m
  /\ (snd (handleRunningKeys m k) = CmdNil \/ snd (handleRunningKeys m k) = CmdQuit).
Proof. unfold handleRunningKeys. case_match; auto. Qed.

(** What a key does in the reviewing mode. *)
Lemma handleViewingKeys_cases (w w' : world) (m m' : model T) (k : KeyMsg) (c : cmd) :
  handleViewingKeys w m k = Some (m', c, w') ->
  (core m' = core m /\ c = CmdQuit)
  \/ (isNewline k = true /\ w' = w /\ c = CmdNil
      /\ core m' = (cliOptions m, cliIndex m, [], selected m, false, modeInput))
  \/ (isNewline k = false /\ isCtrlR k = true /\ w' = w /\ core m' = core m
      /\ exists v, selectedValue m = Some v
         /\ ((v = [] /\ rawOutput m = [] /\ c = CmdNil)
             \/ (let value := if streq v [] then rawOutput m else v in
                 value <> [] /\ c = CmdExec value true
                 /\ m' = set_status (str "running: " ++ cleanText value) m)))
  \/ (isNewline k = false /\ isCtrlR k = false /\ isEnter k = true
      /\ core m' = core m
      /\ exists v, selectedValue m = Some v
         /\ ((v = [] /\ rawOutput m = [] /\ c = CmdNil /\ w' = w)
             \/ (let value := if streq v [] then rawOutput m else v in
                 value <> []
                 /\ ((clipboardError w = None /\ c = CmdQuit
                      /\ w' = mkWorld value None)
                     \/ (clipboardError w <> None /\ c = CmdNil /\ w' = w)))))
  \/ (exists delta, (delta = 1 \/ delta = -1)%Z
      /\ m' = moveSelection delta m /\ c = CmdNil /\ w' = w)
  \/ (m' = m /\ c = CmdNil /\ w' = w).
Proof.
  unfold handleViewingKeys.
  destruct (isCtrlC k || streq (keyString k) (str "esc") || streq (keyString k) (str "q")).
  { intros [= <- <- <-]. left. auto. }
  destruct (isNewline k) eqn:Hnl.
  { intros [= <- <- <-]. right. left. auto. }
  destruct (isCtrlR k) eqn:Hr.
  { destruct (selectedValue m) as [v|] eqn:Hv; [|discriminate].
    cbn [mbind option_bind]. intros H. right. right. left.
    split_and!; try reflexivity.
    - destruct (streq v [] && streq (rawOutput m) []); injection H as <- <- <-; reflexivity.
    - destruct (streq v [] && streq (rawOutput m) []); injection H as <- <- <-; reflexivity.
    - exists v. split; [reflexivity|].
      destruct (streq v []) eqn:Hv0; destruct (streq (rawOutput m) []) eqn:Hr0;
        cbn [andb] in H; injection H as <- <- <-.
      + left. apply streq_nil in Hv0, Hr0. auto.
      + right. cbv zeta. split_and!; [|reflexivity..].
        intros Hn. rewrite Hn in Hr0. discriminate.
      + right. cbv zeta. split_and!; [|reflexivity..].
        intros Hn. rewrite Hn in Hv0. discriminate.
      + right. cbv zeta. split_and!; [|reflexivity..].
        intros Hn. rewrite Hn in Hv0. discriminate. }
  destruct (isEnter k) eqn:He.
  { destruct (selectedValue m) as [v|] eqn:Hv; [|discriminate].
    cbn [mbind option_bind]. intros H. right. right. right. left.
    split_and!; try reflexivity.
    - unfold WriteAll in H.
      destruct (streq v [] && streq (rawOutput m) []); [injection H as <- <- <-; reflexivity|].
      destruct (clipboardError w); injection H as <- <- <-; reflexivity.
    - exists v. split; [reflexivity|]. unfold WriteAll in H.
      destruct (streq v []) eqn:Hv0; destruct (streq (rawOutput m) []) eqn:Hr0;
        cbn [andb] in H.
      + injection H as <- <- <-. left. apply streq_nil in Hv0, Hr0. auto.
      + right. cbv zeta. split.
        { intros Hn. rewrite Hn in Hr0. discriminate. }
        destruct (clipboardError w) eqn:Hc; injection H as <- <- <-; [right|left]; auto.
      + right. cbv zeta. split.
        { intros Hn. rewrite Hn in Hv0. discriminate. }
        destruct (clipboardError w) eqn:Hc; injection H as <- <- <-; [right|left]; auto.
      + right. cbv zeta. split.
        { intros Hn. rewrite Hn in Hv0. discriminate. }
        destruct (clipboardError w) eqn:Hc; injection H as <- <- <-; [right|left]; auto. }
  destruct (streq (keyString k) (str "up") || streq (keyString k) (str "k")).
  { intros [= <- <- <-]. do 4 right. left. exists (-1)%Z. auto. }
  destruct (streq (keyString k) (str "down") || streq (keyString k) (str "j")).
  { intros [= <- <- <-]. do 4 right. left. exists 1%Z. auto. }
  intros [= <- <- <-]. do 5 right. auto.
Qed.

Lemma handleViewingKeys_total (w : world) (m : model T) (k : KeyMsg) :
  exists r, handleViewingKeys w m k = Some r.
Proof.
  unfold handleViewingKeys. destruct (selectedValue_total m) as [v ->].
  cbn [mbind option_bind]. unfold WriteAll. repeat case_match; eauto.
Qed.

(** The three ways [handleResponse] ends. *)
Lemma handleResponse_error (m : model T) (output e cli : gostring) :
  handleResponse m output (Some e) cli
  = (set_selected 0
       (set_options []
          (set_status (str "error from " ++ cli ++ bullet ++ helpViewing)
             (set_lastParseError None
                (set_rawOutput
                   (if streq (Strings.TrimSpace output) [] then e
                    else Strings.TrimSpace output)
                   (set_mode modeViewing (set_running false m)))))),
     CmdNil).
Proof. reflexivity. Qed.

Lemma handleResponse_parse_error (m : model T) (output cli : gostring) :
  parseOptions (Strings.TrimSpace output) = ([], Some parseError) ->
  handleResponse m output None cli
  = (set_selected 0
       (set_options []
          (set_status (str "parse error: " ++ parseError ++ bullet ++ helpViewing)
             (set_lastParseError (Some parseError)
                (set_lastParseError None
                   (set_rawOutput (Strings.TrimSpace output)
                      (set_mode modeViewing (set_running false m))))))),
     CmdNil).
Proof. intros H. unfold handleResponse. rewrite H. reflexivity. Qed.

Lemma handleResponse_options (m : model T) (output cli : gostring)
    (first : optionEntry) (rest : list optionEntry) :
  parseOptions (Strings.TrimSpace output) = (first :: rest, None) ->
  let shown :=
    set_status helpViewing
      (set_selected 0
         (set_options (first :: rest)
            (set_lastParseError None
               (set_rawOutput (Strings.TrimSpace output)
                  (set_mode modeViewing (set_running false m)))))) in
  handleResponse m output None cli
  = if autoExecute m
    then (set_autoExecute false
            (set_status (str "running: " ++ cleanText (Value first)) shown),
          CmdExec (Value first) true)
    else (shown, CmdNil).
Proof. intros H. unfold handleResponse. rewrite H. reflexivity. Qed.

Lemma handleResponse_core (m : model T) (output : gostring)
    (err : option gostring) (cli : gostring) :
  exists opts flag,
    core (fst (handleResponse m output err cli))
    = (cliOptions m, cliIndex m, opts, 0%Z, flag, modeViewing)
    /\ (flag = true -> autoExecute m = true)
    /\ (runsShell (snd (handleResponse m output err cli)) = true ->
        autoExecute m = true /\ flag = false).
Proof.
  destruct err as [e0|].
  - rewrite handleResponse_error. exists [], (autoExecute m).
    split_and!; [reflexivity|auto|discriminate].
  - destruct (parseOptions_cases (Strings.TrimSpace output))
      as [(first & rest & Hp)|Hp].
    + rewrite (handleResponse_options _ _ _ _ _ Hp). cbv zeta.
      destruct (autoExecute m) eqn:Ha.
      * exists (first :: rest), false. split_and!; [reflexivity|discriminate|auto].
      * exists (first :: rest), false. cbn [fst snd].
        split_and!; [unfold core; model_simpl; rewrite Ha; reflexivity
                    |discriminate|discriminate].
    + rewrite (handleResponse_parse_error _ _ _ Hp). exists [], (autoExecute m).
      split_and!; [reflexivity|auto|discriminate].
Qed.

Lemma modelInv_core (m m' : model T) :
  core m' = core m -> modelInv m -> modelInv m'.
Proof.
  unfold core, modelInv, cliValid, selectionValid.
  intros [= -> -> -> -> _ _]. auto.
Qed.

Lemma modelInv_cliIndex (m m' : model T) (i : Z) :
  core m' = (cliOptions m, i, options m, selected m, autoExecute m, mode m) ->
  (0 <= i < Strings.len (cliOptions m))%Z ->
  modelInv m -> modelInv m'.
Proof.
  unfold core, modelInv, cliValid, selectionValid.
  intros [= -> -> -> -> _ _] Hi [_ Hs]. auto.
Qed.

Lemma modelInv_options (m m' : model T) (opts : list optionEntry) (b : bool)
    (md : viewMode) :
  core m' = (cliOptions m, cliIndex m, opts, 0%Z, b, md) ->
  modelInv m -> modelInv m'.
Proof.
  unfold core, modelInv, cliValid, selectionValid.
  intros [= -> -> -> -> _ _] [Hc _]. split; [exact Hc|].
  intros Hne. apply len_pos in Hne. lia.
Qed.

Lemma modelInv_reset (m m' : model T) (b : bool) (md : viewMode) :
  core m' = (cliOptions m, cliIndex m, [], selected m, b, md) ->
  modelInv m -> modelInv m'.
Proof.
  unfold core, modelInv, cliValid, selectionValid.
  intros [= -> -> -> -> _ _] [Hc _]. split; [exact Hc|]. congruence.
Qed.

Lemma submitPrompt_inv (m m' : model T) (c : cmd) (b : bool) :
  submitPrompt (set_autoExecute b m) = Some (m', c) -> modelInv m -> modelInv m'.
Proof.
  intros H Hi.
  apply submitPrompt_spec in H as [(_ & Hc & _)|(_ & Hc & _)].
  - unfold core, modelInv, cliValid, selectionValid in *.
    model_simpl. injection Hc as -> -> -> -> _ _. exact Hi.
  - unfold core, modelInv, cliValid, selectionValid in *.
    model_simpl. injection Hc as -> -> -> -> _ _. destruct Hi as [Hi _].
    split; [exact Hi|]. congruence.
Qed.

Lemma handleInputKeys_inv (m m' : model T) (k : KeyMsg) (c : cmd) :
  handleInputKeys m k = Some (m', c) -> modelInv m -> modelInv m'.
Proof.
  intros H Hi.
  apply handleInputKeys_cases in H
    as [[Hc _]|[(_ & Hn & _)|[(_ & Hp & _)|[(_ & Hs)|(_ & _ & _ & Hs)]]]].
  - eapply modelInv_core; eassumption.
  - apply nextCLI_spec in Hn as [[_ ->]|[Hne Hc]]; [exact Hi|].
    eapply modelInv_cliIndex; [exact Hc| |exact Hi].
    destruct Hi as [Hv _]. unfold cliValid in Hv.
    apply Z.rem_bound_pos; lia.
  - apply prevCLI_spec in Hp as [[_ ->]|[Hne Hc]]; [exact Hi|].
    eapply modelInv_cliIndex; [exact Hc| |exact Hi].
    destruct Hi as [Hv _]. unfold cliValid in Hv.
    apply Z.rem_bound_pos; lia.
  - eapply submitPrompt_inv; eassumption.
  - eapply submitPrompt_inv; eassumption.
Qed.

Lemma moveSelection_inv (delta : Z) (m : model T) :
  (delta = 1 \/ delta = -1)%Z -> modelInv m -> modelInv (moveSelection delta m).
Proof.
  intros Hd [Hc Hs]. split.
  - unfold moveSelection. case_match; exact Hc.
  - apply moveSelection_valid; assumption.
Qed.

Lemma handleViewingKeys_inv (w w' : world) (m m' : model T) (k : KeyMsg) (c : cmd) :
  handleViewingKeys w m k = Some (m', c, w') -> modelInv m -> modelInv m'.
Proof.
  intros H Hi.
  apply handleViewingKeys_cases in H
    as [[Hc _]|[(_ & _ & _ & Hc)|[(_ & _ & _ & Hc & _)|[(_ & _ & _ & Hc & _)
       |[(d & Hd & -> & _)|(-> & _)]]]]].
  - eapply modelInv_core; eassumption.
  - eapply modelInv_reset; eassumption.
  - eapply modelInv_core; eassumption.
  - eapply modelInv_core; eassumption.
  - apply moveSelection_inv; assumption.
  - exact Hi.
Qed.

Lemma Update_inv (w w' : world) (m m' : model T) (message : msg) (c : cmd) :
  Update w m message = Some (m', c, w') -> modelInv m -> modelInv m'.
Proof.
  intros H Hi. destruct message as [wd ht| |output err cli|err exit|k|tag];
    cbn [Update] in H.
  - handler_inj; subst. apply (modelInv_core m); [|exact Hi].
    destruct (mode _); rewrite ?adjustTextareaHeight_core, resizeComponents_core;
      reflexivity.
  - destruct (running m); handler_inj; subst; exact Hi.
  - destruct (handleResponse_core m output err cli) as (opts & flag & Hc & _).
    destruct (handleResponse m output err cli) as [m1 c1].
    handler_inj; subst. eapply modelInv_options; eassumption.
  - destruct err as [e0|]; [|destruct exit]; handler_inj; subst; exact Hi.
  - unfold handleKeyMsg in H. destruct (mode m).
    + destruct (handleInputKeys m k) as [[m1 c1]|] eqn:Hk; [|discriminate].
      cbn [mbind option_bind] in H. handler_inj; subst.
      eapply handleInputKeys_inv; eassumption.
    + destruct (handleRunningKeys_spec m k) as [Hm _].
      destruct (handleRunningKeys m k) as [m1 c1].
      handler_inj; subst. exact Hi.
    + eapply handleViewingKeys_inv; eassumption.
  - destruct (mode m).
    + destruct (taUpdate _ _) as [input' c0]. handler_inj; subst. exact Hi.
    + handler_inj; subst. exact Hi.
    + handler_inj; subst. exact Hi.
Qed.

Lemma findCLI_bound (defaultCLI : gostring) (i : Z) (opts : list cliOption) :
  (0 <= i)%Z ->
  (findCLI defaultCLI i opts = 0
   \/ i <= findCLI defaultCLI i opts < i + Strings.len opts)%Z.
Proof.
  revert i. induction opts as [|opt opts IH]; intros i Hi; cbn [findCLI].
  - left. reflexivity.
  - unfold Strings.len. cbn [length]. destruct (EqualFold _ _).
    + right. lia.
    + destruct (IH (i + 1)%Z ltac:(lia)) as [->|H]; [left; reflexivity|].
      right. unfold Strings.len in H. lia.
Qed.

Lemma newModel_inv (defaultCLI : gostring) (m : model T) :
  newModel defaultCLI = Some m -> modelInv m.
Proof.
  unfold newModel. destruct (negb schemaFound); [discriminate|].
  destruct (Strings.len _ =? 0)%Z eqn:Hl; [discriminate|].
  intros [= <-]. split.
  - unfold cliValid. model_simpl.
    destruct (findCLI_bound defaultCLI 0
                (filter (fun opt => cliAvailable (name opt) = true) allCLIOptions))
      as [->|H]; unfold Strings.len in *; lia.
  - unfold selectionValid. model_simpl. congruence.
Qed.

Lemma reachable_inv (m : model T) : reachable m -> modelInv m.
Proof.
  induction 1 as [d m Hn|w m message m' c w' _ IH Hu].
  - eapply newModel_inv, Hn.
  - eapply Update_inv; eassumption.
Qed.

(** On a model that satisfies the invariant, [Update] does not panic. *)
Lemma Update_total (w : world) (m : model T) (message : msg) :
  cliValid m -> exists r, Update w m message = Some r.
Proof.
  intros Hv. destruct message as [wd ht| |output err cli|err exit|k|tag];
    cbn [Update]; eauto.
  - destruct (running m); eauto.
  - destruct err; [|destruct exit]; eauto.
  - unfold handleKeyMsg. destruct (mode m); eauto.
    + destruct (handleInputKeys_total m k Hv) as [r ->]. cbn. eauto.
    + apply handleViewingKeys_total.
  - destruct (mode m); eauto. destruct (taUpdate _ _). eauto.
Qed.

(** Outside the composing mode no message moves the active backend. *)
Lemma Update_cli_fixed (w w' : world) (m m' : model T) (message : msg) (c : cmd) :
  mode m <> modeInput ->
  Update w m message = Some (m', c, w') ->
  cliIndex m' = cliIndex m /\ cliOptions m' = cliOptions m.
Proof.
  intros Hm H. destruct message as [wd ht| |output err cli|err exit|k|tag];
    cbn [Update] in H.
  - handler_inj; subst.
    assert (Hc : core (match mode (resizeComponents
                                     (set_ready true (set_height ht (set_width wd m))))
                       with
                       | modeInput =>
                           adjustTextareaHeight
                             (resizeComponents
                                (set_ready true (set_height ht (set_width wd m))))
                       | _ => resizeComponents
                                (set_ready true (set_height ht (set_width wd m)))
                       end) = core m).
    { destruct (mode (resizeComponents _));
        rewrite ?adjustTextareaHeight_core, resizeComponents_core; reflexivity. }
    unfold core in Hc. injection Hc as -> -> _ _ _ _. auto.
  - destruct (running m); handler_inj; subst; auto.
  - destruct (handleResponse_core m output err cli) as (opts & flag & Hc & _).
    destruct (handleResponse m output err cli) as [m1 c1].
    handler_inj; subst. unfold core in Hc. cbn [fst] in Hc.
    injection Hc as -> -> _ _ _ _. auto.
  - destruct err as [e0|]; [|destruct exit]; handler_inj; subst; auto.
  - unfold handleKeyMsg in H. destruct (mode m) eqn:Hmode; [congruence| |].
    + destruct (handleRunningKeys_spec m k) as [Hk _].
      destruct (handleRunningKeys m k) as [m1 c1].
      handler_inj; subst. auto.
    + apply handleViewingKeys_cases in H
        as [[Hc _]|[(_ & _ & _ & Hc)|[(_ & _ & _ & Hc & _)|[(_ & _ & _ & Hc & _)
           |[(d & Hd & -> & _)|(-> & _)]]]]].
      all: try (unfold core in Hc; injection Hc as -> -> _ _ _ _; auto).
      * unfold moveSelection. case_match; auto.
      * auto.
  - destruct (mode m); [congruence|..]; handler_inj; subst; auto.
Qed.

(** The keys the machine distinguishes by type. *)
Lemma plainEnter_submits (m : model T) (k : KeyMsg) :
  plainEnter k -> handleInputKeys m k = submitPrompt (set_autoExecute false m).
Proof.
  destruct k as [t r a p]. intros [Ht Ha]. cbn in Ht, Ha. subst t a. reflexivity.
Qed.

Lemma ctrlR_submits (m : model T) (k : KeyMsg) :
  KType k = KeyCtrlR -> handleInputKeys m k = submitPrompt (set_autoExecute true m).
Proof.
  destruct k as [t r a p]. cbn. intros ->. destruct a; reflexivity.
Qed.

Lemma ctrlN_cycles (m : model T) (k : KeyMsg) :
  KType k = KeyCtrlN -> Alt k = false ->
  handleInputKeys m k = m' ← nextCLI m; Some (m', CmdNil).
Proof.
  destruct k as [t r a p]. cbn. intros -> ->. reflexivity.
Qed.

Lemma ctrlP_cycles (m : model T) (k : KeyMsg) :
  KType k = KeyCtrlP -> Alt k = false ->
  handleInputKeys m k = m' ← prevCLI m; Some (m', CmdNil).
Proof.
  destruct k as [t r a p]. cbn. intros -> ->. reflexivity.
Qed.

(** C4 (as amended). Backend cycling is accepted in the composing mode only.
    There ctrl+n and ctrl+p move the active backend forward and backward
    with wrap-around, and a submission dispatches to the backend that is
    active at that moment. In the running mode a key leaves the whole state
    as it is (it can only quit), and no message received in the running or
    the reviewing mode changes the active backend or the registry. *)
Theorem cycling_only_while_composing :
  (forall w (m : model T) k,
      mode m = modeRunning ->
      exists c, Update w m (Key k) = Some (m, c, w) /\ (c = CmdNil \/ c = CmdQuit))
  /\ (forall w w' (m m' : model T) message c,
        mode m <> modeInput ->
        Update w m message = Some (m', c, w') ->
        cliIndex m' = cliIndex m /\ cliOptions m' = cliOptions m)
  /\ (forall w (m : model T) k,
        mode m = modeInput -> cliValid m ->
        KType k = KeyCtrlN -> Alt k = false ->
        exists m', Update w m (Key k) = Some (m', CmdNil, w)
                   /\ cliIndex m' = ((cliIndex m + 1) mod Strings.len (cliOptions m))%Z
                   /\ cliOptions m' = cliOptions m /\ mode m' = modeInput)
  /\ (forall w (m : model T) k,
        mode m = modeInput -> cliValid m ->
        KType k = KeyCtrlP -> Alt k = false ->
        exists m', Update w m (Key k) = Some (m', CmdNil, w)
                   /\ cliIndex m' = ((cliIndex m - 1) mod Strings.len (cliOptions m))%Z
                   /\ cliOptions m' = cliOptions m /\ mode m' = modeInput)
  /\ (forall (m m' : model T) c,
        submitPrompt m = Some (m', c) -> mode m' = modeRunning -> mode m = modeInput ->
        exists cli, index (cliOptions m) (cliIndex m) = Some cli
                    /\ c = CmdBatch (CmdRunPrompt cli (buildPrompt (promptOf m))) CmdTick).
Proof.
  split_and!.
  - intros w m k Hm. cbn [Update]. unfold handleKeyMsg. rewrite Hm.
    destruct (handleRunningKeys_spec m k) as [H1 H2].
    destruct (handleRunningKeys m k) as [m1 c1]. cbn [fst snd] in *. subst m1.
    exists c1. auto.
  - intros w w' m m' message c. apply Update_cli_fixed.
  - intros w m k Hm Hv Ht Ha. cbn [Update]. unfold handleKeyMsg. rewrite Hm.
    rewrite (ctrlN_cycles m k Ht Ha).
    destruct (nextCLI_total m Hv) as [m' Hn]. rewrite Hn. cbn [mbind option_bind].
    exists m'. split; [reflexivity|].
    unfold cliValid in Hv.
    apply nextCLI_spec in Hn as [[He _]|[Hne Hc]].
    { rewrite He in Hv. unfold Strings.len in Hv. cbn in Hv. lia. }
    unfold core in Hc. injection Hc as -> -> _ _ _ ->.
    split_and!; [|reflexivity|exact Hm].
    apply Z.rem_mod_nonneg; lia.
  - intros w m k Hm Hv Ht Ha. cbn [Update]. unfold handleKeyMsg. rewrite Hm.
    rewrite (ctrlP_cycles m k Ht Ha).
    destruct (prevCLI_total m Hv) as [m' Hn]. rewrite Hn. cbn [mbind option_bind].
    exists m'. split; [reflexivity|].
    unfold cliValid in Hv.
    apply prevCLI_spec in Hn as [[He _]|[Hne Hc]].
    { rewrite He in Hv. unfold Strings.len in Hv. cbn in Hv. lia. }
    unfold core in Hc. injection Hc as -> -> _ _ _ ->.
    split_and!; [|reflexivity|exact Hm].
    assert (0 < Strings.len (cliOptions m))%Z by lia.
    assert (0 <= cliIndex m - 1 + Strings.len (cliOptions m))%Z by lia.
    rewrite Z.rem_mod_nonneg by assumption.
    rewrite <- (Z.mod_add (cliIndex m - 1) 1) by lia. f_equal. lia.
  - intros m m' c Hs Hm' Hm.
    apply submitPrompt_spec in Hs as [(_ & Hc & _)|(_ & _ & _ & cli & Hcli & ->)].
    + unfold core in Hc. injection Hc as _ _ _ _ _ Hc. congruence.
    + exists cli. auto.
Qed.

(** C5. With the auto-execute flag set, a response that parses into options
    makes [handleResponse] return the command that runs the first, top-ranked
    option, with that option list stored and the first option selected. When
    the subprocess reports an error or the parse fails (which is what a parse
    without options is), the model is in the reviewing mode with no options
    and no command is returned. *)
Theorem auto_execute_runs_top_option (m : model T) (output cli : gostring) :
  (forall first rest,
      autoExecute m = true ->
      parseOptions (Strings.TrimSpace output) = (first :: rest, None) ->
      exists m', handleResponse m output None cli = (m', CmdExec (Value first) true)
                 /\ options m' = first :: rest /\ selected m' = 0%Z
                 /\ selectedValue m' = Some (Value first)
                 /\ mode m' = modeViewing /\ autoExecute m' = false)
  /\ (forall opts, parseOptions (Strings.TrimSpace output) = (opts, None) -> opts <> [])
  /\ (forall err,
        err <> None \/ snd (parseOptions (Strings.TrimSpace output)) <> None ->
        exists m', handleResponse m output err cli = (m', CmdNil)
                   /\ options m' = [] /\ mode m' = modeViewing
                   /\ autoExecute m' = autoExecute m)
  /\ (autoExecute m = false -> snd (handleResponse m output None cli) = CmdNil).
Proof.
  split_and!.
  - intros first rest Ha Hp.
    rewrite (handleResponse_options _ _ _ _ _ Hp). cbv zeta. rewrite Ha.
    eexists. split; [reflexivity|]. split_and!; reflexivity.
  - intros opts Hp.
    destruct (parseOptions_cases (Strings.TrimSpace output))
      as [(first & rest & Hp')|Hp']; rewrite Hp' in Hp; [|discriminate].
    injection Hp as <-. discriminate.
  - intros err Herr. destruct err as [e0|].
    + rewrite handleResponse_error. eexists. split; [reflexivity|].
      split_and!; reflexivity.
    + destruct Herr as [Herr|Herr]; [congruence|].
      destruct (parseOptions_cases (Strings.TrimSpace output))
        as [(first & rest & Hp)|Hp].
      { rewrite Hp in Herr. cbn in Herr. congruence. }
      rewrite (handleResponse_parse_error _ _ _ Hp).
      eexists. split; [reflexivity|]. split_and!; reflexivity.
  - intros Ha.
    destruct (parseOptions_cases (Strings.TrimSpace output))
      as [(first & rest & Hp)|Hp].
    + rewrite (handleResponse_options _ _ _ _ _ Hp). cbv zeta. rewrite Ha. reflexivity.
    + rewrite (handleResponse_parse_error _ _ _ Hp). reflexivity.
Qed.

(** C6. In every reachable state the selected index is a position of the
    option list when there are options. [selectedValue] never reads outside
    the list, in any state: without options it yields the empty string, and
    in a reachable state with options the value of the selected one. A
    selection move by one wraps the index modulo the option count and
    changes nothing when there are no options. *)
Theorem selection_stays_in_range :
  (forall m : model T, reachable m -> selectionValid m)
  /\ (forall m : model T, exists v, selectedValue m = Some v)
  /\ (forall m : model T, options m = [] ->
        selectedValue m = Some []
        /\ moveSelection 1 m = m /\ moveSelection (-1) m = m)
  /\ (forall m : model T, reachable m -> options m <> [] ->
        exists o, options m !! Z.to_nat (selected m) = Some o
                  /\ selectedValue m = Some (Value o))
  /\ (forall (m : model T) delta,
        (delta = 1 \/ delta = -1)%Z -> selectionValid m -> options m <> [] ->
        moveSelection delta m
        = set_selected ((selected m + delta) mod Strings.len (options m)) m
        /\ selectionValid (moveSelection delta m)).
Proof.
  split_and!.
  - intros m Hr. apply reachable_inv, Hr.
  - apply selectedValue_total.
  - intros m He. split_and!.
    + apply selectedValue_empty, He.
    + apply moveSelection_empty, He.
    + apply moveSelection_empty, He.
  - intros m Hr Hne. apply selectedValue_valid; [exact Hne|].
    apply reachable_inv, Hr.
  - intros m delta Hd Hv Hne. split.
    + apply moveSelection_wraps; assumption.
    + apply moveSelection_valid; assumption.
Qed.

Lemma viewing_ctrlR (w : world) (m : model T) (k : KeyMsg) (v : gostring) :
  KType k = KeyCtrlR -> Alt k = false ->
  selectedValue m = Some v -> v <> [] ->
  handleViewingKeys w m k
  = Some (set_status (str "running: " ++ cleanText v) m, CmdExec v true, w).
Proof.
  destruct k as [t r a p]. cbn. intros -> -> Hv Hne.
  unfold handleViewingKeys. cbn [isCtrlC isNewline isCtrlR isEnter KType Alt orb].
  change (keyString (mkKey KeyCtrlR r false p)) with (str "ctrl+r").
  change (streq (str "ctrl+r") (str "esc")) with false.
  change (streq (str "ctrl+r") (str "q")) with false.
  change (streq (str "ctrl+r") (str "alt+enter")) with false. cbn [orb].
  rewrite Hv. cbn [mbind option_bind].
  destruct v as [|x v]; [congruence|]. reflexivity.
Qed.

Lemma viewing_enter (w : world) (m : model T) (k : KeyMsg) (v : gostring) :
  plainEnter k -> selectedValue m = Some v -> v <> [] -> clipboardError w = None ->
  handleViewingKeys w m k
  = Some (set_status (str "✅ Copied to clipboard: " ++ v) m, CmdQuit, mkWorld v None).
Proof.
  destruct k as [t r a p]. intros [Ht Ha] Hv Hne Hw. cbn in Ht, Ha. subst t a.
  unfold handleViewingKeys. cbn [isCtrlC isNewline isCtrlR isEnter KType Alt orb].
  change (keyString (mkKey KeyEnter r false p)) with (str "enter").
  change (streq (str "enter") (str "esc")) with false.
  change (streq (str "enter") (str "q")) with false.
  change (streq (str "enter") (str "alt+enter")) with false.
  change (streq (str "enter") (str "ctrl+r")) with false. cbn [orb].
  rewrite Hv. cbn [mbind option_bind].
  destruct v as [|x v]; [congruence|]. cbn [streq andb].
  unfold WriteAll. rewrite Hw. reflexivity.
Qed.

Lemma handleViewingKeys_options (w w' : world) (m m' : model T) (k : KeyMsg) (c : cmd) :
  handleViewingKeys w m k = Some (m', c, w') ->
  options m' = options m \/ options m' = [].
Proof.
  intros H.
  apply handleViewingKeys_cases in H
    as [[Hc _]|[(_ & _ & _ & Hc)|[(_ & _ & _ & Hc & _)|[(_ & _ & _ & Hc & _)
       |[(d & Hd & -> & _)|(-> & _)]]]]].
  all: try (unfold core in Hc; injection Hc as _ _ -> _ _ _; auto).
  - left. unfold moveSelection. case_match; reflexivity.
  - auto.
Qed.

(** C8. [cleanText] is idempotent, and it only shapes what is shown: the
    option table shows the cleaned value and description, the status line of
    a run shows the cleaned value, while the value that a run executes (from
    the reviewing mode or automatically on a response) and the value that a
    copy writes to the clipboard is the stored one, and no key in the
    reviewing mode changes a stored option. *)
Theorem cleanText_display_only :
  (forall s, cleanText (cleanText s) = cleanText s)
  /\ (forall i sel o rest,
        renderRows i sel (o :: rest)
        = (let line := if (i =? sel)%Z
                       then selectedStyle (str "▶ " ++ cleanText (Value o))
                       else normalStyle (str "  " ++ cleanText (Value o)) in
           if streq (cleanText (Description o)) [] then [line]
           else [line; descStyle (str "  " ++ cleanText (Description o))])
          ++ renderRows (i + 1) sel rest)
  /\ (forall w (m : model T) k v,
        KType k = KeyCtrlR -> Alt k = false ->
        selectedValue m = Some v -> v <> [] ->
        handleViewingKeys w m k
        = Some (set_status (str "running: " ++ cleanText v) m, CmdExec v true, w))
  /\ (forall w (m : model T) k v,
        plainEnter k -> selectedValue m = Some v -> v <> [] ->
        clipboardError w = None ->
        exists m', handleViewingKeys w m k = Some (m', CmdQuit, mkWorld v None)
                   /\ options m' = options m)
  /\ (forall (m : model T) output cli first rest,
        autoExecute m = true ->
        parseOptions (Strings.TrimSpace output) = (first :: rest, None) ->
        snd (handleResponse m output None cli) = CmdExec (Value first) true
        /\ options (fst (handleResponse m output None cli)) = first :: rest)
  /\ (forall w w' (m m' : model T) k c,
        handleViewingKeys w m k = Some (m', c, w') ->
        options m' = options m \/ options m' = []).
Proof.
  split_and!.
  - apply cleanText_idempotent.
  - reflexivity.
  - intros w m k v. apply viewing_ctrlR.
  - intros w m k v Hk Hv Hne Hw.
    rewrite (viewing_enter w m k v Hk Hv Hne Hw). eexists. split; reflexivity.
  - intros m output cli first rest Ha Hp.
    rewrite (handleResponse_options _ _ _ _ _ Hp). cbv zeta. rewrite Ha.
    split; reflexivity.
  - intros w w' m m' k c. apply handleViewingKeys_options.
Qed.

(** A message other than a key press neither sets the auto-execute flag nor,
    with the flag clear, returns a command that runs a shell command. *)
Lemma Update_quiet (w w' : world) (m m' : model T) (message : msg) (c : cmd) :
  isKey message = false -> autoExecute m = false ->
  Update w m message = Some (m', c, w') ->
  autoExecute m' = false /\ runsShell c = false.
Proof.
  intros Hk Ha H. destruct message as [wd ht| |output err cli|err exit|k|tag];
    cbn [Update] in H; [| | | |discriminate Hk|].
  - handler_inj; subst. split; [|reflexivity].
    assert (Hc : core (match mode (resizeComponents
                                     (set_ready true (set_height ht (set_width wd m))))
                       with
                       | modeInput =>
                           adjustTextareaHeight
                             (resizeComponents
                                (set_ready true (set_height ht (set_width wd m))))
                       | _ => resizeComponents
                                (set_ready true (set_height ht (set_width wd m)))
                       end) = core m).
    { destruct (mode (resizeComponents _));
        rewrite ?adjustTextareaHeight_core, resizeComponents_core; reflexivity. }
    unfold core in Hc. injection Hc as _ _ _ _ -> _. exact Ha.
  - destruct (running m); handler_inj; subst; auto.
  - destruct (handleResponse_core m output err cli) as (opts & flag & Hc & Hf & Hs).
    destruct (handleResponse m output err cli) as [m1 c1].
    handler_inj; subst. unfold core in Hc. cbn [fst snd] in *.
    injection Hc as _ _ _ _ -> _. split.
    + destruct flag; [|reflexivity]. rewrite Hf in Ha by reflexivity. discriminate.
    + destruct (runsShell c) eqn:Hr; [|reflexivity].
      destruct (Hs eq_refl) as [Ht _]. congruence.
  - destruct err as [e0|]; [|destruct exit]; handler_inj; subst; auto.
  - destruct (mode m).
    + destruct (taUpdate _ _) as [input' c0]. handler_inj; subst.
      split; [exact Ha|apply inputCmd_quiet].
    + handler_inj; subst. auto.
    + handler_inj; subst. auto.
Qed.

Lemma commands_quiet (w : world) (m : model T) (ms : list msg) :
  Forall (fun message => isKey message = false) ms ->
  autoExecute m = false ->
  Forall (fun c => runsShell c = false) (commands w m ms).
Proof.
  intros Hall. revert w m. induction Hall as [|message ms Hk _ IH]; intros w m Ha.
  - constructor.
  - cbn [commands]. destruct (Update w m message) as [[[m' c] w']|] eqn:Hu;
      [|constructor].
    destruct (Update_quiet _ _ _ _ _ _ Hk Ha Hu) as [Ha' Hc].
    constructor; [exact Hc|]. apply IH, Ha'.
Qed.

(** The flag can only become set by a ctrl+r key in the composing mode. *)
Lemma Update_sets_flag (w w' : world) (m m' : model T) (message : msg) (c : cmd) :
  Update w m message = Some (m', c, w') ->
  autoExecute m' = true ->
  autoExecute m = true
  \/ (mode m = modeInput /\ exists k, message = Key k /\ isCtrlR k = true).
Proof.
  intros H Ha'.
  destruct (autoExecute m) eqn:Ha; [left; reflexivity|]. right.
  destruct (isKey message) eqn:Hk.
  - destruct message as [| | | |k|]; try discriminate Hk.
    cbn [Update] in H. unfold handleKeyMsg in H. destruct (mode m) eqn:Hm.
    + split; [reflexivity|]. exists k. split; [reflexivity|].
      destruct (handleInputKeys m k) as [[m1 c1]|] eqn:Hi; [|discriminate].
      cbn [mbind option_bind] in H. handler_inj; subst.
      apply handleInputKeys_cases in Hi
        as [[Hc _]|[(_ & Hn & _)|[(_ & Hp & _)|[(Hr & _)|(_ & _ & _ & Hs)]]]].
      * unfold core in Hc. injection Hc as _ _ _ _ Hc _. congruence.
      * apply nextCLI_spec in Hn as [[_ ->]|[_ Hc]]; [congruence|].
        unfold core in Hc. injection Hc as _ _ _ _ Hc _. congruence.
      * apply prevCLI_spec in Hp as [[_ ->]|[_ Hc]]; [congruence|].
        unfold core in Hc. injection Hc as _ _ _ _ Hc _. congruence.
      * exact Hr.
      * apply submitPrompt_spec in Hs as [(_ & Hc & _)|(_ & Hc & _)];
          unfold core in Hc; model_simpl; injection Hc as _ _ _ _ Hc _; congruence.
    + destruct (handleRunningKeys_spec m k) as [Hk' _].
      destruct (handleRunningKeys m k) as [m1 c1].
      handler_inj; subst. cbn [fst] in *. congruence.
    + apply handleViewingKeys_cases in H
        as [[Hc _]|[(_ & _ & _ & Hc)|[(_ & _ & _ & Hc & _)|[(_ & _ & _ & Hc & _)
           |[(d & Hd & -> & _)|(-> & _)]]]]].
      all: try (unfold core in Hc; injection Hc as _ _ _ _ Hc _; congruence).
      * unfold moveSelection in Ha'. revert Ha'. case_match; model_simpl; congruence.
      * congruence.
  - destruct (Update_quiet _ _ _ _ _ _ Hk Ha H) as [Hf _]. congruence.
Qed.

(** C10. The auto-execute flag becomes set only by a ctrl+r key in the
    composing mode. A plain Enter there clears it and returns no command
    that runs a shell command; after it, as long as no key is pressed, no
    message (the response included) makes [Update] return such a command.
    The flag is clear after every automatic run, and after the reset from
    the reviewing to the composing mode; a submission sets it to whether the
    submitting key was ctrl+r, whatever it was before. *)
Theorem plain_enter_never_executes :
  (forall w w' (m m' : model T) message c,
      Update w m message = Some (m', c, w') ->
      autoExecute m' = true ->
      autoExecute m = true
      \/ (mode m = modeInput /\ exists k, message = Key k /\ isCtrlR k = true))
  /\ (forall w w' (m m' : model T) k c,
        mode m = modeInput -> plainEnter k ->
        Update w m (Key k) = Some (m', c, w') ->
        autoExecute m' = false /\ runsShell c = false
        /\ forall ms, Forall (fun message => isKey message = false) ms ->
                      Forall (fun c' => runsShell c' = false) (commands w' m' ms))
  /\ (forall (m : model T) output err cli,
        runsShell (snd (handleResponse m output err cli)) = true ->
        autoExecute (fst (handleResponse m output err cli)) = false)
  /\ (forall w w' (m m' : model T) k c,
        mode m = modeViewing ->
        Update w m (Key k) = Some (m', c, w') ->
        mode m' = modeInput -> autoExecute m' = false)
  /\ (forall w w' (m m' : model T) k c,
        mode m = modeInput ->
        Update w m (Key k) = Some (m', c, w') ->
        mode m' = modeRunning -> autoExecute m' = isCtrlR k).
Proof.
  split_and!.
  - intros w w' m m' message c. apply Update_sets_flag.
  - intros w w' m m' k c Hm Hk Hu.
    cbn [Update] in Hu. unfold handleKeyMsg in Hu. rewrite Hm in Hu.
    rewrite (plainEnter_submits m k Hk) in Hu.
    destruct (submitPrompt _) as [[m1 c1]|] eqn:Hs; [|discriminate].
    cbn [mbind option_bind] in Hu. handler_inj; subst.
    assert (Hflag : autoExecute m' = false /\ runsShell c = false).
    { apply submitPrompt_spec in Hs
        as [(_ & Hc & ->)|(_ & Hc & _ & cli & _ & ->)];
        unfold core in Hc; model_simpl; injection Hc as _ _ _ _ -> _; auto. }
    destruct Hflag as [Hf Hc]. split_and!; [exact Hf|exact Hc|].
    intros ms Hms. apply commands_quiet; assumption.
  - intros m output err cli Hr.
    destruct (handleResponse_core m output err cli) as (opts & flag & Hc & _ & Hs).
    unfold core in Hc. injection Hc as _ _ _ _ -> _. apply Hs, Hr.
  - intros w w' m m' k c Hm Hu Hm'.
    cbn [Update] in Hu. unfold handleKeyMsg in Hu. rewrite Hm in Hu.
    apply handleViewingKeys_cases in Hu
      as [[Hc _]|[(_ & _ & _ & Hc)|[(_ & _ & _ & Hc & _)|[(_ & _ & _ & Hc & _)
         |[(d & Hd & -> & _)|(-> & _)]]]]].
    all: try (unfold core in Hc; injection Hc as _ _ _ _ Ha Hmd; congruence).
    + unfold moveSelection in Hm'. revert Hm'. case_match; model_simpl; congruence.
    + congruence.
  - intros w w' m m' k c Hm Hu Hm'.
    cbn [Update] in Hu. unfold handleKeyMsg in Hu. rewrite Hm in Hu.
    destruct (handleInputKeys m k) as [[m1 c1]|] eqn:Hi; [|discriminate].
    cbn [mbind option_bind] in Hu. handler_inj; subst.
    apply handleInputKeys_cases in Hi
      as [[Hc _]|[(_ & Hn & _)|[(_ & Hp & _)|[(Hr & Hs)|(Hr & _ & _ & Hs)]]]].
    + unfold core in Hc. injection Hc as _ _ _ _ _ Hc. congruence.
    + apply nextCLI_spec in Hn as [[_ ->]|[_ Hc]]; [congruence|].
      unfold core in Hc. injection Hc as _ _ _ _ _ Hc. congruence.
    + apply prevCLI_spec in Hp as [[_ ->]|[_ Hc]]; [congruence|].
      unfold core in Hc. injection Hc as _ _ _ _ _ Hc. congruence.
    + rewrite Hr.
      apply submitPrompt_spec in Hs as [(_ & Hc & _)|(_ & Hc & _)];
        unfold core in Hc; model_simpl; injection Hc as _ _ _ _ -> _; reflexivity.
    + rewrite Hr.
      apply submitPrompt_spec in Hs as [(_ & Hc & _)|(_ & Hc & _)];
        unfold core in Hc; model_simpl; injection Hc as _ _ _ _ -> _; reflexivity.
Qed.

End MachineFacts.
(** * More properties of the state machine *)

Section SessionFacts.
Context {decoder : Decoder} {T : Type} {textarea : TextArea T}.
Context {styles : Styles} {env : Env}.

Lemma resizeComponents_session (m : model T) :
  session (resizeComponents m) = session m.
Proof. unfold resizeComponents. repeat case_match; reflexivity. Qed.

Lemma resizeComponents_lastPrompt (m : model T) :
  lastPrompt (resizeComponents m) = lastPrompt m.
Proof. unfold resizeComponents. repeat case_match; reflexivity. Qed.

Lemma inputCmd_idle (o : option nat) :
  startsRun (inputCmd o) = false /\ quits (inputCmd o) = false
  /\ ticks (inputCmd o) = false.
Proof. destruct o; auto. Qed.

Lemma updateInput_session (m : model T) (k : KeyMsg) :
  session (fst (updateInput m k)) = session m
  /\ exists o, snd (updateInput m k) = inputCmd o.
Proof.
  unfold updateInput.
  destruct (taUpdate _ _) as [input' c]. cbn [fst snd].
  split; [|eauto]. destruct (isEnter k); reflexivity.
Qed.

Lemma nextCLI_session (m m' : model T) :
  nextCLI m = Some m' -> session m' = session m.
Proof.
  unfold nextCLI. destruct (Strings.len (cliOptions m) =? 0)%Z.
  - intros [= <-]. reflexivity.
  - destruct (currentCLI _) as [cli|]; [|discriminate].
    cbn. intros [= <-]. reflexivity.
Qed.

Lemma prevCLI_session (m m' : model T) :
  prevCLI m = Some m' -> session m' = session m.
Proof.
  unfold prevCLI. destruct (Strings.len (cliOptions m) =? 0)%Z.
  - intros [= <-]. reflexivity.
  - destruct (currentCLI _) as [cli|]; [|discriminate].
    cbn. intros [= <-]. reflexivity.
Qed.

(** A submission either finds blank text and does nothing, or starts the
    one run. *)
Lemma submitPrompt_session (m m' : model T) (c : cmd) :
  submitPrompt m = Some (m', c) ->
  (Strings.TrimSpace (promptOf m) = [] /\ session m' = session m /\ c = CmdNil)
  \/ (Strings.TrimSpace (promptOf m) <> []
      /\ session m' = (true, modeRunning, [], [], None, 0%Z)
      /\ lastPrompt m' = promptOf m
      /\ exists cli, currentCLI m = Some cli
                     /\ c = CmdBatch (CmdRunPrompt cli (buildPrompt (promptOf m))) CmdTick).
Proof.
  unfold submitPrompt, promptOf.
  destruct (streq (Strings.TrimSpace _) []) eqn:Ht.
  - apply streq_nil in Ht. intros [= <- <-]. left. auto.
  - intros H. right.
    assert (Hne : Strings.TrimSpace (Strings.TrimRight (taValue (input m)) newline) <> []).
    { intros Hn. rewrite Hn in Ht. discriminate. }
    split; [exact Hne|].
    change (currentCLI (set_selected _ _)) with (currentCLI m) in H.
    destruct (currentCLI m) as [cli|]; [|discriminate].
    cbn [mbind option_bind] in H. injection H as <- <-.
    rewrite resizeComponents_session, resizeComponents_lastPrompt.
    split_and!; [reflexivity|reflexivity|eauto].
Qed.

(** What a key does to the exchange in the composing mode. *)
Lemma handleInputKeys_session (m m' : model T) (k : KeyMsg) (c : cmd) :
  handleInputKeys m k = Some (m', c) ->
  (quitKey k = true /\ m' = m /\ c = CmdQuit)
  \/ (quitKey k = false /\ session m' = session m
      /\ (c = CmdNil \/ exists o, c = inputCmd o))
  \/ (quitKey k = false
      /\ Strings.TrimSpace (promptOf m) <> []
      /\ session m' = (true, modeRunning, [], [], None, 0%Z)
      /\ lastPrompt m' = promptOf m
      /\ exists cli, currentCLI m = Some cli
                     /\ c = CmdBatch (CmdRunPrompt cli (buildPrompt (promptOf m))) CmdTick).
Proof.
  assert (Hsub : forall b, submitPrompt (set_autoExecute b m) = Some (m', c) ->
    quitKey k = false ->
    (quitKey k = true /\ m' = m /\ c = CmdQuit)
    \/ (quitKey k = false /\ session m' = session m
        /\ (c = CmdNil \/ exists o, c = inputCmd o))
    \/ (quitKey k = false
        /\ Strings.TrimSpace (promptOf m) <> []
        /\ session m' = (true, modeRunning, [], [], None, 0%Z)
        /\ lastPrompt m' = promptOf m
        /\ exists cli, currentCLI m = Some cli
              /\ c = CmdBatch (CmdRunPrompt cli (buildPrompt (promptOf m))) CmdTick)).
  { intros b H Hq. apply submitPrompt_session in H.
    destruct H as [(H1 & H2 & H3)|(H1 & H2 & H3 & H4)]; right; [left|right]; auto. }
  unfold handleInputKeys. fold (quitKey k).
  destruct (quitKey k) eqn:Hq.
  { intros [= <- <-]. left. auto. }
  destruct (streq (keyString k) (str "ctrl+n")).
  { destruct (nextCLI m) as [m1|] eqn:H1; [|discriminate].
    intros [= <- <-]. right. left. split_and!; [reflexivity| |auto].
    apply nextCLI_session, H1. }
  destruct (streq (keyString k) (str "ctrl+p")).
  { destruct (prevCLI m) as [m1|] eqn:H1; [|discriminate].
    intros [= <- <-]. right. left. split_and!; [reflexivity| |auto].
    apply prevCLI_session, H1. }
  destruct (isNewline k).
  { destruct (taUpdate _ _) as [input' c0]. intros [= <- <-]. right. left.
    split_and!; [reflexivity| |eauto]. case_match; reflexivity. }
  destruct (isCtrlR k); [intros H; apply (Hsub _ H); reflexivity|].
  destruct (isEnter k || isCtrlEnter k); [intros H; apply (Hsub _ H); reflexivity|].
  intros [= H]. right. left.
  destruct (updateInput_session m k) as [H1 H2].
  rewrite H in H1, H2. auto.
Qed.


Lemma moveSelection_session (delta : Z) (m : model T) :
  session (moveSelection delta m) = session m.
Proof. unfold moveSelection. case_match; reflexivity. Qed.

Lemma parseOptions_ranked (raw : gostring) : ranked (fst (parseOptions raw)).
Proof.
  rewrite parseOptions_lastGood. destruct (lastGood _) as [opts|]; cbn [fst].
  - rewrite sortOptions_stableSort. apply stableSort_ranked.
  - constructor.
Qed.

(** What an answer leaves in the exchange. *)
Lemma handleResponse_session (m : model T) (output : gostring)
    (err : option gostring) (cli : gostring) :
  let m' := fst (handleResponse m output err cli) in
  let c := snd (handleResponse m output err cli) in
  running m' = false /\ mode m' = modeViewing
  /\ spinnerFrame m' = spinnerFrame m
  /\ (lastParseError m' <> None -> options m' = [])
  /\ ranked (options m')
  /\ (c = CmdNil \/ exists v, c = CmdExec v true).
Proof.
  unfold handleResponse. destruct err as [e|].
  - cbn. split_and!; auto. constructor.
  - pose proof (parseOptions_ranked (Strings.TrimSpace output)) as Hr.
    destruct (parseOptions (Strings.TrimSpace output)) as [opts [pe|]]; cbn [fst] in Hr.
    + cbn. split_and!; auto. constructor.
    + destruct opts as [|first rest].
      * cbn. split_and!; auto.
      * model_simpl. destruct (autoExecute m); cbn; split_and!; eauto; congruence.
Qed.

(** What a key does to the exchange in the reviewing mode. *)
Lemma handleViewingKeys_session (w w' : world) (m m' : model T) (k : KeyMsg) (c : cmd) :
  handleViewingKeys w m k = Some (m', c, w') ->
  (session m' = session m
   \/ (isNewline k = true /\ c = CmdNil
       /\ session m' = (false, modeInput, [], [], None, spinnerFrame m)))
  /\ (c = CmdNil \/ c = CmdQuit \/ exists v, c = CmdExec v true).
Proof.
  unfold handleViewingKeys.
  destruct (isCtrlC k || streq (keyString k) (str "esc") || streq (keyString k) (str "q")).
  { intros [= <- <- <-]. auto. }
  destruct (isNewline k).
  { intros [= <- <- <-]. split; [right|]; auto. }
  destruct (isCtrlR k).
  { destruct (selectedValue m) as [v|]; [|discriminate].
    cbn [mbind option_bind].
    destruct (streq v [] && streq (rawOutput m) []); intros [= <- <- <-];
      (split; [left; reflexivity|]); [left; reflexivity|].
    right. right. eexists. reflexivity. }
  destruct (isEnter k).
  { destruct (selectedValue m) as [v|]; [|discriminate].
    cbn [mbind option_bind]. unfold WriteAll.
    destruct (streq v [] && streq (rawOutput m) []); [intros [= <- <- <-]; auto|].
    destruct (clipboardError w); intros [= <- <- <-]; auto. }
  destruct (streq (keyString k) (str "up") || streq (keyString k) (str "k")).
  { intros [= <- <- <-]. rewrite moveSelection_session. auto. }
  destruct (streq (keyString k) (str "down") || streq (keyString k) (str "j")).
  { intros [= <- <- <-]. rewrite moveSelection_session. auto. }
  intros [= <- <- <-]. auto.
Qed.

Lemma sessionInv_session (m m' : model T) :
  session m' = session m -> sessionInv m -> sessionInv m'.
Proof.
  unfold session, sessionInv. intros [= -> -> -> -> -> ->]. auto.
Qed.

Lemma sessionInv_started (m : model T) :
  session m = (true, modeRunning, [], [], None, 0%Z) -> sessionInv m.
Proof.
  unfold session, sessionInv. intros [= -> -> -> -> -> ->].
  split_and!; try easy. constructor.
Qed.

Lemma sessionInv_reset (m : model T) (frame : Z) :
  session m = (false, modeInput, [], [], None, frame) ->
  (0 <= frame < 10)%Z -> sessionInv m.
Proof.
  unfold session, sessionInv. intros [= -> -> -> -> -> ->] Hf.
  split_and!; try easy. constructor.
Qed.

(** [Update] keeps the exchange consistent. *)
Lemma Update_sessionInv (w w' : world) (m m' : model T) (message : msg) (c : cmd) :
  sessionInv m -> Update w m message = Some (m', c, w') -> sessionInv m'.
Proof.
  intros Hi. destruct message as [wd ht| |output err cli|err exit|k|tag];
    cbn [Update].
  - intros [= <- <- <-]. apply (sessionInv_session m); [|exact Hi].
    assert (Ha : forall x : model T,
               session (match mode x with
                        | modeInput => adjustTextareaHeight x
                        | _ => x
                        end) = session x).
    { intros x. destruct (mode x) eqn:Hx; reflexivity. }
    rewrite Ha, resizeComponents_session. reflexivity.
  - destruct (running m) eqn:Hr; intros [= <- <- <-]; [|exact Hi].
    destruct Hi as (H1 & H2 & H3 & H4 & H5). unfold sessionInv. model_simpl.
    refine (conj H1 (conj H2 (conj H3 (conj H4 _)))).
    split; [apply Z.rem_nonneg; lia|apply Z.rem_bound_pos; lia].
  - intros [= Hh <-].
    pose proof (handleResponse_session m output err cli) as Hs.
    rewrite Hh in Hs. cbn [fst snd] in Hs.
    destruct Hs as (H1 & H2 & H3 & H4 & H5 & _).
    destruct Hi as (_ & _ & _ & _ & Hf). unfold sessionInv.
    rewrite H1, H2, H3. split; [split; discriminate|].
    split; [intros Hn; contradiction Hn; reflexivity|]. auto.
  - destruct err as [e|]; [|destruct exit]; intros [= <- <- <-]; try exact Hi.
    destruct Hi as (H1 & H2 & H3 & H4 & H5). unfold sessionInv. model_simpl.
    split; [split; discriminate|].
    split; [intros Hn; contradiction Hn; reflexivity|]. auto.
  - unfold handleKeyMsg. destruct (mode m) eqn:Hm.
    + destruct (handleInputKeys m k) as [[m1 c1]|] eqn:Hk; [|discriminate].
      cbn [mbind option_bind]. intros [= <- <- <-].
      apply handleInputKeys_session in Hk
        as [(_ & -> & _)|[(_ & Hs & _)|(_ & _ & Hs & _)]].
      * exact Hi.
      * apply (sessionInv_session m); assumption.
      * apply sessionInv_started, Hs.
    + destruct (handleRunningKeys_spec m k) as [H1 _].
      destruct (handleRunningKeys m k) as [m1 c1]. cbn [fst] in H1.
      intros [= <- <- <-]. subst m1. exact Hi.
    + intros Hk. apply handleViewingKeys_session in Hk as [[Hs|(_ & _ & Hs)] _].
      * apply (sessionInv_session m); assumption.
      * eapply sessionInv_reset; [exact Hs|]. apply Hi.
  - destruct (mode m).
    + destruct (taUpdate _ _) as [input' c0]. intros [= <- <- <-].
      apply (sessionInv_session m); [reflexivity|exact Hi].
    + intros [= <- <- <-]. exact Hi.
    + intros [= <- <- <-]. exact Hi.
Qed.

Lemma newModel_sessionInv (defaultCLI : gostring) (m : model T) :
  newModel defaultCLI = Some m -> sessionInv m.
Proof.
  unfold newModel. destruct (negb schemaFound); [discriminate|].
  destruct (Strings.len _ =? 0)%Z; [discriminate|].
  intros [= <-]. unfold sessionInv. cbn. split_and!; try easy. constructor.
Qed.

Lemma reachable_sessionInv (m : model T) : reachable m -> sessionInv m.
Proof.
  induction 1 as [d m Hn|w m message m' c w' _ IH Hu].
  - eapply newModel_sessionInv, Hn.
  - eapply Update_sessionInv; eassumption.
Qed.


(** No message changes the registry of backends. *)
Lemma Update_registry (w w' : world) (m m' : model T) (message : msg) (c : cmd) :
  Update w m message = Some (m', c, w') -> cliOptions m' = cliOptions m.
Proof.
  assert (Hd : mode m = modeInput \/ mode m <> modeInput).
  { destruct (mode m); [left; reflexivity|right; discriminate..]. }
  destruct Hd as [Hm|Hm]; [|intros H; eapply Update_cli_fixed; eassumption].
  destruct message as [wd ht| |output err cli|err exit|k|tag]; cbn [Update].
  - intros [= <- <- <-].
    destruct (mode (resizeComponents _)); unfold resizeComponents;
      repeat case_match; reflexivity.
  - destruct (running m); intros [= <- <- <-]; reflexivity.
  - intros [= Hh <-].
    destruct (handleResponse_core m output err cli) as (opts & flag & Hc & _).
    rewrite Hh in Hc. cbn [fst] in Hc. unfold core in Hc.
    injection Hc as -> _ _ _ _ _. reflexivity.
  - destruct err as [e0|]; [|destruct exit]; intros [= <- <- <-]; reflexivity.
  - unfold handleKeyMsg. rewrite Hm.
    destruct (handleInputKeys m k) as [[m1 c1]|] eqn:Hk; [|discriminate].
    cbn [mbind option_bind]. intros [= <- <- <-].
    assert (Hcore : forall x : model T, core m1 = core x -> cliOptions m1 = cliOptions x).
    { unfold core. intros x [= -> _ _ _ _ _]. reflexivity. }
    apply handleInputKeys_cases in Hk
      as [[Hc _]|[(_ & Hn & _)|[(_ & Hn & _)|[(_ & Hs)|(_ & _ & _ & Hs)]]]].
    + apply Hcore, Hc.
    + apply nextCLI_spec in Hn as [[_ ->]|[_ Hc]]; [reflexivity|].
      unfold core in Hc. injection Hc as -> _ _ _ _ _. reflexivity.
    + apply prevCLI_spec in Hn as [[_ ->]|[_ Hc]]; [reflexivity|].
      unfold core in Hc. injection Hc as -> _ _ _ _ _. reflexivity.
    + apply submitPrompt_spec in Hs as [(_ & Hc & _)|(_ & Hc & _)].
      * apply (Hcore _ Hc).
      * unfold core in Hc. injection Hc as -> _ _ _ _ _. reflexivity.
    + apply submitPrompt_spec in Hs as [(_ & Hc & _)|(_ & Hc & _)].
      * apply (Hcore _ Hc).
      * unfold core in Hc. injection Hc as -> _ _ _ _ _. reflexivity.
  - rewrite Hm. destruct (taUpdate _ _) as [input' c0]. intros [= <- <- <-].
    reflexivity.
Qed.

Lemma reachable_registry (m : model T) :
  reachable m ->
  cliOptions m = filter (fun opt => cliAvailable (name opt) = true) allCLIOptions.
Proof.
  induction 1 as [d m Hn|w m message m' c w' _ IH Hu].
  - unfold newModel in Hn. destruct (negb schemaFound); [discriminate|].
    destruct (Strings.len _ =? 0)%Z; [discriminate|].
    injection Hn as <-. reflexivity.
  - rewrite (Update_registry _ _ _ _ _ _ Hu). exact IH.
Qed.

(** X1. In every state of a run the active backend exists: it is one of the
    four known backends and it is installed. No message makes [Update]
    panic (the slice access of [currentCLI] stays in range), and no message
    changes the registry of backends. *)
Theorem update_never_panics (m : model T) :
  reachable m ->
  (exists cli, currentCLI m = Some cli /\ cli ∈ allCLIOptions
               /\ cliAvailable (name cli) = true)
  /\ (forall w message,
        exists m' c w', Update w m message = Some (m', c, w')
                        /\ reachable m' /\ cliOptions m' = cliOptions m).
Proof.
  intros Hr. pose proof (reachable_inv m Hr) as [Hv _]. split.
  - destruct (index_Some (cliOptions m) (cliIndex m) Hv) as (cli & Hc & Hl).
    exists cli. split; [exact Hc|].
    apply list_elem_of_lookup_2 in Hl.
    rewrite (reachable_registry m Hr) in Hl.
    apply list_elem_of_filter in Hl as [Ha Hin]. auto.
  - intros w message.
    destruct (Update_total w m message Hv) as [[[m' c] w'] Hu].
    exists m', c, w'. split_and!; [exact Hu| |].
    + eapply reach_step; eassumption.
    + eapply Update_registry, Hu.
Qed.

(** X2. In every state of a run the fields of the exchange agree: the
    running flag is set exactly in the running mode; outside the reviewing
    mode no answer is held (no options, no raw output, no parse error); and
    a parse error is held only with an empty option list. *)
Theorem exchange_stays_consistent (m : model T) :
  reachable m ->
  (running m = true <-> mode m = modeRunning)
  /\ (mode m <> modeViewing ->
      options m = [] /\ rawOutput m = [] /\ lastParseError m = None)
  /\ (lastParseError m <> None -> options m = []).
Proof.
  intros Hr. destruct (reachable_sessionInv m Hr) as (H1 & H2 & H3 & _). auto.
Qed.

Lemma ranked_lookup (l : list optionEntry) (i j : nat) (oi oj : optionEntry) :
  ranked l -> i < j -> l !! i = Some oi -> l !! j = Some oj -> before oj oi = false.
Proof.
  unfold ranked. intros Hs. revert i j.
  induction Hs as [|x l Hs IH Hall]; intros i j Hij Hi Hj; [discriminate|].
  destruct j as [|j]; [lia|]. destruct i as [|i]; cbn in Hi, Hj.
  - injection Hi as <-. rewrite Forall_forall in Hall.
    apply Hall. eapply list_elem_of_lookup_2, Hj.
  - apply (IH i j); [lia|assumption..].
Qed.

(** X3. In every state of a run the option list is in ranking order: no
    option stands behind one it should go before, so the first row of the
    table, the one a review starts on, is a top-ranked option. *)
Theorem options_stay_ranked (m : model T) :
  reachable m ->
  ranked (options m)
  /\ (forall i j oi oj,
        i < j -> options m !! i = Some oi -> options m !! j = Some oj ->
        before oj oi = false).
Proof.
  intros Hr. destruct (reachable_sessionInv m Hr) as (_ & _ & _ & H4 & _).
  split; [exact H4|].
  intros i j oi oj Hij Hi Hj.
  exact (ranked_lookup (options m) i j oi oj H4 Hij Hi Hj).
Qed.


(** X4. The spinner runs exactly while a backend call is in flight. In
    every state of a run the frame is a position of the ten spinner frames;
    in the running mode a tick moves it to the next frame, cyclically,
    changes nothing else of the exchange and re-arms itself; in the other
    modes a tick changes nothing and is not re-armed. *)
Theorem tick_animates_only_while_running (w : world) (m : model T) :
  reachable m ->
  (0 <= spinnerFrame m < 10)%Z
  /\ (mode m = modeRunning ->
      Update w m TickMsg
      = Some (set_spinnerFrame ((spinnerFrame m + 1) mod 10) m, CmdTick, w))
  /\ (mode m <> modeRunning -> Update w m TickMsg = Some (m, CmdNil, w)).
Proof.
  intros Hr. destruct (reachable_sessionInv m Hr) as (H1 & _ & _ & _ & H5).
  split; [exact H5|]. cbn [Update]. split.
  - intros Hm. apply H1 in Hm. rewrite Hm.
    rewrite Z.rem_mod_nonneg by lia. reflexivity.
  - intros Hm. destruct (running m); [|reflexivity].
    contradiction Hm. apply H1. reflexivity.
Qed.

(** Where a command that calls a backend can come from. *)
Lemma Update_startsRun (w w' : world) (m m' : model T) (message : msg) (c : cmd) :
  Update w m message = Some (m', c, w') -> startsRun c = true ->
  mode m = modeInput /\ w' = w
  /\ exists k, message = Key k /\ handleInputKeys m k = Some (m', c).
Proof.
  destruct message as [wd ht| |output err cli|err exit|k|tag]; cbn [Update].
  - intros [= <- <- <-]. discriminate.
  - destruct (running m); intros [= <- <- <-]; discriminate.
  - intros [= Hh <-].
    pose proof (handleResponse_session m output err cli) as Hs.
    rewrite Hh in Hs. cbn [fst snd] in Hs.
    destruct Hs as (_ & _ & _ & _ & _ & [->|[v ->]]); discriminate.
  - destruct err as [e0|]; [|destruct exit]; intros [= <- <- <-]; discriminate.
  - unfold handleKeyMsg. destruct (mode m).
    + destruct (handleInputKeys m k) as [[m1 c1]|] eqn:Hk; [|discriminate].
      cbn [mbind option_bind]. intros [= <- <- <-] _. eauto.
    + destruct (handleRunningKeys_spec m k) as [_ Hc].
      destruct (handleRunningKeys m k) as [m1 c1]. cbn [snd] in Hc.
      intros [= <- <- <-]. destruct Hc as [->| ->]; discriminate.
    + intros Hk. apply handleViewingKeys_session in Hk as [_ [->|[->|[v ->]]]];
        discriminate.
  - destruct (mode m).
    + destruct (taUpdate _ _) as [input' c0]. intros [= <- <- <-].
      destruct (inputCmd_idle c0) as [-> _]. discriminate.
    + intros [= <- <- <-]. discriminate.
    + intros [= <- <- <-]. discriminate.
Qed.

(** X5. A backend is called only on a submission: by a key press in the
    composing mode, with text that is not blank. The call goes to the
    backend that is active, with the prompt built from the text without its
    trailing newlines; the model enters the running mode with the running
    flag set, the previous answer dropped and the text kept as the last
    prompt. So while a call runs, or an answer is reviewed, no message
    starts another call. *)
Theorem one_run_at_a_time (w w' : world) (m m' : model T) (message : msg) (c : cmd) :
  Update w m message = Some (m', c, w') ->
  startsRun c = true ->
  mode m = modeInput /\ isKey message = true
  /\ Strings.TrimSpace (promptOf m) <> []
  /\ (exists cli, currentCLI m = Some cli
        /\ c = CmdBatch (CmdRunPrompt cli (buildPrompt (promptOf m))) CmdTick)
  /\ mode m' = modeRunning /\ running m' = true
  /\ options m' = [] /\ rawOutput m' = [] /\ lastParseError m' = None
  /\ lastPrompt m' = promptOf m
  /\ cliIndex m' = cliIndex m
  /\ w' = w.
Proof.
  intros Hu Hs.
  pose proof (Update_registry _ _ _ _ _ _ Hu) as Hreg.
  destruct (Update_startsRun _ _ _ _ _ _ Hu Hs) as (Hm & -> & k & -> & Hk).
  pose proof Hk as Hk'.
  apply handleInputKeys_session in Hk
    as [(_ & _ & ->)|[(_ & _ & [->|[o ->]])|(_ & Ht & Hse & Hl & cli & Hc & ->)]].
  - discriminate.
  - discriminate.
  - destruct (inputCmd_idle o) as [Hn _]. congruence.
  - unfold session in Hse. injection Hse as H1 H2 H3 H4 H5 H6.
    split_and!; eauto.
    apply handleInputKeys_cases in Hk'
      as [[Hco _]|[(_ & _ & Hn)|[(_ & _ & Hn)|[(_ & Hsp)|(_ & _ & _ & Hsp)]]]];
      try discriminate.
    + unfold core in Hco. injection Hco as _ -> _ _ _ _. reflexivity.
    + apply submitPrompt_spec in Hsp as [(_ & _ & Hn)|(_ & Hco & _)];
        [discriminate|].
      unfold core in Hco. injection Hco as _ -> _ _ _ _. reflexivity.
    + apply submitPrompt_spec in Hsp as [(_ & _ & Hn)|(_ & Hco & _)];
        [discriminate|].
      unfold core in Hco. injection Hco as _ -> _ _ _ _. reflexivity.
Qed.

(** What a key that ends the program from the reviewing mode is. *)
Lemma handleViewingKeys_quit (w w' : world) (m m' : model T) (k : KeyMsg) (c : cmd) :
  handleViewingKeys w m k = Some (m', c, w') -> quits c = true ->
  c = CmdQuit
  /\ ((m' = m /\ w' = w
       /\ (quitKey k = true \/ streq (keyString k) (str "q") = true))
      \/ (isEnter k = true /\ clipboardError w = None
          /\ exists value, value <> []
             /\ (selectedValue m = Some value
                 \/ (selectedValue m = Some [] /\ value = rawOutput m))
             /\ clipboard w' = value
             /\ m' = set_status (str "✅ Copied to clipboard: " ++ value) m)).
Proof.
  unfold handleViewingKeys, quitKey.
  destruct (isCtrlC k || streq (keyString k) (str "esc")) eqn:Hq.
  { intros [= <- <- <-] _. split; [reflexivity|]. left. auto. }
  cbn [orb]. destruct (streq (keyString k) (str "q")) eqn:Hq'.
  { intros [= <- <- <-] _. split; [reflexivity|]. left. auto. }
  destruct (isNewline k).
  { intros [= <- <- <-]. discriminate. }
  destruct (isCtrlR k).
  { destruct (selectedValue m) as [v|]; [|discriminate].
    cbn [mbind option_bind].
    destruct (streq v [] && streq (rawOutput m) []); intros [= <- <- <-]; discriminate. }
  destruct (isEnter k).
  { destruct (selectedValue m) as [v|] eqn:Hv; [|discriminate].
    cbn [mbind option_bind]. unfold WriteAll.
    destruct (streq v []) eqn:Hv0; destruct (streq (rawOutput m) []) eqn:Hr0;
      cbn [andb]; try (intros [= <- <- <-]; discriminate);
      (destruct (clipboardError w) eqn:Hc; intros [= <- <- <-]; [discriminate|]);
      intros _; (split; [reflexivity|]); right; (split_and!; [reflexivity..|]).
    - apply streq_nil in Hv0. subst v. exists (rawOutput m).
      split_and!; auto. intros Hn. rewrite Hn in Hr0. discriminate.
    - exists v. split_and!; auto. intros Hn. rewrite Hn in Hv0. discriminate.
    - exists v. split_and!; auto. intros Hn. rewrite Hn in Hv0. discriminate. }
  destruct (streq (keyString k) (str "up") || streq (keyString k) (str "k")).
  { intros [= <- <- <-]. discriminate. }
  destruct (streq (keyString k) (str "down") || streq (keyString k) (str "j")).
  { intros [= <- <- <-]. discriminate. }
  intros [= <- <- <-]. discriminate.
Qed.

(** X6. The program ends only on request. [Update] returns the quit command
    in four situations only: ctrl+c or esc in any mode; q in the reviewing
    mode; Enter in the reviewing mode when the copy to the clipboard
    succeeded, the clipboard then holding the copied value; and the report
    that a command run with exit-on-success has succeeded. Apart from the
    status line after a copy, quitting leaves the model as it is. *)
Theorem quit_only_on_request (w w' : world) (m m' : model T) (message : msg) (c : cmd) :
  Update w m message = Some (m', c, w') ->
  quits c = true ->
  c = CmdQuit
  /\ ((exists k, message = Key k /\ quitKey k = true /\ m' = m /\ w' = w)
      \/ (exists k, message = Key k /\ mode m = modeViewing
            /\ streq (keyString k) (str "q") = true /\ m' = m /\ w' = w)
      \/ (exists k value, message = Key k /\ mode m = modeViewing
            /\ isEnter k = true /\ clipboardError w = None /\ value <> []
            /\ (selectedValue m = Some value
                \/ (selectedValue m = Some [] /\ value = rawOutput m))
            /\ clipboard w' = value
            /\ m' = set_status (str "✅ Copied to clipboard: " ++ value) m)
      \/ (message = ExecResultMsg None true /\ m' = m /\ w' = w)).
Proof.
  destruct message as [wd ht| |output err cli|err exit|k|tag]; cbn [Update].
  - intros [= <- <- <-]. discriminate.
  - destruct (running m); intros [= <- <- <-]; discriminate.
  - intros [= Hh <-].
    pose proof (handleResponse_session m output err cli) as Hs.
    rewrite Hh in Hs. cbn [fst snd] in Hs.
    destruct Hs as (_ & _ & _ & _ & _ & [->|[v ->]]); discriminate.
  - destruct err as [e0|]; [|destruct exit]; intros [= <- <- <-]; try discriminate.
    intros _. split; [reflexivity|]. do 3 right. auto.
  - unfold handleKeyMsg. destruct (mode m) eqn:Hm.
    + destruct (handleInputKeys m k) as [[m1 c1]|] eqn:Hk; [|discriminate].
      cbn [mbind option_bind]. intros [= <- <- <-] Hq.
      apply handleInputKeys_session in Hk
        as [(Hk & -> & ->)|[(_ & _ & [->|[o ->]])|(_ & _ & _ & _ & cli & _ & ->)]].
      * split; [reflexivity|]. left. exists k. auto.
      * discriminate.
      * destruct (inputCmd_idle o) as (_ & Hn & _). congruence.
      * discriminate.
    + unfold handleRunningKeys. fold (quitKey k).
      destruct (quitKey k) eqn:Hk; intros [= <- <- <-]; [|discriminate].
      intros _. split; [reflexivity|]. left. exists k. auto.
    + intros Hk Hq.
      destruct (handleViewingKeys_quit _ _ _ _ _ _ Hk Hq)
        as [-> [(-> & -> & [Hk1|Hk1])|(He & Hc & value & Hne & Hv & Hw & ->)]].
      * split; [reflexivity|]. left. exists k. auto.
      * split; [reflexivity|]. right. left. exists k. auto.
      * split; [reflexivity|]. right. right. left.
        exists k, value. split_and!; auto.
  - destruct (mode m).
    + destruct (taUpdate _ _) as [input' c0]. intros [= <- <- <-].
      destruct (inputCmd_idle c0) as (_ & -> & _). discriminate.
    + intros [= <- <- <-]. discriminate.
    + intros [= <- <- <-]. discriminate.
Qed.


Lemma viewing_dispatch_ctrlR (w : world) (m : model T) (k : KeyMsg) :
  KType k = KeyCtrlR -> Alt k = false ->
  handleViewingKeys w m k
  = (value ← selectedValue m;
     if streq value [] && streq (rawOutput m) []
     then Some (set_status (str "nothing to run • " ++ helpViewing) m, CmdNil, w)
     else
       let value := if streq value [] then rawOutput m else value in
       Some (set_status (str "running: " ++ cleanText value) m,
             execWithFeedback value true, w)).
Proof.
  destruct k as [t r a p]. cbn. intros -> ->. reflexivity.
Qed.

Lemma viewing_dispatch_enter (w : world) (m : model T) (k : KeyMsg) :
  KType k = KeyEnter -> Alt k = false ->
  handleViewingKeys w m k
  = (value ← selectedValue m;
     if streq value [] && streq (rawOutput m) []
     then Some (set_status (str "nothing to copy • " ++ helpViewing) m, CmdNil, w)
     else
       let value := if streq value [] then rawOutput m else value in
       match WriteAll value w with
       | (Some e, w') =>
         Some (set_status (str "❌ CLIPBOARD FAILED: " ++ e
                           ++ str " • Install xclip/xsel on Linux • " ++ helpViewing) m,
               CmdNil, w')
       | (None, w') =>
         Some (set_status (str "✅ Copied to clipboard: " ++ value) m, CmdQuit, w')
       end).
Proof.
  destruct k as [t r a p]. cbn. intros -> ->. reflexivity.
Qed.

(** X7. Run and copy in the reviewing mode act on the selected value, and
    on the raw output when that value is empty: always when there are no
    options, and also when the selected option has an empty value. With
    both empty, nothing is run or copied and the session goes on. A copy
    that the clipboard refuses does not end the session: the status reports
    the failure and no quit command is returned. *)
Theorem review_falls_back_to_raw_output (w : world) (m : model T) (k : KeyMsg)
    (v : gostring) :
  mode m = modeViewing -> Alt k = false ->
  selectedValue m = Some v ->
  let value := if streq v [] then rawOutput m else v in
  (options m = [] -> value = rawOutput m)
  /\ (KType k = KeyCtrlR ->
      (value = [] ->
       Update w m (Key k)
       = Some (set_status (str "nothing to run • " ++ helpViewing) m, CmdNil, w))
      /\ (value <> [] ->
          Update w m (Key k)
          = Some (set_status (str "running: " ++ cleanText value) m,
                  CmdExec value true, w)))
  /\ (KType k = KeyEnter ->
      (value = [] ->
       Update w m (Key k)
       = Some (set_status (str "nothing to copy • " ++ helpViewing) m, CmdNil, w))
      /\ (value <> [] -> clipboardError w = None ->
          Update w m (Key k)
          = Some (set_status (str "✅ Copied to clipboard: " ++ value) m,
                  CmdQuit, mkWorld value None))
      /\ (forall e, value <> [] -> clipboardError w = Some e ->
          Update w m (Key k)
          = Some (set_status (str "❌ CLIPBOARD FAILED: " ++ e
                              ++ str " • Install xclip/xsel on Linux • "
                              ++ helpViewing) m,
                  CmdNil, w))).
Proof.
  intros Hm Ha Hv value.
  assert (Hcond : streq v [] && streq (rawOutput m) [] = streq value []).
  { subst value. destruct (streq v []) eqn:Hv0; [reflexivity|].
    rewrite Hv0. reflexivity. }
  assert (Hnil : value = [] -> streq value [] = true) by (intros ->; reflexivity).
  assert (Hne : value <> [] -> streq value [] = false).
  { intros Hn. destruct (streq value []) eqn:Hs; [|reflexivity].
    apply streq_nil in Hs. contradiction. }
  split_and!.
  - intros Ho. rewrite (selectedValue_empty m Ho) in Hv. injection Hv as <-.
    reflexivity.
  - intros Hk. cbn [Update]. unfold handleKeyMsg. rewrite Hm.
    rewrite (viewing_dispatch_ctrlR w m k Hk Ha), Hv. cbn [mbind option_bind].
    rewrite Hcond. split; intros Hval.
    + rewrite (Hnil Hval). reflexivity.
    + rewrite (Hne Hval). reflexivity.
  - intros Hk. cbn [Update]. unfold handleKeyMsg. rewrite Hm.
    rewrite (viewing_dispatch_enter w m k Hk Ha), Hv. cbn [mbind option_bind].
    rewrite Hcond. unfold WriteAll. split_and!.
    + intros Hval. rewrite (Hnil Hval). reflexivity.
    + intros Hval Hc. rewrite (Hne Hval), Hc. reflexivity.
    + intros e Hval Hc. rewrite (Hne Hval), Hc. reflexivity.
Qed.

Lemma set_selected_same (m : model T) : set_selected (selected m) m = m.
Proof. destruct m. reflexivity. Qed.

Lemma moveSelection_iter (m : model T) (j : nat) :
  options m <> [] -> selectionValid m ->
  Nat.iter j (moveSelection 1) m
  = set_selected ((selected m + Z.of_nat j) mod Strings.len (options m)) m.
Proof.
  intros Hne Hv. pose proof (Hv Hne) as Hs. induction j as [|j IH].
  - change (Nat.iter 0 (moveSelection 1) m) with m.
    rewrite Z.add_0_r, Z.mod_small by lia.
    symmetry. apply set_selected_same.
  - rewrite Nat.iter_succ, IH.
    rewrite moveSelection_wraps; [|auto|exact Hne|].
    + unfold set_selected. model_simpl. f_equal.
      rewrite Zplus_mod_idemp_l. f_equal. lia.
    + unfold selectionValid. model_simpl. intros _.
      apply Z.mod_pos_bound. lia.
Qed.

(** X8. Selection moves compose: with options and a valid selection, one
    step down and one step up cancel, in either order, and as many steps
    down as there are options lead back to the same model. *)
Theorem selection_round_trip (m : model T) :
  options m <> [] -> selectionValid m ->
  moveSelection (-1) (moveSelection 1 m) = m
  /\ moveSelection 1 (moveSelection (-1) m) = m
  /\ Nat.iter (length (options m)) (moveSelection 1) m = m.
Proof.
  intros Hne Hv. pose proof (Hv Hne) as Hs.
  assert (Hstep : forall d1 d2 : Z,
             (d1 = 1 \/ d1 = -1)%Z -> (d2 = 1 \/ d2 = -1)%Z -> (d1 + d2 = 0)%Z ->
             moveSelection d2 (moveSelection d1 m) = m).
  { intros d1 d2 H1 H2 H12.
    rewrite (moveSelection_wraps d2); [|exact H2| |apply moveSelection_valid; auto].
    - rewrite (moveSelection_wraps d1) by auto.
      unfold set_selected. model_simpl.
      rewrite Zplus_mod_idemp_l.
      replace (selected m + d1 + d2)%Z with (selected m) by lia.
      rewrite Z.mod_small by lia. destruct m; reflexivity.
    - rewrite (moveSelection_wraps d1) by auto. exact Hne. }
  split_and!.
  - apply Hstep; auto.
  - apply Hstep; auto.
  - rewrite moveSelection_iter by assumption.
    change (Z.of_nat (length (options m))) with (Strings.len (options m)).
    rewrite <- (Z.mul_1_l (Strings.len (options m))) at 1.
    rewrite Z.mod_add by lia. rewrite Z.mod_small by lia.
    apply set_selected_same.
Qed.

(** X9. Backend cycling composes: from a state whose active backend is a
    position of the registry, forward then backward (and backward then
    forward) leads back to the same model, except that the status line now
    names the active backend. After each step the status names the backend
    that is then active. *)
Theorem backend_cycle_round_trip (m : model T) (cli : cliOption) :
  cliValid m -> currentCLI m = Some cli ->
  let named := set_status (str "using " ++ name cli ++ bullet ++ helpInput) m in
  (exists m1, nextCLI m = Some m1 /\ prevCLI m1 = Some named
              /\ exists cli1, currentCLI m1 = Some cli1
                 /\ status m1 = str "using " ++ name cli1 ++ bullet ++ helpInput)
  /\ (exists m1, prevCLI m = Some m1 /\ nextCLI m1 = Some named
                 /\ exists cli1, currentCLI m1 = Some cli1
                    /\ status m1 = str "using " ++ name cli1 ++ bullet ++ helpInput).
Proof.
  intros Hv Hc named. unfold cliValid in Hv.
  assert (Hl : (Strings.len (cliOptions m) =? 0)%Z = false) by lia.
  set (n := Strings.len (cliOptions m)) in *.
  assert (Hcur : forall i s (x : model T),
             cliOptions x = cliOptions m ->
             currentCLI (set_status s (set_cliIndex i x)) = index (cliOptions m) i).
  { intros i s x Hx. unfold currentCLI. model_simpl. rewrite Hx. reflexivity. }
  split.
  - assert (Hi1 : (0 <= Z.rem (cliIndex m + 1) n < n)%Z)
      by (apply Z.rem_bound_pos; lia).
    destruct (index_Some (cliOptions m) _ Hi1) as (cli1 & Hc1 & _).
    exists (set_status (str "using " ++ name cli1 ++ bullet ++ helpInput)
              (set_cliIndex (Z.rem (cliIndex m + 1) n) m)).
    split_and!.
    + unfold nextCLI. fold n. rewrite Hl.
      change (currentCLI (set_cliIndex (Z.rem (cliIndex m + 1) n) m))
        with (index (cliOptions m) (Z.rem (cliIndex m + 1) n)).
      rewrite Hc1. reflexivity.
    + unfold prevCLI. model_simpl. fold n. rewrite Hl.
      assert (Hi0 : Z.rem (Z.rem (cliIndex m + 1) n - 1 + n) n = cliIndex m).
      { rewrite (Z.rem_mod_nonneg (Z.rem (cliIndex m + 1) n - 1 + n)) by lia.
        rewrite (Z.rem_mod_nonneg (cliIndex m + 1)) by lia.
        destruct (Z.eq_dec (cliIndex m + 1)%Z n) as [He|He].
        - rewrite He, Z.mod_same by lia.
          replace (0 - 1 + n)%Z with (cliIndex m) by lia. apply Z.mod_small. lia.
        - rewrite (Z.mod_small (cliIndex m + 1)) by lia.
          replace (cliIndex m + 1 - 1 + n)%Z with (cliIndex m + 1 * n)%Z by lia.
          rewrite Z.mod_add by lia. apply Z.mod_small. lia. }
      rewrite Hi0.
      change (currentCLI (set_cliIndex (cliIndex m) _)) with (currentCLI m).
      rewrite Hc. reflexivity.
    + exists cli1. split; [|reflexivity]. rewrite Hcur by reflexivity. exact Hc1.
  - assert (Hi1 : (0 <= Z.rem (cliIndex m - 1 + n) n < n)%Z)
      by (apply Z.rem_bound_pos; lia).
    destruct (index_Some (cliOptions m) _ Hi1) as (cli1 & Hc1 & _).
    exists (set_status (str "using " ++ name cli1 ++ bullet ++ helpInput)
              (set_cliIndex (Z.rem (cliIndex m - 1 + n) n) m)).
    split_and!.
    + unfold prevCLI. fold n. rewrite Hl.
      change (currentCLI (set_cliIndex (Z.rem (cliIndex m - 1 + n) n) m))
        with (index (cliOptions m) (Z.rem (cliIndex m - 1 + n) n)).
      rewrite Hc1. reflexivity.
    + unfold nextCLI. model_simpl. fold n. rewrite Hl.
      assert (Hi0 : Z.rem (Z.rem (cliIndex m - 1 + n) n + 1) n = cliIndex m).
      { rewrite (Z.rem_mod_nonneg (Z.rem (cliIndex m - 1 + n) n + 1)) by lia.
        rewrite (Z.rem_mod_nonneg (cliIndex m - 1 + n)) by lia.
        destruct (Z.eq_dec (cliIndex m) 0%Z) as [He|He].
        - rewrite He. replace (0 - 1 + n)%Z with (n - 1)%Z by lia.
          rewrite (Z.mod_small (n - 1)) by lia.
          replace (n - 1 + 1)%Z with n by lia. apply Z.mod_same. lia.
        - replace (cliIndex m - 1 + n)%Z with (cliIndex m - 1 + 1 * n)%Z by lia.
          rewrite Z.mod_add by lia. rewrite (Z.mod_small (cliIndex m - 1)) by lia.
          replace (cliIndex m - 1 + 1)%Z with (cliIndex m) by lia.
          apply Z.mod_small. lia. }
      rewrite Hi0.
      change (currentCLI (set_cliIndex (cliIndex m) _)) with (currentCLI m).
      rewrite Hc. reflexivity.
    + exists cli1. split; [|reflexivity]. rewrite Hcur by reflexivity. exact Hc1.
Qed.


Lemma findCLI_spec (defaultCLI : gostring) (i : Z) (opts : list cliOption) :
  (exists pre cli post,
      opts = pre ++ cli :: post
      /\ EqualFold (name cli) defaultCLI = true
      /\ Forall (fun o => EqualFold (name o) defaultCLI = false) pre
      /\ findCLI defaultCLI i opts = (i + Z.of_nat (length pre))%Z)
  \/ (Forall (fun o => EqualFold (name o) defaultCLI = false) opts
      /\ findCLI defaultCLI i opts = 0%Z).
Proof.
  revert i. induction opts as [|opt opts IH]; intros i; cbn [findCLI].
  - right. split; [constructor|reflexivity].
  - destruct (EqualFold (name opt) defaultCLI) eqn:He.
    + left. exists [], opt, opts. cbn [length app]. split_and!; auto. lia.
    + destruct (IH (i + 1)%Z) as [(pre & cli & post & -> & Hc & Hpre & Hf)|[Hall Hf]].
      * left. exists (opt :: pre), cli, post. cbn [length app].
        split_and!; auto. rewrite Hf. lia.
      * right. split; [constructor; assumption|exact Hf].
Qed.

(** X10. How a session starts. [newModel] gives up (the process exits)
    exactly when the options schema is not found or none of the four
    backends is installed. Otherwise the registry holds the installed
    backends in the order codex, claude, gemini, opencode, the model is in
    the composing mode with no answer and the input help as status, and the
    active backend is the first installed one whose name equals the default
    name up to letter case, or, when there is none, the first installed
    backend. *)
Theorem newModel_starts_on_default (defaultCLI : gostring) :
  let installed := filter (fun opt => cliAvailable (name opt) = true) allCLIOptions in
  (newModel defaultCLI = None <-> schemaFound = false \/ installed = [])
  /\ (forall m : model T,
        newModel defaultCLI = Some m ->
        cliOptions m = installed
        /\ mode m = modeInput /\ running m = false /\ autoExecute m = false
        /\ options m = [] /\ rawOutput m = [] /\ status m = helpInput
        /\ exists cli,
             currentCLI m = Some cli
             /\ ((EqualFold (name cli) defaultCLI = true
                  /\ forall j o, j < Z.to_nat (cliIndex m) ->
                                 installed !! j = Some o ->
                                 EqualFold (name o) defaultCLI = false)
                 \/ (cliIndex m = 0%Z
                     /\ Forall (fun o => EqualFold (name o) defaultCLI = false)
                               installed))).
Proof.
  intros installed. unfold newModel. fold installed. split.
  - destruct schemaFound; cbn [negb].
    + destruct (Strings.len installed =? 0)%Z eqn:Hl.
      * apply len_nil_iff in Hl. split; auto.
      * split; [discriminate|]. intros [Hf|Hn]; [discriminate|].
        rewrite Hn in Hl. discriminate.
    + split; auto.
  - intros m. destruct (negb schemaFound); [discriminate|].
    destruct (Strings.len installed =? 0)%Z eqn:Hl; [discriminate|].
    intros [= <-]. model_simpl. split_and!; try reflexivity.
    unfold currentCLI. model_simpl.
    destruct (findCLI_spec defaultCLI 0 installed)
      as [(pre & cli & post & Hi & Hc & Hpre & Hf)|[Hall Hf]]; rewrite Hf.
    + exists cli. split.
      * unfold index, Strings.len. rewrite Hi, length_app. cbn [length].
        replace ((0 + Z.of_nat (length pre) <? 0)%Z
                 || (Z.of_nat (length pre + S (length post))
                     <=? 0 + Z.of_nat (length pre))%Z) with false by lia.
        replace (Z.to_nat (0 + Z.of_nat (length pre))) with (length pre) by lia.
        apply list_lookup_middle. reflexivity.
      * left. split; [exact Hc|]. intros j o Hj Ho.
        rewrite Hi in Ho. rewrite lookup_app_l in Ho by lia.
        rewrite Forall_forall in Hpre. apply Hpre.
        eapply list_elem_of_lookup_2, Ho.
    + destruct installed as [|cli rest] eqn:Hinst; [discriminate|].
      exists cli. split; [reflexivity|]. right. auto.
Qed.

End SessionFacts.

(** * Shell commands *)

Section RunFacts.
Context {decoder : Decoder} {T : Type} {textarea : TextArea T}.
Context {styles : Styles} {env : Env}.

(** Where a command that runs a shell command can come from. *)
Lemma Update_runsShell (w w' : world) (m m' : model T) (message : msg) (c : cmd) :
  Update w m message = Some (m', c, w') -> runsShell c = true ->
  exists value,
    c = CmdExec value true /\ w' = w /\ mode m' = modeViewing
    /\ status m' = str "running: " ++ cleanText value
    /\ ((exists k, message = Key k /\ mode m = modeViewing /\ isCtrlR k = true
           /\ value <> []
           /\ (selectedValue m = Some value
               \/ (selectedValue m = Some [] /\ value = rawOutput m))
           /\ m' = set_status (str "running: " ++ cleanText value) m)
        \/ (exists output cli first rest,
              message = ResponseMsg output None cli /\ autoExecute m = true
              /\ parseOptions (Strings.TrimSpace output) = (first :: rest, None)
              /\ value = Value first /\ options m' = first :: rest)).
Proof.
  destruct message as [wd ht| |output err cli|err exit|k|tag]; cbn [Update].
  - intros [= <- <- <-]. discriminate.
  - destruct (running m); intros [= <- <- <-]; discriminate.
  - intros [= Hh <-] Hc. destruct err as [e|].
    { rewrite handleResponse_error in Hh. injection Hh as <- <-. discriminate. }
    destruct (parseOptions_cases (Strings.TrimSpace output))
      as [(first & rest & Hp)|Hp].
    + rewrite (handleResponse_options _ _ _ _ _ Hp) in Hh. cbv zeta in Hh.
      destruct (autoExecute m) eqn:Ha; injection Hh as <- <-; [|discriminate].
      exists (Value first). split_and!; try reflexivity.
      right. exists output, cli, first, rest. split_and!; auto.
    + rewrite (handleResponse_parse_error _ _ _ Hp) in Hh.
      injection Hh as <- <-. discriminate.
  - destruct err as [e0|]; [|destruct exit]; intros [= <- <- <-]; discriminate.
  - unfold handleKeyMsg. destruct (mode m) eqn:Hm.
    + destruct (handleInputKeys m k) as [[m1 c1]|] eqn:Hk; [|discriminate].
      cbn [mbind option_bind]. intros [= <- <- <-] Hc.
      apply handleInputKeys_session in Hk
        as [(_ & _ & ->)|[(_ & _ & [->|[o ->]])|(_ & _ & _ & _ & cli & _ & ->)]];
        try discriminate.
      rewrite inputCmd_quiet in Hc. discriminate.
    + destruct (handleRunningKeys_spec m k) as [_ Hc].
      destruct (handleRunningKeys m k) as [m1 c1]. cbn [snd] in Hc.
      intros [= <- <- <-]. destruct Hc as [->| ->]; discriminate.
    + intros Hk Hc.
      apply handleViewingKeys_cases in Hk
        as [[_ ->]|[(_ & _ & -> & _)|[(_ & Hr & -> & Hco & v & Hv & Hcase)
           |[(_ & _ & _ & _ & v & _ & Hcase)|[(d & _ & _ & -> & _)|(_ & -> & _)]]]]];
        try discriminate.
      * destruct Hcase as [(_ & _ & ->)|Hcase]; [discriminate|].
        cbv zeta in Hcase. destruct Hcase as (Hne & -> & ->).
        exists (if streq v [] then rawOutput m else v).
        split_and!; try reflexivity; [exact Hm|].
        left. exists k. split_and!; auto.
        destruct (streq v []) eqn:Hs; [|left; exact Hv].
        apply streq_nil in Hs. subst v. right. auto.
      * destruct Hcase as [(_ & _ & -> & _)|Hcase]; [discriminate|].
        cbv zeta in Hcase. destruct Hcase as (_ & [(_ & -> & _)|(_ & -> & _)]);
          discriminate.
  - destruct (mode m).
    + destruct (taUpdate _ _) as [input' c0]. intros [= <- <- <-] Hc.
      rewrite inputCmd_quiet in Hc. discriminate.
    + intros [= <- <- <-]. discriminate.
    + intros [= <- <- <-]. discriminate.
Qed.

(** X11. Every shell command the program starts is run and exit. [Update]
    returns a command that runs a shell command in two situations only:
    ctrl+r in the reviewing mode, on the selected value or else the raw
    output, never on an empty text; and an answer with options arriving
    with the auto-execute flag set, on the value of the first option. The
    command is always the one that exits on success, the model is in the
    reviewing mode and its status shows the cleaned value. When the command
    has run without error the program quits; when it failed the program
    stays in the reviewing mode with the same options and selection and the
    status reports the failure. *)
Theorem shell_runs_exit_on_success (w w' : world) (m m' : model T)
    (message : msg) (c : cmd) :
  Update w m message = Some (m', c, w') ->
  runsShell c = true ->
  exists value,
    c = CmdExec value true /\ w' = w /\ mode m' = modeViewing
    /\ status m' = str "running: " ++ cleanText value
    /\ ((exists k, message = Key k /\ mode m = modeViewing /\ isCtrlR k = true
           /\ value <> []
           /\ (selectedValue m = Some value
               \/ (selectedValue m = Some [] /\ value = rawOutput m)))
        \/ (exists output cli first rest,
              message = ResponseMsg output None cli /\ autoExecute m = true
              /\ parseOptions (Strings.TrimSpace output) = (first :: rest, None)
              /\ value = Value first))
    /\ Update w' m' (execResult true None) = Some (m', CmdQuit, w')
    /\ (forall e,
          exists m'', Update w' m' (execResult true (Some e)) = Some (m'', CmdNil, w')
                      /\ core m'' = core m' /\ running m'' = false
                      /\ status m'' = str "❌ exec failed: " ++ e ++ bullet
                                      ++ helpViewing).
Proof.
  intros Hu Hc.
  destruct (Update_runsShell _ _ _ _ _ _ Hu Hc)
    as (value & -> & -> & Hm & Hs & Hsrc).
  exists value. split_and!; auto.
  - destruct Hsrc as [(k & Hk & Hmv & Hr & Hne & Hv & _)
                     |(output & cli & first & rest & Hk & Ha & Hp & Hv & _)].
    + left. exists k. auto.
    + right. exists output, cli, first, rest. auto.
  - intros e. cbn [execResult Update]. eexists. split; [reflexivity|].
    unfold core. model_simpl. rewrite Hm. auto.
Qed.

End RunFacts.

(** * Blank prompts *)

Section BlankFacts.
Import Utf8.
Context {decoder : Decoder} {T : Type} {textarea : TextArea T}.
Context {styles : Styles} {env : Env}.

Lemma dropSpaces_nil (cs : list chunk) :
  Strings.dropSpaces cs = [] <-> Forall (fun c => spaceChunk c = true) cs.
Proof.
  induction cs as [|c cs IH]; cbn [Strings.dropSpaces].
  - split; [constructor|reflexivity].
  - destruct (spaceChunk c) eqn:Hc.
    + rewrite IH. split; [intros H; constructor; assumption|].
      intros H. apply Forall_cons in H as [_ H]. exact H.
    + split; [discriminate|]. intros H. apply Forall_cons in H as [H _]. congruence.
Qed.

Lemma dropSpaces_suffix (cs : list chunk) :
  exists sp, cs = sp ++ Strings.dropSpaces cs
             /\ Forall (fun c => spaceChunk c = true) sp.
Proof.
  induction cs as [|c cs (sp & IH & Hsp)]; cbn [Strings.dropSpaces].
  - exists []. split; [reflexivity|constructor].
  - destruct (spaceChunk c) eqn:Hc.
    + exists (c :: sp). split; [cbn; congruence|constructor; assumption].
    + exists []. split; [reflexivity|constructor].
Qed.

Lemma bytesOf_nil (cs : list chunk) :
  Forall (fun c => snd c <> []) cs -> bytesOf cs = [] -> cs = [].
Proof.
  destruct cs as [|c cs]; [reflexivity|].
  intros H Hb. apply Forall_cons in H as [Hc _].
  rewrite bytesOf_cons in Hb. apply app_eq_nil in Hb as [Hb _].
  destruct (Hc Hb).
Qed.

Lemma Forall_rev_iff {A} (P : A -> Prop) (l : list A) : Forall P (rev l) <-> Forall P l.
Proof.
  rewrite !Forall_forall. split; intros H x Hx; apply H.
  - apply list_elem_of_In, in_rev. rewrite rev_involutive.
    apply list_elem_of_In. exact Hx.
  - apply list_elem_of_In, in_rev in Hx. apply list_elem_of_In. exact Hx.
Qed.

(** [TrimSpace] gives the empty string exactly on white space. *)
Lemma TrimSpace_nil (s : gostring) :
  Strings.TrimSpace s = [] <-> Forall (fun c => spaceChunk c = true) (runes s).
Proof.
  unfold Strings.TrimSpace. split.
  - intros Hb.
    destruct (dropSpaces_suffix (runes s)) as (sp1 & H1 & Hsp1).
    destruct (dropSpaces_suffix (rev (Strings.dropSpaces (runes s))))
      as (sp2 & H2 & Hsp2).
    pose proof (Decoded_nonempty (runes s) (Decoded_runes s)) as Hne.
    assert (Hmid : Forall (fun c : chunk => snd c <> [])
                     (rev (Strings.dropSpaces (rev (Strings.dropSpaces (runes s)))))).
    { apply Forall_rev_iff.
      rewrite H1 in Hne. apply Forall_app in Hne as [_ Hne].
      apply (proj2 (Forall_rev_iff _ _)) in Hne.
      assert (Hne' : Forall (fun c : chunk => snd c <> [])
                       (sp2 ++ Strings.dropSpaces (rev (Strings.dropSpaces (runes s)))))
        by (rewrite <- H2; exact Hne).
      apply Forall_app in Hne' as [_ Hne']. exact Hne'. }
    apply (bytesOf_nil _ Hmid) in Hb.
    assert (Hd : Strings.dropSpaces (rev (Strings.dropSpaces (runes s))) = []).
    { rewrite <- (rev_involutive (Strings.dropSpaces _)), Hb. reflexivity. }
    apply dropSpaces_nil in Hd. apply (proj1 (Forall_rev_iff _ _)) in Hd.
    destruct (Strings.dropSpaces (runes s)) as [|c cs] eqn:Hds.
    + apply dropSpaces_nil. exact Hds.
    + exfalso. apply Forall_cons in Hd as [Hc _].
      assert (Hns : spaceChunk c = false).
      { clear -Hds. induction (runes s) as [|c0 cs0 IH]; [discriminate|].
        cbn [Strings.dropSpaces] in Hds. destruct (spaceChunk c0) eqn:Hc0.
        - apply IH, Hds.
        - injection Hds as <- _. exact Hc0. }
      congruence.
  - intros Hall. apply dropSpaces_nil in Hall. rewrite Hall. reflexivity.
Qed.

Lemma dropCut_suffix (cutset s : gostring) :
  exists t, s = t ++ Strings.dropCut cutset s
            /\ Forall (fun c => Strings.inCutset cutset c = true) t.
Proof.
  induction s as [|c s (t & IH & Ht)]; cbn [Strings.dropCut].
  - exists []. split; [reflexivity|constructor].
  - destruct (Strings.inCutset cutset c) eqn:Hc.
    + exists (c :: t). split; [cbn; congruence|constructor; assumption].
    + exists []. split; [reflexivity|constructor].
Qed.

(** [TrimRight] removes a run of bytes of the cutset from the end. *)
Lemma TrimRight_suffix (s cutset : gostring) :
  exists t, s = Strings.TrimRight s cutset ++ t
            /\ Forall (fun c => Strings.inCutset cutset c = true) t.
Proof.
  unfold Strings.TrimRight.
  destruct (dropCut_suffix cutset (rev s)) as (t & Ht & Hall).
  exists (rev t). split.
  - rewrite <- rev_app_distr, <- Ht, rev_involutive. reflexivity.
  - apply Forall_rev_iff, Hall.
Qed.

Lemma runes_newlines (t : gostring) :
  Forall (fun c => Strings.inCutset newline c = true) t ->
  boundary t /\ Forall (fun c => spaceChunk c = true) (runes t).
Proof.
  induction 1 as [|c t Hc Ht [_ IH]]; [split; [exact I|constructor]|].
  assert (c = ascii_of_nat 10) as ->.
  { unfold Strings.inCutset, newline in Hc. cbn in Hc.
    rewrite orb_false_r in Hc. apply Ascii.eqb_eq in Hc. exact Hc. }
  split; [reflexivity|].
  rewrite runes_step by discriminate. cbn [DecodeRune]. 
  change (DecodeRune (ascii_of_nat 10 :: t)) with (10%N, 1).
  cbn [fst snd take drop]. constructor; [reflexivity|exact IH].
Qed.

(** A prompt is blank exactly when the text is white space only. *)
Lemma blank_prompt (v : gostring) :
  Strings.TrimSpace (Strings.TrimRight v newline) = []
  <-> Forall (fun c => spaceChunk c = true) (runes v).
Proof.
  rewrite TrimSpace_nil.
  destruct (TrimRight_suffix v newline) as (t & Hv & Ht).
  destruct (runes_newlines t Ht) as [Hb Hsp].
  rewrite Hv at 2. rewrite (runes_app _ t Hb), Forall_app. tauto.
Qed.

(** X12. Which prompts are sent. A submission (plain Enter, or ctrl+r) in
    the composing mode is refused exactly when the text is white space
    only: its runes are all white space, the empty text included. Then no
    backend is called, the exchange stays as it is and the status says that
    the prompt is empty. A text with any other rune is sent: the command
    calls a backend and the model enters the running mode. *)
Theorem blank_prompt_is_not_sent (w : world) (m : model T) (k : KeyMsg) :
  mode m = modeInput -> cliValid m ->
  plainEnter k \/ KType k = KeyCtrlR ->
  let blank := Forall (fun c => spaceChunk c = true) (runes (taValue (input m))) in
  exists m' c,
    Update w m (Key k) = Some (m', c, w)
    /\ (blank ->
        c = CmdNil /\ session m' = session m
        /\ status m' = str "prompt is empty • " ++ helpInput)
    /\ (~ blank ->
        startsRun c = true /\ mode m' = modeRunning /\ running m' = true).
Proof.
  intros Hm Hv Hk blank.
  assert (Hsub : exists b, handleInputKeys m k = submitPrompt (set_autoExecute b m)).
  { destruct Hk as [Hk|Hk].
    - exists false. apply plainEnter_submits, Hk.
    - exists true. apply ctrlR_submits, Hk. }
  destruct Hsub as [b Hsub].
  destruct (submitPrompt_total (set_autoExecute b m) Hv) as [[m' c] Hs].
  exists m', c. split.
  { cbn [Update]. unfold handleKeyMsg. rewrite Hm, Hsub, Hs. reflexivity. }
  pose proof Hs as Hs'.
  apply submitPrompt_session in Hs'
    as [(Ht & Hse & ->)|(Ht & Hse & _ & cli & _ & ->)];
    change (promptOf (set_autoExecute b m))
      with (Strings.TrimRight (taValue (input m)) newline) in Ht.
  - split; [|intros Hn; contradiction Hn; apply blank_prompt, Ht].
    intros _. split_and!; [reflexivity|exact Hse|].
    unfold submitPrompt in Hs. cbn [input set_autoExecute] in Hs.
    rewrite Ht in Hs. cbn [streq] in Hs. injection Hs as <-. reflexivity.
  - split; [intros Hb; apply blank_prompt in Hb; contradiction|].
    intros _. unfold session in Hse. injection Hse as -> -> _ _ _ _.
    split_and!; reflexivity.
Qed.

End BlankFacts.

(** * White space around an answer *)

Section PaddingFacts.
Import Utf8.
Context {decoder : Decoder} {T : Type} {textarea : TextArea T}.
Context {styles : Styles} {env : Env}.

Lemma asciiSpace_inv (b : ascii) :
  asciiSpace b = true -> (code b < RuneSelf)%N /\ spaceChunk (asciiChunk b) = true.
Proof.
  unfold asciiSpace, spaceChunk, asciiChunk. cbn [fst].
  intros [H1 H2]%andb_true_iff. split; [lia|exact H1].
Qed.

Lemma runes_ascii_cons (b : ascii) (s : gostring) :
  (code b < RuneSelf)%N -> runes (b :: s) = asciiChunk b :: runes s.
Proof.
  intros Hb. rewrite runes_step by discriminate.
  assert (Hd : DecodeRune (b :: s) = (code b, 1)).
  { unfold DecodeRune. replace (code b <? RuneSelf)%N with true by lia. reflexivity. }
  rewrite Hd. reflexivity.
Qed.

Lemma runes_pad_l (a s : gostring) :
  Forall (fun b => asciiSpace b = true) a ->
  runes (a ++ s) = map asciiChunk a ++ runes s
  /\ Forall (fun c => spaceChunk c = true) (map asciiChunk a).
Proof.
  induction 1 as [|b a Hb Ha [IH1 IH2]]; [split; [reflexivity|constructor]|].
  destruct (asciiSpace_inv b Hb) as [Hlt Hsp].
  cbn [app map]. rewrite runes_ascii_cons by exact Hlt. rewrite IH1.
  split; [reflexivity|constructor; assumption].
Qed.

Lemma runes_pad_r (s b : gostring) :
  Forall (fun c => asciiSpace c = true) b ->
  runes (s ++ b) = runes s ++ map asciiChunk b.
Proof.
  intros Hb. destruct (runes_pad_l b [] Hb) as [Hr _].
  rewrite app_nil_r in Hr. cbn in Hr. rewrite app_nil_r in Hr.
  rewrite runes_app, Hr; [reflexivity|].
  destruct Hb as [|c b Hc _]; [exact I|].
  destruct (asciiSpace_inv c Hc) as [Hlt _].
  cbn [boundary]. unfold isCont. unfold RuneSelf in Hlt. lia.
Qed.

Lemma dropSpaces_app_spaces (sp cs : list chunk) :
  Forall (fun c => spaceChunk c = true) sp ->
  Strings.dropSpaces (sp ++ cs) = Strings.dropSpaces cs.
Proof.
  induction 1 as [|c sp Hc _ IH]; [reflexivity|].
  cbn [app Strings.dropSpaces]. rewrite Hc. exact IH.
Qed.

Lemma dropSpaces_head (cs : list chunk) :
  match Strings.dropSpaces cs with
  | [] => True
  | c :: _ => spaceChunk c = false
  end.
Proof.
  induction cs as [|c cs IH]; [exact I|]. cbn [Strings.dropSpaces].
  destruct (spaceChunk c) eqn:Hc; [exact IH|exact Hc].
Qed.

Lemma Forall_rev_spaces (sp : list chunk) :
  Forall (fun c => spaceChunk c = true) sp ->
  Forall (fun c => spaceChunk c = true) (rev sp).
Proof.
  intros H. rewrite Forall_forall in *. intros c Hc. apply H.
  apply list_elem_of_In. apply list_elem_of_In in Hc. apply in_rev. exact Hc.
Qed.

(** White space around a text does not change what [TrimSpace] gives. *)
Lemma TrimSpace_pad (a s b : gostring) :
  Forall (fun c => asciiSpace c = true) a ->
  Forall (fun c => asciiSpace c = true) b ->
  Strings.TrimSpace (a ++ s ++ b) = Strings.TrimSpace s.
Proof.
  intros Ha Hb. unfold Strings.TrimSpace.
  destruct (runes_pad_l a (s ++ b) Ha) as [-> HA].
  rewrite (runes_pad_r s b Hb).
  destruct (runes_pad_l b [] Hb) as [_ HB].
  rewrite (dropSpaces_app_spaces _ _ HA).
  set (B := map asciiChunk b) in *.
  destruct (dropSpaces_suffix (runes s)) as (sp & Hr & Hsp).
  rewrite Hr at 1. rewrite <- app_assoc, (dropSpaces_app_spaces _ _ Hsp).
  pose proof (dropSpaces_head (runes s)) as Hh.
  destruct (Strings.dropSpaces (runes s)) as [|c D] eqn:HD.
  - cbn [app]. rewrite <- (app_nil_r B), (dropSpaces_app_spaces _ _ HB). reflexivity.
  - cbn [app Strings.dropSpaces]. rewrite Hh.
    change (c :: D ++ B) with ((c :: D) ++ B).
    rewrite rev_app_distr.
    rewrite (dropSpaces_app_spaces _ _ (Forall_rev_spaces B HB)). reflexivity.
Qed.

(** X13. White space around the output of a backend is of no account: an
    answer with tabs, spaces or line breaks before and after it is handled
    exactly as the answer itself, whatever the error, the backend and the
    state. *)
Theorem handleResponse_ignores_padding (w : world) (m : model T)
    (before output after : gostring) (err : option gostring) (cli : gostring) :
  Forall (fun c => asciiSpace c = true) before ->
  Forall (fun c => asciiSpace c = true) after ->
  handleResponse m (before ++ output ++ after) err cli
  = handleResponse m output err cli
  /\ Update w m (ResponseMsg (before ++ output ++ after) err cli)
     = Update w m (ResponseMsg output err cli).
Proof.
  intros Ha Hb.
  assert (Hh : handleResponse m (before ++ output ++ after) err cli
               = handleResponse m output err cli).
  { unfold handleResponse. rewrite (TrimSpace_pad before output after Ha Hb).
    reflexivity. }
  split; [exact Hh|]. cbn [Update]. rewrite Hh. reflexivity.
Qed.

End PaddingFacts.

(** * The view *)

Section ViewFacts.
Context {decoder : Decoder} {T : Type} {textarea : TextArea T}.
Context {styles : Styles} {env : Env} {kit : ViewKit T}.

Lemma splitLoop_nonempty (skip : nat) (cur s sep : gostring) :
  Strings.splitLoop skip cur s sep <> [].
Proof.
  revert skip cur. induction s as [|c s IH]; intros skip cur; cbn [Strings.splitLoop].
  - discriminate.
  - destruct skip; [|apply IH]. destruct (Strings.HasPrefix _ _); [discriminate|apply IH].
Qed.

Lemma Split_newline_nonempty (s : gostring) : Strings.Split s newline <> [].
Proof. apply splitLoop_nonempty. Qed.

Lemma countLoop_nonneg (skip : nat) (s substr : gostring) :
  (0 <= Strings.countLoop skip s substr)%Z.
Proof.
  revert skip. induction s as [|c s IH]; intros skip; cbn [Strings.countLoop]; [lia|].
  destruct skip; [|apply IH]. destruct (Strings.HasPrefix _ _).
  - specialize (IH (length substr - 1)). lia.
  - apply IH.
Qed.

Lemma Count_newline_nonneg (s : gostring) : (0 <= Strings.Count s newline)%Z.
Proof. apply countLoop_nonneg. Qed.

Lemma scrollLines_Some (n : Z) : (1 <= n)%Z -> exists l, scrollLines n = Some l.
Proof.
  intros Hn. unfold scrollLines.
  replace (n <? 0)%Z with false by lia. replace (n =? 0)%Z with false by lia.
  destruct (n =? 1)%Z; eauto.
Qed.

Lemma scrollLines_None (n : Z) : (n <= 0)%Z -> scrollLines n = None.
Proof.
  intros Hn. unfold scrollLines. destruct (n <? 0)%Z eqn:H0; [reflexivity|].
  replace (n =? 0)%Z with true by lia. reflexivity.
Qed.

(** The input box is drawn unless the text area reports a height of -2 or
    less. *)
Lemma viewInput_panics (m : model T) :
  viewInput m = None <-> (taHeight (input m) <= -2)%Z.
Proof.
  unfold viewInput. cbv zeta.
  pose proof (Count_newline_nonneg (taValue (input m))) as Hc.
  pose proof (Split_newline_nonempty (inputBoxStyle (taView (input m)))) as Hs.
  destruct (Strings.Split _ newline) as [|l0 ls] eqn:Hsplit; [congruence|].
  cbn [emojiColumn].
  destruct (taHeight (input m) <? Strings.Count (taValue (input m)) newline + 1)%Z
    eqn:Hh.
  - destruct (Z_le_gt_dec (taHeight (input m)) (-2)) as [Hle|Hgt].
    + rewrite scrollLines_None by lia. cbn. split; auto.
    + assert (Hn : (1 <= taHeight (input m) + 2)%Z) by lia.
      destruct (scrollLines_Some _ Hn) as [l ->].
      cbn. split; [discriminate|lia].
  - cbn. split; [discriminate|lia].
Qed.

Lemma viewRunning_Some (m : model T) :
  cliValid m -> (0 <= spinnerFrame m)%Z -> exists out, viewRunning m = Some out.
Proof.
  intros Hv Hf. unfold viewRunning.
  assert (Hi : (0 <= Z.rem (spinnerFrame m) (Strings.len spinnerFrames)
                < Strings.len spinnerFrames)%Z).
  { change (Strings.len spinnerFrames) with 10%Z. apply Z.rem_bound_pos; lia. }
  destruct (index_Some spinnerFrames _ Hi) as (spinner & -> & _).
  destruct (currentCLI_valid m Hv) as [cli ->]. cbn. eauto.
Qed.

(** X14. When drawing can fail. In a state of a run [View] panics in one
    situation only: the window size is known, the model is in the composing
    mode and the text area reports a height of -2 or less (the scroll
    indicator is then made with a length that is negative or zero). With a
    text area that is at least one line high, as the bubbles text area
    always is, every state of a run can be drawn: the spinner frame and the
    active backend are positions of their lists. *)
Theorem View_panics_only_without_height (m : model T) :
  reachable m ->
  (View m = None
   <-> ready m = true /\ mode m = modeInput /\ (taHeight (input m) <= -2)%Z)
  /\ ((1 <= taHeight (input m))%Z -> exists out, View m = Some out).
Proof.
  intros Hr.
  destruct (reachable_inv m Hr) as [Hv _].
  destruct (reachable_sessionInv m Hr) as (Hrun & _ & _ & _ & Hf).
  assert (Hmain : View m = None
            <-> ready m = true /\ mode m = modeInput /\ (taHeight (input m) <= -2)%Z).
  { unfold View. destruct (ready m); cbn [negb];
      [|split; [discriminate|intros [Hn _]; discriminate]].
    destruct (running m) eqn:Hrn.
    - destruct (viewRunning_Some m Hv ltac:(lia)) as [out ->]. cbn.
      split; [discriminate|]. intros (_ & Hm & _).
      assert (mode m = modeRunning) by (apply Hrun; reflexivity). congruence.
    - destruct (mode m) eqn:Hm.
      + pose proof (viewInput_panics m) as Hp.
        destruct (viewInput m) as [out|]; cbn.
        * split; [discriminate|]. intros (_ & _ & Hh).
          apply Hp in Hh. discriminate.
        * split; [|reflexivity]. intros _. split_and!; auto. apply Hp. reflexivity.
      + assert (Hft : false = true) by (apply Hrun; reflexivity). discriminate.
      + cbn. split; [discriminate|]. intros (_ & Hn & _). discriminate. }
  split; [exact Hmain|].
  intros Hh. destruct (View m) as [out|]; [eauto|].
  destruct Hmain as [Hnone _]. destruct (Hnone eq_refl) as (_ & _ & Hn). lia.
Qed.

Lemma View_rawOutput (m : model T) (r : gostring) :
  lastParseError m = None -> View (set_rawOutput r m) = View m.
Proof.
  intros Hn. unfold View, viewRunning, viewReview, viewInput, currentCLI,
    renderOptionsTable. model_simpl. rewrite Hn. reflexivity.
Qed.

(** X15. What the view shows of the raw output. The raw output is drawn
    only under a parse error: without one, the view is the same whatever
    the raw output is. In particular the view after a failed backend run
    shows the tabs, the last prompt, the warning that no options were
    returned and the status naming the backend, and nothing of the error
    text or of the output of the backend. *)
Theorem View_hides_failed_run (m : model T) (output e cli : gostring) :
  ready m = true ->
  (forall (m0 : model T) r, lastParseError m0 = None ->
                            View (set_rawOutput r m0) = View m0)
  /\ View (fst (handleResponse m output (Some e) cli))
     = Some (JoinHorizontal (renderTabs 0 (cliIndex m) (cliOptions m)) ++ newline
             ++ ((if streq (Strings.TrimSpace (lastPrompt m)) [] then []
                  else promptStyle (str "❯ " ++ lastPrompt m) ++ newline)
                 ++ warnStyle (str "⚠ No options returned") ++ newline)
             ++ statusStyle (str "💡 " ++ str "error from " ++ cli ++ bullet
                             ++ helpViewing)).
Proof.
  intros Hr. split; [intros m0 r; apply View_rawOutput|].
  rewrite handleResponse_error. cbn [fst].
  unfold View, viewReview. model_simpl. rewrite Hr. reflexivity.
Qed.

End ViewFacts.

(** * More properties of the parser and the text functions *)

Section RankingFacts.

Lemma before_irrefl (x : optionEntry) : before x x = false.
Proof. unfold before. lia. Qed.

(** On a ranked list the insertion never moves an element. *)
Lemma insertAll_ranked (l rp : list optionEntry) :
  ranked (rev rp ++ l) -> insertAll l rp = rev l ++ rp.
Proof.
  revert rp. induction l as [|x l IH]; intros rp Hr; [reflexivity|].
  unfold insertAll in *. cbn [fold_left rev].
  assert (Hs : sink x rp = x :: rp).
  { destruct rp as [|y rp]; [reflexivity|]. cbn [sink].
    replace (before x y) with false; [reflexivity|]. symmetry.
    apply (StronglySorted_app_1_elem_of inOrder _ _ y x Hr).
    - cbn [rev]. apply elem_of_app. right. left.
    - left. }
  rewrite Hs, IH.
  - rewrite <- app_assoc. reflexivity.
  - cbn [rev]. rewrite <- app_assoc. exact Hr.
Qed.

Lemma stableSort_ranked_id (l : list optionEntry) : ranked l -> stableSort l = l.
Proof.
  intros Hr. unfold stableSort. rewrite insertAll_ranked by exact Hr.
  rewrite app_nil_r. apply rev_involutive.
Qed.

Lemma filter_head {A} (P : A -> Prop) `{!forall x, Decision (P x)}
    (l : list A) (x : A) (F : list A) :
  filter P l = x :: F ->
  exists l1 l2, l = l1 ++ x :: l2 /\ Forall (fun y => ~ P y) l1.
Proof.
  induction l as [|y l IH]; [discriminate|].
  rewrite filter_cons. destruct (decide (P y)) as [Hy|Hy].
  - intros [= -> _]. exists [], l. split; [reflexivity|constructor].
  - intros Hfl. destruct (IH Hfl) as (l1 & l2 & -> & Hl1).
    exists (y :: l1), l2. split; [reflexivity|]. constructor; assumption.
Qed.

(** X16. Ranking a list that is already in ranking order changes nothing,
    so ranking twice is ranking once. The option the ranking puts first is
    the earliest of the best: in the decoded list every option ahead of it
    is ranked strictly worse, and no option behind it is ranked better. *)
Theorem sortOptions_keeps_ranked_and_picks_first_best :
  (forall opts, ranked opts -> sortOptions opts = opts)
  /\ (forall opts, sortOptions (sortOptions opts) = sortOptions opts)
  /\ (forall opts first rest,
        sortOptions opts = first :: rest ->
        exists ahead behind,
          opts = ahead ++ first :: behind
          /\ Forall (fun o => before first o = true) ahead
          /\ Forall (fun o => before o first = false) behind).
Proof.
  split_and!.
  - intros opts Hr. rewrite sortOptions_stableSort. apply stableSort_ranked_id, Hr.
  - intros opts. rewrite !sortOptions_stableSort.
    apply stableSort_ranked_id, stableSort_ranked.
  - intros opts first rest Hs. rewrite sortOptions_stableSort in Hs.
    pose proof (stableSort_ranked opts) as Hr. rewrite Hs in Hr.
    pose proof (stableSort_perm opts) as Hp. rewrite Hs in Hp.
    pose proof (stableSort_stable first opts) as Hf. rewrite Hs in Hf.
    assert (Hmin : forall o, o ∈ opts -> before o first = false).
    { intros o Ho. rewrite <- Hp in Ho. apply elem_of_cons in Ho as [->|Ho].
      - apply before_irrefl.
      - unfold ranked in Hr. apply StronglySorted_cons in Hr as [Hall _].
        rewrite Forall_forall in Hall. apply Hall, Ho. }
    rewrite filter_cons in Hf.
    destruct (decide (sameRank first first = true)) as [_|Hn].
    2:{ contradiction Hn. unfold sameRank. rewrite before_irrefl. reflexivity. }
    symmetry in Hf. apply filter_head in Hf as (ahead & behind & -> & Hah).
    exists ahead, behind. split; [reflexivity|]. split.
    + rewrite Forall_forall in Hah |- *. intros o Ho.
      specialize (Hah o Ho).
      assert (Hb : before o first = false).
      { apply Hmin. apply elem_of_app. left. exact Ho. }
      unfold sameRank in Hah. rewrite Hb in Hah.
      destruct (before first o); [reflexivity|]. contradiction Hah. reflexivity.
    + rewrite Forall_forall. intros o Ho. apply Hmin.
      apply elem_of_app. right. apply elem_of_cons. right. exact Ho.
Qed.

End RankingFacts.

Section UniqueFacts.

Lemma sameRank_refl (x : optionEntry) : sameRank x x = true.
Proof. unfold sameRank, before. lia. Qed.

Lemma ranked_cons_inv (x : optionEntry) (l : list optionEntry) :
  ranked (x :: l) -> ranked l /\ forall y, y ∈ l -> before y x = false.
Proof.
  unfold ranked. intros H. apply StronglySorted_cons in H as [Hall Hs].
  split; [exact Hs|]. rewrite Forall_forall in Hall. exact Hall.
Qed.

Lemma filter_sameRank_elem (e x : optionEntry) (l : list optionEntry) :
  x ∈ filter (fun y => sameRank e y = true) l <-> sameRank e x = true /\ x ∈ l.
Proof. rewrite list_elem_of_filter. reflexivity. Qed.

(** Two rankings of the same options that both keep the order of the
    options of equal rank are the same list. *)
Lemma ranked_stable_unique (l1 l2 : list optionEntry) :
  ranked l1 -> ranked l2 ->
  (forall e, filter (fun y => sameRank e y = true) l1
             = filter (fun y => sameRank e y = true) l2) ->
  l1 = l2.
Proof.
  revert l2. induction l1 as [|x l1 IH]; intros l2 H1 H2 Hf.
  - destruct l2 as [|y l2]; [reflexivity|].
    specialize (Hf y). rewrite filter_nil, filter_cons in Hf.
    destruct (decide (sameRank y y = true)) as [_|Hn]; [discriminate|].
    contradiction Hn. apply sameRank_refl.
  - destruct l2 as [|y l2].
    { specialize (Hf x). rewrite filter_nil, filter_cons in Hf.
      destruct (decide (sameRank x x = true)) as [_|Hn]; [discriminate|].
      contradiction Hn. apply sameRank_refl. }
    destruct (ranked_cons_inv x l1 H1) as [H1' Hx].
    destruct (ranked_cons_inv y l2 H2) as [H2' Hy].
    assert (Hxy : sameRank x y = true).
    { assert (Hyin : y ∈ x :: l1).
      { pose proof (Hf y) as Hfy.
        assert (Hin : y ∈ filter (fun z => sameRank y z = true) (y :: l2)).
        { apply filter_sameRank_elem. split; [apply sameRank_refl|left]. }
        rewrite <- Hfy in Hin. apply filter_sameRank_elem in Hin as [_ Hin]. exact Hin. }
      assert (Hxin : x ∈ y :: l2).
      { pose proof (Hf x) as Hfx.
        assert (Hin : x ∈ filter (fun z => sameRank x z = true) (x :: l1)).
        { apply filter_sameRank_elem. split; [apply sameRank_refl|left]. }
        rewrite Hfx in Hin. apply filter_sameRank_elem in Hin as [_ Hin]. exact Hin. }
      assert (Hb1 : before y x = false).
      { apply elem_of_cons in Hyin as [->|Hyin]; [|apply Hx, Hyin].
        unfold before. lia. }
      assert (Hb2 : before x y = false).
      { apply elem_of_cons in Hxin as [->|Hxin]; [|apply Hy, Hxin].
        unfold before. lia. }
      unfold sameRank. rewrite Hb1, Hb2. reflexivity. }
    assert (Heq : x = y).
    { pose proof (Hf x) as Hfx. rewrite !filter_cons in Hfx.
      destruct (decide (sameRank x x = true)) as [_|Hn];
        [|contradiction Hn; apply sameRank_refl].
      destruct (decide (sameRank x y = true)) as [_|Hn]; [|contradiction].
      congruence. }
    subst y. f_equal. apply IH; [exact H1'|exact H2'|].
    intros e. specialize (Hf e). rewrite !filter_cons in Hf.
    destruct (decide (sameRank e x = true)); congruence.
Qed.

(** X17. The ranking is determined by its two properties: a list in
    ranking order in which the options of equal rank (the same positive
    rank, or both without one) stand in the order they have in the decoded
    list is the list [parseOptions] returns for it. *)
Theorem sortOptions_is_the_stable_ranking (opts sorted : list optionEntry) :
  ranked sorted ->
  (forall e, filter (fun y => sameRank e y = true) sorted
             = filter (fun y => sameRank e y = true) opts) ->
  sorted = sortOptions opts.
Proof.
  intros Hr Hf. rewrite sortOptions_stableSort.
  apply ranked_stable_unique; [exact Hr|apply stableSort_ranked|].
  intros e. rewrite stableSort_stable. apply Hf.
Qed.

End UniqueFacts.

Section ShapeFacts.
Import Utf8.

Lemma Solid_word (f : gostring) : Solid f -> word f.
Proof.
  intros [Hne Hall]. split; [exact Hne|]. intros b Hin.
  destruct (asciiSpace b) eqn:Hb; [|reflexivity].
  unfold asciiSpace in Hb. apply andb_true_iff in Hb as [Hsp Hlt].
  apply ascii_chunk in Hin; [|lia].
  rewrite Forall_forall in Hall. apply Hall in Hin.
  unfold spaceChunk in Hin. cbn [fst] in Hin. congruence.
Qed.

Lemma asciiSpace_spaceByte : asciiSpace spaceByte = true.
Proof. reflexivity. Qed.

Lemma Join_words (fs : list gostring) :
  Forall word fs ->
  (forall b, b ∈ Strings.Join fs (str " ") -> asciiSpace b = true -> b = spaceByte)
  /\ (fs <> [] -> exists c rest, Strings.Join fs (str " ") = c :: rest /\ c <> spaceByte)
  /\ last (Strings.Join fs (str " ")) <> Some spaceByte
  /\ (forall i, Strings.Join fs (str " ") !! i = Some spaceByte ->
                Strings.Join fs (str " ") !! S i <> Some spaceByte).
Proof.
  induction 1 as [|f fs [Hne Hf] Hfs IH].
  { cbn. split_and!; try easy. }
  assert (Hns : forall b, b ∈ f -> b <> spaceByte).
  { intros b Hb ->. apply Hf in Hb. discriminate Hb. }
  destruct fs as [|g fs].
  - cbn [Strings.Join]. split_and!.
    + intros b Hb Hs. apply Hf in Hb. congruence.
    + intros _. destruct f as [|c rest]; [congruence|].
      exists c, rest. split; [reflexivity|]. apply Hns. left.
    + intros Hl. apply last_Some_elem_of in Hl. exact (Hns _ Hl eq_refl).
    + intros i Hi. apply list_elem_of_lookup_2 in Hi. destruct (Hns _ Hi eq_refl).
  - change (Strings.Join (f :: g :: fs) (str " "))
      with (f ++ spaceByte :: Strings.Join (g :: fs) (str " ")).
    destruct IH as (IHa & IHh & IHl & IHd).
    destruct (IHh ltac:(discriminate)) as (c & rest & HJ & Hc).
    split_and!.
    + intros b Hb Hs. apply elem_of_app in Hb as [Hb|Hb].
      * apply Hf in Hb. congruence.
      * apply elem_of_cons in Hb as [->|Hb]; [reflexivity|]. apply IHa; assumption.
    + intros _. destruct f as [|c0 rest0]; [congruence|].
      exists c0, (rest0 ++ spaceByte :: Strings.Join (g :: fs) (str " ")).
      split; [reflexivity|]. apply Hns. left.
    + rewrite HJ in IHl |- *.
      rewrite last_app, last_cons. cbn [last] in *.
      destruct (last (c :: rest)) eqn:Hl; [exact IHl|].
      rewrite last_cons in Hl. destruct (last rest); discriminate.
    + intros i Hi.
      destruct (Nat.lt_trichotomy i (length f)) as [Hlt|[->|Hgt]].
      * rewrite (lookup_app_l f) in Hi by exact Hlt.
        apply list_elem_of_lookup_2 in Hi. destruct (Hns _ Hi eq_refl).
      * rewrite (lookup_app_r f) by lia.
        replace (S (length f) - length f) with 1 by lia. cbn [lookup list_lookup].
        rewrite HJ. cbn. congruence.
      * rewrite (lookup_app_r f) in Hi |- * by lia.
        destruct (i - length f) as [|k] eqn:Hk; [lia|].
        replace (S i - length f) with (S (S k)) by lia.
        cbn [lookup list_lookup] in Hi |- *. apply IHd, Hi.
Qed.

(** X18. The shape of cleaned text: words joined by single spaces, where a
    word is a non-empty run of runes none of which is white space. So the
    result holds no tab, newline or other ASCII white space except single
    spaces between words: it neither starts nor ends with a space and has
    no two spaces in a row. *)
Theorem cleanText_shape (s : gostring) :
  (exists fields, cleanText s = Strings.Join fields (str " ") /\ Forall Solid fields)
  /\ (forall b, b ∈ cleanText s -> asciiSpace b = true -> b = spaceByte)
  /\ head (cleanText s) <> Some spaceByte
  /\ last (cleanText s) <> Some spaceByte
  /\ (forall i, cleanText s !! i = Some spaceByte ->
                cleanText s !! S i <> Some spaceByte).
Proof.
  set (fields := Strings.Fields
                   (Strings.ReplaceAll (Strings.TrimSpace s) newline (str " "))).
  assert (Hc : cleanText s = Strings.Join fields (str " ")) by reflexivity.
  assert (Hsolid : Forall Solid fields) by apply Fields_solid.
  assert (Hw : Forall word fields).
  { eapply Forall_impl; [exact Hsolid|]. apply Solid_word. }
  destruct (Join_words fields Hw) as (Ha & Hh & Hl & Hd).
  rewrite Hc. split_and!; auto.
  - eauto.
  - destruct fields as [|f fs]; [discriminate|].
    destruct (Hh ltac:(discriminate)) as (c & rest & -> & Hne).
    cbn. congruence.
Qed.

End ShapeFacts.

Section FieldsFacts.
Import Utf8.

Lemma ReplaceAll_newline (s : gostring) :
  Strings.ReplaceAll s newline (str " ") = map unbreak s.
Proof.
  unfold Strings.ReplaceAll, newline. fold newlineByte.
  induction s as [|c s IH]; [reflexivity|].
  cbn [Strings.replaceLoop Strings.HasPrefix map length]. unfold unbreak at 1.
  destruct (Ascii.eqb c newlineByte); cbn [andb Nat.sub app]; rewrite IH; reflexivity.
Qed.

Lemma unbreak_cases (b : ascii) :
  (b = newlineByte /\ unbreak b = spaceByte) \/ (b <> newlineByte /\ unbreak b = b).
Proof.
  unfold unbreak. destruct (Ascii.eqb_spec b newlineByte); auto.
Qed.

Lemma DecodeRune_unbreak (s : gostring) :
  DecodeRune (map unbreak s)
  = match s with
    | b :: _ => if Ascii.eqb b newlineByte then (32%N, 1) else DecodeRune s
    | [] => DecodeRune s
    end.
Proof.
  destruct s as [|s0 t]; [reflexivity|].
  destruct (Ascii.eqb_spec s0 newlineByte) as [->|H0]; [reflexivity|].
  assert (E0 : unbreak s0 = s0).
  { destruct (unbreak_cases s0) as [[? _]|[_ ?]]; [contradiction|assumption]. }
  cbn [map]. rewrite E0. unfold DecodeRune. cbn [length]. rewrite length_map.
  destruct (code s0 <? RuneSelf)%N; [reflexivity|].
  destruct (seqLen (code s0) =? 1); [reflexivity|].
  destruct (S (length t) <? seqLen (code s0)); [reflexivity|].
  destruct t as [|s1 t1]; [reflexivity|]. cbn [map].
  destruct (unbreak_cases s1) as [[-> E1]|[H1 E1]]; rewrite E1.
  { replace ((code spaceByte <? acceptLo (code s0))
             || (acceptHi (code s0) <? code spaceByte))%N with true.
    - replace ((code newlineByte <? acceptLo (code s0))
               || (acceptHi (code s0) <? code newlineByte))%N with true; [reflexivity|].
      symmetry. apply notCont_rejected. reflexivity.
    - symmetry. apply notCont_rejected. reflexivity. }
  destruct ((code s1 <? acceptLo (code s0)) || (acceptHi (code s0) <? code s1))%N;
    [reflexivity|].
  destruct (seqLen (code s0) <=? 2); [reflexivity|].
  destruct t1 as [|s2 t2]; [reflexivity|]. cbn [map].
  destruct (unbreak_cases s2) as [[-> E2]|[H2 E2]]; rewrite E2; [reflexivity|].
  destruct (negb (isCont s2)); [reflexivity|].
  destruct (seqLen (code s0) <=? 3); [reflexivity|].
  destruct t2 as [|s3 t3]; [reflexivity|]. cbn [map].
  destruct (unbreak_cases s3) as [[-> E3]|[H3 E3]]; rewrite E3; reflexivity.
Qed.

Lemma DecodeRune_newline (s : gostring) : DecodeRune (newlineByte :: s) = (10%N, 1).
Proof. reflexivity. Qed.

Lemma take_map {A B} (f : A -> B) (n : nat) (l : list A) :
  take n (map f l) = map f (take n l).
Proof. revert n. induction l as [|x l IH]; intros [|n]; cbn; congruence. Qed.

Lemma drop_map {A B} (f : A -> B) (n : nat) (l : list A) :
  drop n (map f l) = map f (drop n l).
Proof. revert n. induction l as [|x l IH]; intros [|n]; cbn; congruence. Qed.

Lemma map_unbreak_id (l : gostring) : newlineByte ∉ l -> map unbreak l = l.
Proof.
  induction l as [|b l IH]; [reflexivity|]. intros Hn.
  apply not_elem_of_cons in Hn as [Hb Hl]. cbn [map]. rewrite (IH Hl).
  destruct (unbreak_cases b) as [[-> _]|[_ ->]]; [congruence|reflexivity].
Qed.

Lemma runes_unbreak (s : gostring) :
  runes (map unbreak s) = map unbreakChunk (runes s).
Proof.
  induction s as [|s Hs IH] using runes_ind; [reflexivity|].
  assert (Hm : map unbreak s <> []) by (destruct s; [congruence|discriminate]).
  rewrite (runes_step _ Hm), (runes_step s Hs). cbn [map].
  rewrite DecodeRune_unbreak.
  destruct s as [|b t]; [congruence|].
  destruct (Ascii.eqb_spec b newlineByte) as [->|Hb].
  - rewrite DecodeRune_newline in *. cbn [fst snd take drop map] in *.
    rewrite ?drop_0, ?take_0 in *. rewrite IH. reflexivity.
  - pose proof (DecodeRune_size (b :: t) Hs) as Hn.
    rewrite take_map, drop_map, IH. f_equal.
    unfold unbreakChunk. cbn [snd fst].
    destruct (snd (DecodeRune (b :: t))) as [|[|n]] eqn:Hd; [lia| |].
    + cbn [take map]. rewrite take_0. cbn [map]. unfold unbreak.
      destruct (Ascii.eqb_spec b newlineByte); [contradiction|reflexivity].
    + assert (Hnl : newlineByte ∉ take (S (S n)) (b :: t)).
      { intros Hin. rewrite <- Hd in Hin.
        destruct (DecodeRune_ascii (b :: t) newlineByte Hin) as [He _]; [reflexivity|].
        rewrite He in Hd. discriminate Hd. }
      rewrite (map_unbreak_id _ Hnl).
      destruct (take (S (S n)) (b :: t)) as [|b0 [|b1 l]] eqn:Ht; try reflexivity.
      apply (f_equal length) in Ht. rewrite length_take in Ht.
      cbn [length] in *. lia.
Qed.


Lemma runes_newline_chunk (s : gostring) :
  Forall (fun c => snd c = [newlineByte] -> spaceChunk c = true) (runes s).
Proof.
  induction s as [|s Hs IH] using runes_ind; [constructor|].
  rewrite (runes_step s Hs). constructor; [|exact IH].
  cbn [snd]. intros Ht. destruct s as [|b t]; [congruence|].
  pose proof (DecodeRune_size (b :: t) Hs) as Hn.
  destruct (snd (DecodeRune (b :: t))) as [|k] eqn:Hd; [lia|].
  cbn [take] in Ht. injection Ht as -> _.
  rewrite DecodeRune_newline. reflexivity.
Qed.

Lemma fieldsLoop_unbreak (cur : gostring) (cs : list chunk) :
  Forall (fun c => snd c = [newlineByte] -> spaceChunk c = true) cs ->
  Strings.fieldsLoop cur (map unbreakChunk cs) = Strings.fieldsLoop cur cs.
Proof.
  intros Hall. revert cur. induction Hall as [|c cs Hc _ IH]; intros cur; [reflexivity|].
  cbn [map Strings.fieldsLoop].
  assert (Hu : unbreakChunk c = c
               \/ (spaceChunk c = true /\ spaceChunk (unbreakChunk c) = true)).
  { unfold unbreakChunk. destruct c as [r [|b [|b' bs]]]; cbn [snd] in *; auto.
    destruct (Ascii.eqb_spec b newlineByte) as [->|Hb]; [|auto].
    right. split; [apply Hc; reflexivity|reflexivity]. }
  destruct Hu as [->|[H1 H2]].
  - rewrite !IH. reflexivity.
  - rewrite H1, H2, !IH. reflexivity.
Qed.

Lemma Fields_unbreak (s : gostring) :
  Strings.Fields (map unbreak s) = Strings.Fields s.
Proof.
  unfold Strings.Fields. rewrite runes_unbreak.
  apply fieldsLoop_unbreak, runes_newline_chunk.
Qed.

Lemma fieldsLoop_leading (sp cs : list chunk) :
  Forall (fun c => spaceChunk c = true) sp ->
  Strings.fieldsLoop [] (sp ++ cs) = Strings.fieldsLoop [] cs.
Proof.
  induction 1 as [|c sp Hc _ IH]; [reflexivity|].
  cbn [app Strings.fieldsLoop]. rewrite Hc. exact IH.
Qed.

Lemma fieldsLoop_spaces (cur : gostring) (sp : list chunk) :
  Forall (fun c => spaceChunk c = true) sp ->
  Strings.fieldsLoop cur sp = Strings.fieldsLoop cur [].
Proof.
  intros Hsp. revert cur. induction Hsp as [|c sp Hc _ IH]; intros cur; [reflexivity|].
  cbn [Strings.fieldsLoop]. rewrite Hc. destruct cur; rewrite IH; reflexivity.
Qed.

Lemma fieldsLoop_trailing (cur : gostring) (cs sp : list chunk) :
  Forall (fun c => spaceChunk c = true) sp ->
  Strings.fieldsLoop cur (cs ++ sp) = Strings.fieldsLoop cur cs.
Proof.
  intros Hsp. revert cur. induction cs as [|c cs IH]; intros cur.
  - apply fieldsLoop_spaces, Hsp.
  - cbn [app Strings.fieldsLoop]. destruct (spaceChunk c); [destruct cur|];
      rewrite IH; reflexivity.
Qed.

(** The runes of a text: white space, the runes of the trimmed text, white
    space. *)
Lemma runes_TrimSpace (s : gostring) :
  exists lead trail,
    runes s = lead ++ runes (Strings.TrimSpace s) ++ trail
    /\ Forall (fun c => spaceChunk c = true) lead
    /\ Forall (fun c => spaceChunk c = true) trail.
Proof.
  unfold Strings.TrimSpace.
  destruct (dropSpaces_suffix (runes s)) as (lead & H1 & Hlead).
  destruct (dropSpaces_suffix (rev (Strings.dropSpaces (runes s))))
    as (sp & H2 & Hsp).
  set (mid := rev (Strings.dropSpaces (rev (Strings.dropSpaces (runes s))))).
  assert (Hd : Strings.dropSpaces (runes s) = mid ++ rev sp).
  { rewrite <- (rev_involutive (Strings.dropSpaces (runes s))).
    rewrite H2 at 1. rewrite rev_app_distr. reflexivity. }
  assert (Htrail : Forall (fun c => spaceChunk c = true) (rev sp))
    by apply Forall_rev_spaces, Hsp.
  assert (Hdec : Decoded mid).
  { pose proof (Decoded_runes s) as Hs. rewrite H1, Hd in Hs.
    apply Decoded_app_r in Hs. apply (Decoded_app_l mid (rev sp) Hs).
    destruct Htrail as [|c l Hc _]; [exact I|exact Hc]. }
  exists lead, (rev sp). split_and!; [|exact Hlead|exact Htrail].
  unfold Decoded in Hdec. rewrite Hdec, <- Hd. exact H1.
Qed.

Lemma Fields_TrimSpace (s : gostring) :
  Strings.Fields (Strings.TrimSpace s) = Strings.Fields s.
Proof.
  destruct (runes_TrimSpace s) as (lead & trail & Hr & Hl & Ht).
  unfold Strings.Fields. rewrite Hr.
  rewrite (fieldsLoop_leading _ _ Hl), (fieldsLoop_trailing _ _ _ Ht). reflexivity.
Qed.

(** X19. [cleanText] is the fields of the text joined by single spaces: the
    trimming and the replacement of newlines it starts with change nothing
    of the result, since the fields are split at every white space rune,
    the newline included. So cleaning touches white space only: every rune
    that is not white space is kept, in its place, and the fields of the
    cleaned text are the fields of the text. *)
Theorem cleanText_is_fields_joined (s : gostring) :
  cleanText s = Strings.Join (Strings.Fields s) (str " ")
  /\ Strings.Fields (cleanText s) = Strings.Fields s.
Proof.
  assert (Hc : cleanText s = Strings.Join (Strings.Fields s) (str " ")).
  { unfold cleanText. rewrite ReplaceAll_newline, Fields_unbreak, Fields_TrimSpace.
    reflexivity. }
  split; [exact Hc|]. rewrite Hc, Fields_Join by apply Fields_solid. reflexivity.
Qed.

End FieldsFacts.

Section PrefixFacts.
Context {decoder : Decoder}.

Lemma candidates_app (noise raw : gostring) :
  exists early, candidates (noise ++ raw) = early ++ candidates raw.
Proof.
  induction noise as [|c noise [early IH]].
  - exists []. reflexivity.
  - cbn [app candidates]. rewrite IH.
    destruct (Strings.HasPrefix _ _).
    + exists ((c :: noise ++ raw) :: early). reflexivity.
    + exists early. reflexivity.
Qed.

Lemma candidates_app_plain (noise raw : gostring) :
  "{"%char ∉ noise -> candidates (noise ++ raw) = candidates raw.
Proof.
  induction noise as [|c noise IH]; [reflexivity|].
  intros Hn. apply not_elem_of_cons in Hn as [Hc Hn].
  cbn [app candidates]. rewrite (IH Hn).
  replace (Strings.HasPrefix (c :: noise ++ raw) optionsMarker) with false;
    [reflexivity|].
  symmetry. cbn. destruct (Ascii.eqb c "{") eqn:He; [|reflexivity].
  apply Ascii.eqb_eq in He. congruence.
Qed.

Lemma lastGood_app_Some (early late : list gostring) (opts : list optionEntry) :
  lastGood late = Some opts -> lastGood (early ++ late) = Some opts.
Proof.
  unfold lastGood. intros Hl. rewrite omap_app, last_app, Hl. reflexivity.
Qed.

(** X20. Text in front of an answer never spoils it: when a text parses
    into options, the same text with anything put before it parses into the
    same options. And text without an opening brace put before any text
    does not change the result at all, be it options or the parse error. *)
Theorem parseOptions_ignores_what_comes_before :
  (forall noise raw opts,
      parseOptions raw = (opts, None) ->
      parseOptions (noise ++ raw) = (opts, None))
  /\ (forall noise raw,
        "{"%char ∉ noise -> parseOptions (noise ++ raw) = parseOptions raw).
Proof.
  split.
  - intros noise raw opts Hp. rewrite parseOptions_lastGood in Hp |- *.
    destruct (lastGood (candidates raw)) as [o|] eqn:Hl; [|discriminate].
    destruct (candidates_app noise raw) as [early ->].
    rewrite (lastGood_app_Some early _ o Hl). exact Hp.
  - intros noise raw Hn. rewrite !parseOptions_lastGood.
    rewrite (candidates_app_plain noise raw Hn). reflexivity.
Qed.

Lemma app_tail {A} (a b c d t : list A) :
  a ++ b ++ c ++ d ++ t = (a ++ b ++ c ++ d) ++ t.
Proof. rewrite <- !app_assoc. reflexivity. Qed.

Lemma buildPrompt_tail (userPrompt : gostring) :
  exists front, buildPrompt userPrompt = front ++ promptTail.
Proof.
  unfold buildPrompt, promptTail. cbv zeta. eexists. apply app_tail.
Qed.

Lemma candidates_promptTail : candidates promptTail = [promptTail].
Proof. vm_compute. reflexivity. Qed.

(** X21. The prompt carries an example answer, and the parser reads it as
    one: for a decoder that decodes the example object of the prompt's
    trailer to the option it spells out, the prompt itself, built from any
    user text, parses into exactly that placeholder option. A backend that
    only echoes the prompt is therefore not reported as a parse error. *)
Theorem parseOptions_reads_the_prompt_example (userPrompt : gostring) :
  decodeResponse promptTail = Some [placeholderOption] ->
  parseOptions (buildPrompt userPrompt) = ([placeholderOption], None).
Proof.
  intros Hd. destruct (buildPrompt_tail userPrompt) as [front ->].
  rewrite parseOptions_lastGood.
  destruct (candidates_app front promptTail) as [early ->].
  rewrite candidates_promptTail.
  rewrite (lastGood_app_Some early [promptTail] [placeholderOption]);
    [reflexivity|].
  unfold lastGood. cbn [omap list_omap]. unfold goodDecode. rewrite Hd.
  reflexivity.
Qed.

End PrefixFacts.

(** * The lookup of the options schema *)

Section SchemaFacts.
Context {os : Os}.

Lemma readFirst_spec (paths : list gostring) :
  match readFirst paths with
  | (Some (p, data), calls) =>
    exists before after,
      paths = before ++ p :: after
      /\ Forall (fun q => ReadFile q = None) before
      /\ ReadFile p = Some data
      /\ calls = map CallReadFile (before ++ [p])
  | (None, calls) =>
    Forall (fun q => ReadFile q = None) paths /\ calls = map CallReadFile paths
  end.
Proof.
  induction paths as [|p paths IH]; cbn [readFirst].
  - split; [constructor|reflexivity].
  - destruct (ReadFile p) as [data|] eqn:Hp.
    + exists [], paths. split_and!; auto.
    + destruct (readFirst paths) as [[[q data]|] calls].
      * destruct IH as (before & after & -> & Hb & Hq & ->).
        exists (p :: before), after. split_and!; auto.
      * destruct IH as [Hall ->]. split; [constructor; assumption|reflexivity].
Qed.

(** X22. Where the options schema comes from. [schemaSources] tries the
    directory of the executable, then the working directory (each only when
    the system can name it), then the system path, in this order and
    nothing else. It returns the first of these files that can be read,
    with its content, having read only the files before it. Only when none
    can be read and a schema is compiled in does it create a temporary
    file, write the compiled-in schema to it and close it, and return the
    name of that file with the compiled-in schema; the file is closed also
    when the write fails. It reports an error only when none of the files
    can be read and either no schema is compiled in or the temporary file
    could not be created, written or closed. *)
Theorem schemaSources_lookup_order :
  (exists first,
      tryPaths = first ++ [systemSchemaPath]
      /\ first = match Executable with
                 | Some exe => [PathJoin (Dir exe) schemaFile]
                 | None => []
                 end
                 ++ match Getwd with
                    | Some cwd => [PathJoin cwd schemaFile]
                    | None => []
                    end)
  /\ match schemaSources with
     | (inl (p, data), calls) =>
       (exists before after,
           tryPaths = before ++ p :: after
           /\ Forall (fun q => ReadFile q = None) before
           /\ ReadFile p = Some data
           /\ calls = map CallReadFile (before ++ [p]))
       \/ (Forall (fun q => ReadFile q = None) tryPaths
           /\ embeddedSchema <> [] /\ data = embeddedSchema
           /\ CreateTemp = inl p
           /\ TempWrite embeddedSchema = None /\ TempClose = None
           /\ calls = map CallReadFile tryPaths
                      ++ [CallCreateTemp; CallWrite embeddedSchema; CallClose])
     | (inr e, calls) =>
       Forall (fun q => ReadFile q = None) tryPaths
       /\ ((embeddedSchema = [] /\ e = schemaNotFound
            /\ calls = map CallReadFile tryPaths)
           \/ (embeddedSchema <> []
               /\ ((exists e', CreateTemp = inr e'
                      /\ e = str "failed to create temp schema file: " ++ e'
                      /\ calls = map CallReadFile tryPaths ++ [CallCreateTemp])
                   \/ (exists tmpName e',
                         CreateTemp = inl tmpName
                         /\ ((TempWrite embeddedSchema = Some e'
                              /\ e = str "failed to write temp schema file: " ++ e')
                             \/ (TempWrite embeddedSchema = None
                                 /\ TempClose = Some e'
                                 /\ e = str "failed to close temp schema file: " ++ e'))
                         /\ calls = map CallReadFile tryPaths
                                    ++ [CallCreateTemp; CallWrite embeddedSchema;
                                        CallClose]))))
     end.
Proof.
  split.
  - eexists. split; [|reflexivity]. unfold tryPaths. rewrite app_assoc. reflexivity.
  - unfold schemaSources. pose proof (readFirst_spec tryPaths) as Hr.
    destruct (readFirst tryPaths) as [[[p data]|] reads].
    + left. exact Hr.
    + destruct Hr as [Hall ->].
      destruct (0 <? Strings.len embeddedSchema)%Z eqn:Hl.
      * assert (Hne : embeddedSchema <> []).
        { intros He. rewrite He in Hl. discriminate. }
        destruct CreateTemp as [tmpName|e'] eqn:Hc.
        -- destruct (TempWrite embeddedSchema) as [e'|] eqn:Hw.
           ++ split; [exact Hall|]. right. split; [exact Hne|]. right.
              exists tmpName, e'. split_and!; auto.
           ++ destruct TempClose as [e'|] eqn:Hcl.
              ** split; [exact Hall|]. right. split; [exact Hne|]. right.
                 exists tmpName, e'. split_and!; auto.
              ** right. split_and!; auto.
        -- split; [exact Hall|]. right. split; [exact Hne|]. left.
           exists e'. auto.
      * split; [exact Hall|]. left. split_and!; auto.
        destruct embeddedSchema; [reflexivity|].
        unfold Strings.len in Hl. cbn [length] in Hl. lia.
Qed.

End SchemaFacts.

(** * The properties on concrete inputs *)

Section Examples.
Import Ref.

(** C1 on a draft object followed by the final one and a third that is cut
    off: the final object's options are returned. *)
Lemma parseOptions_last_good_candidate_witness :
  parseOptions draftResponse
  = ([entry "ls -la" "list all files" 1; entry "ls" "list files" 2], None).
Proof.
  destruct (parseOptions_last_good_candidate draftResponse) as (_ & _ & _ & H).
  apply (H [drop 7 draftResponse] (drop 95 draftResponse) [drop 251 draftResponse]
           [entry "ls -la" "list all files" 1; entry "ls" "list files" 2]).
  - vm_compute. reflexivity.
  - vm_compute. reflexivity.
  - repeat constructor.
Defined.

(** C7 on candidates that all fail. *)
Lemma parseOptions_no_good_candidate_witness :
  parseOptions failingResponse = ([], Some parseError).
Proof.
  apply (parseOptions_no_good_candidate failingResponse).
  vm_compute candidates.
  repeat (apply Forall_cons_2; [vm_compute; auto|]). apply Forall_nil_2.
Defined.

(** C9 on JSON that the decoder reads but that lacks the marker. *)
Lemma parseOptions_needs_marker_witness :
  decodeResponse spacedResponse = Some [entry "ls" "list files" 1]
  /\ parseOptions spacedResponse = ([], Some parseError).
Proof.
  split; [vm_compute; reflexivity|].
  apply (proj2 (parseOptions_needs_marker spacedResponse)).
  apply indexOf_occursIn. vm_compute. reflexivity.
Defined.

(** C3 as stated fails on a backend error that comes with output: none of
    the three outcomes holds. *)
Lemma handleResponse_error_with_output :
  ~ showsOptions failedModel
  /\ ~ showsParseError failedModel
  /\ ~ showsErrorText (Some (str "exit status 1")) failedModel
  /\ rawOutput failedModel = str "permission denied".
Proof.
  unfold showsOptions, showsParseError, showsErrorText.
  split_and!;
    [vm_compute; auto|vm_compute; auto|vm_compute; discriminate|vm_compute; reflexivity].
Qed.

(** C4 as stated fails: in the running mode and in the reviewing mode the
    key that cycles the backend while composing leaves the active backend
    where it is, although there are four backends to cycle through. *)
Lemma running_ignores_backend_cycling :
  mode runningModel = modeRunning
  /\ Strings.len (cliOptions runningModel) = 4%Z
  /\ Update clearWorld runningModel (Key (key KeyCtrlN))
     = Some (runningModel, CmdNil, clearWorld)
  /\ cliIndex <$> nextCLI runningModel = Some 1%Z
  /\ mode reviewingModel = modeViewing
  /\ Update clearWorld reviewingModel (Key (key KeyCtrlN))
     = Some (reviewingModel, CmdNil, clearWorld).
Proof. split_and!; vm_compute; reflexivity. Qed.

(** C5 end to end: submitted with ctrl+r, the answer's first option is run. *)
Lemma auto_execute_runs_top_option_witness :
  autoExecute autoRunningModel = true
  /\ snd (handleResponse autoRunningModel lsResponse None (str "codex"))
     = CmdExec (str "ls -la") true.
Proof.
  split; [vm_compute; reflexivity|].
  destruct (auto_execute_runs_top_option autoRunningModel lsResponse (str "codex"))
    as (H & _).
  destruct (H (entry "ls -la" "list all files" 1) [entry "ls" "list files" 2])
    as (m' & -> & _); [vm_compute; reflexivity|vm_compute; reflexivity|reflexivity].
Defined.

Lemma reviewingModel_reachable : reachable reviewingModel.
Proof.
  apply (reach_step clearWorld runningModel
           (ResponseMsg lsResponse None (str "codex")) reviewingModel CmdNil clearWorld);
    [|vm_compute; reflexivity].
  apply (reach_step clearWorld typedModel (Key (key KeyEnter)) runningModel
           (CmdBatch (CmdRunPrompt (mkCLI (str "codex"))
                        (buildPrompt (str "list files in current directory")))
                     CmdTick) clearWorld);
    [|vm_compute; reflexivity].
  apply (reach_step clearWorld startModel
           (Key (typed "list files in current directory")) typedModel CmdNil clearWorld);
    [|vm_compute; reflexivity].
  apply (reach_init (str "codex")). vm_compute. reflexivity.
Qed.

(** C6 on the review of the two-option answer: the selection is in range,
    moving up from the first option wraps to the last. *)
Lemma selection_stays_in_range_witness :
  selectionValid reviewingModel
  /\ selectedValue reviewingModel = Some (str "ls -la")
  /\ selected (moveSelection (-1) reviewingModel) = 1%Z.
Proof.
  destruct (selection_stays_in_range (T := area)) as (H1 & _ & _ & _ & H5).
  pose proof (H1 reviewingModel reviewingModel_reachable) as Hv.
  split_and!; [exact Hv|vm_compute; reflexivity|].
  destruct (H5 reviewingModel (-1)%Z) as [-> _];
    [right; reflexivity|exact Hv|vm_compute; discriminate|vm_compute; reflexivity].
Defined.

(** C4 as amended, while composing: ctrl+n moves from the first backend to
    the second. *)
Lemma cycling_only_while_composing_witness :
  exists m', Update clearWorld typedModel (Key (key KeyCtrlN))
             = Some (m', CmdNil, clearWorld)
             /\ cliIndex m' = 1%Z.
Proof.
  destruct (cycling_only_while_composing (T := area)) as (_ & _ & H & _).
  destruct (H clearWorld typedModel (key KeyCtrlN)) as (m' & Hu & Hi & _);
    [vm_compute; reflexivity|vm_compute; split; [discriminate|reflexivity]
    |reflexivity|reflexivity|].
  exists m'. split; [exact Hu|rewrite Hi; vm_compute; reflexivity].
Defined.

(** C8 on a value with repeated blanks: the run executes the stored value,
    the status line shows the cleaned one. *)
Lemma cleanText_display_only_witness :
  handleViewingKeys clearWorld spacedModel (key KeyCtrlR)
  = Some (set_status (str "running: echo a b") spacedModel,
          CmdExec (str "echo  a   b") true, clearWorld).
Proof.
  destruct (cleanText_display_only (T := area)) as (_ & _ & H & _).
  rewrite (H clearWorld spacedModel (key KeyCtrlR) (str "echo  a   b"));
    [vm_compute; reflexivity|reflexivity|reflexivity|vm_compute; reflexivity
    |discriminate].
Defined.

(** C10 end to end: after a plain Enter, the answer with two options and
    the ticks around it run nothing. *)
Lemma plain_enter_never_executes_witness :
  Forall (fun c => runsShell c = false)
         (commands clearWorld runningModel
            [TickMsg; ResponseMsg lsResponse None (str "codex"); TickMsg]).
Proof.
  destruct (plain_enter_never_executes (T := area)) as (_ & H & _).
  edestruct (H clearWorld clearWorld typedModel runningModel (key KeyEnter))
    as (_ & _ & Hms);
    [vm_compute; reflexivity|split; reflexivity|vm_compute; reflexivity|].
  apply Hms. repeat constructor.
Defined.

(** The same answer after a submission with ctrl+r is run at once. *)
Example ctrl_r_runs_the_answer :
  commands clearWorld autoRunningModel [ResponseMsg lsResponse None (str "codex")]
  = [CmdExec (str "ls -la") true].
Proof. vm_compute. reflexivity. Qed.

(** The spec's end-to-end examples: the two-option answer is reviewed in
    its order with the first option selected; an answer without JSON is
    kept as raw output with the parse error set, and Enter copies it. *)
Example review_of_two_options :
  mode reviewingModel = modeViewing
  /\ options reviewingModel
     = [entry "ls -la" "list all files" 1; entry "ls" "list files" 2]
  /\ selected reviewingModel = 0%Z
  /\ selectedValue reviewingModel = Some (str "ls -la").
Proof. split_and!; vm_compute; reflexivity. Qed.

Example review_of_plain_text :
  let m := fst (handleResponse runningModel (str "I think you want: ls -la")
                  None (str "codex")) in
  mode m = modeViewing /\ options m = []
  /\ lastParseError m = Some parseError
  /\ rawOutput m = str "I think you want: ls -la"
  /\ (snd <$> handleViewingKeys clearWorld m (key KeyEnter))
     = Some (mkWorld (str "I think you want: ls -la") None).
Proof. split_and!; vm_compute; reflexivity. Qed.

End Examples.
(** * The further properties on concrete inputs *)

Section MoreExamples.
Import Ref RefView.

Lemma runningModel_reachable : reachable runningModel.
Proof.
  apply (reach_step clearWorld typedModel (Key (key KeyEnter)) runningModel
           (CmdBatch (CmdRunPrompt (mkCLI (str "codex"))
                        (buildPrompt (str "list files in current directory")))
                     CmdTick) clearWorld);
    [|vm_compute; reflexivity].
  apply (reach_step clearWorld startModel
           (Key (typed "list files in current directory")) typedModel CmdNil clearWorld);
    [|vm_compute; reflexivity].
  apply (reach_init (str "codex")). vm_compute. reflexivity.
Qed.

Lemma shownReview_reachable : reachable shownReview.
Proof.
  apply (reach_step clearWorld reviewingModel sized shownReview CmdNil clearWorld);
    [exact reviewingModel_reachable|vm_compute; reflexivity].
Qed.

(** X1 on the review of the two-option answer: a tick is handled. *)
Lemma update_never_panics_witness :
  exists m' c w', Update clearWorld reviewingModel TickMsg = Some (m', c, w')
                  /\ cliOptions m' = cliOptions reviewingModel.
Proof.
  destruct (update_never_panics reviewingModel reviewingModel_reachable) as [_ H].
  destruct (H clearWorld TickMsg) as (m' & c & w' & Hu & _ & Hc).
  exists m', c, w'. split; assumption.
Defined.

(** X2 on the same review. *)
Lemma exchange_stays_consistent_witness :
  (running reviewingModel = true <-> mode reviewingModel = modeRunning)
  /\ (mode reviewingModel <> modeViewing ->
      options reviewingModel = [] /\ rawOutput reviewingModel = []
      /\ lastParseError reviewingModel = None)
  /\ (lastParseError reviewingModel <> None -> options reviewingModel = []).
Proof. exact (exchange_stays_consistent reviewingModel reviewingModel_reachable). Defined.

(** X3 on the same review: the second option does not go before the first. *)
Lemma options_stay_ranked_witness :
  options reviewingModel !! 0 = Some (entry "ls -la" "list all files" 1)
  /\ options reviewingModel !! 1 = Some (entry "ls" "list files" 2)
  /\ before (entry "ls" "list files" 2) (entry "ls -la" "list all files" 1) = false.
Proof.
  assert (H0 : options reviewingModel !! 0 = Some (entry "ls -la" "list all files" 1))
    by (vm_compute; reflexivity).
  assert (H1 : options reviewingModel !! 1 = Some (entry "ls" "list files" 2))
    by (vm_compute; reflexivity).
  split_and!; [exact H0|exact H1|].
  destruct (options_stay_ranked reviewingModel reviewingModel_reachable) as [_ H].
  apply (H 0 1); [lia|exact H0|exact H1].
Defined.

(** X4 while the backend runs: the tick moves the spinner to the next frame. *)
Lemma tick_animates_only_while_running_witness :
  mode runningModel = modeRunning
  /\ (snd <$> (fst <$> Update clearWorld runningModel TickMsg)) = Some CmdTick.
Proof.
  assert (Hm : mode runningModel = modeRunning) by (vm_compute; reflexivity).
  split; [exact Hm|].
  destruct (tick_animates_only_while_running clearWorld runningModel
              runningModel_reachable) as (_ & H & _).
  rewrite (H Hm). reflexivity.
Defined.

(** X5 on the submission of the typed text. *)
Lemma one_run_at_a_time_witness :
  Update clearWorld typedModel (Key (key KeyEnter))
  = Some (runningModel,
          CmdBatch (CmdRunPrompt (mkCLI (str "codex"))
                      (buildPrompt (str "list files in current directory")))
                   CmdTick, clearWorld)
  /\ mode typedModel = modeInput /\ mode runningModel = modeRunning
  /\ running runningModel = true /\ options runningModel = [].
Proof.
  assert (Hu : Update clearWorld typedModel (Key (key KeyEnter))
               = Some (runningModel,
                       CmdBatch (CmdRunPrompt (mkCLI (str "codex"))
                                   (buildPrompt (str "list files in current directory")))
                                CmdTick, clearWorld))
    by (vm_compute; reflexivity).
  split; [exact Hu|].
  destruct (one_run_at_a_time _ _ _ _ _ _ Hu eq_refl)
    as (H1 & _ & _ & _ & H2 & H3 & H4 & _).
  auto.
Defined.

(** X6 on the copy of the selected option: the program ends, and it ends
    because the copy succeeded, with the selected value in the clipboard. *)
Lemma quit_only_on_request_witness :
  exists m',
    Update clearWorld reviewingModel (Key (key KeyEnter))
    = Some (m', CmdQuit, mkWorld (str "ls -la") None)
    /\ mode reviewingModel = modeViewing
    /\ clipboardError clearWorld = None
    /\ selectedValue reviewingModel = Some (str "ls -la").
Proof.
  exists (set_status (str "✅ Copied to clipboard: ls -la") reviewingModel).
  assert (Hu : Update clearWorld reviewingModel (Key (key KeyEnter))
               = Some (set_status (str "✅ Copied to clipboard: ls -la") reviewingModel,
                       CmdQuit, mkWorld (str "ls -la") None))
    by (vm_compute; reflexivity).
  split; [exact Hu|].
  destruct (quit_only_on_request _ _ _ _ _ _ Hu eq_refl)
    as [_ [(k & Hk & Hq & _)|[(k & Hk & _ & Hq & _)
       |[(k & value & Hk & Hm & _ & Hc & _ & Hv & Hw & _)|(Hk & _)]]]].
  - injection Hk as <-. vm_compute in Hq. discriminate Hq.
  - injection Hk as <-. vm_compute in Hq. discriminate Hq.
  - cbn [clipboard] in Hw. subst value.
    destruct Hv as [Hv|[Hv _]]; [auto|].
    vm_compute in Hv. discriminate Hv.
  - discriminate Hk.
Defined.

(** X7 on the failed run: without options, ctrl+r runs the raw output. *)
Lemma review_falls_back_to_raw_output_witness :
  options failedModel = []
  /\ Update clearWorld failedModel (Key (key KeyCtrlR))
     = Some (set_status (str "running: permission denied") failedModel,
             CmdExec (str "permission denied") true, clearWorld).
Proof.
  split; [vm_compute; reflexivity|].
  destruct (review_falls_back_to_raw_output clearWorld failedModel (key KeyCtrlR) [])
    as (_ & H & _);
    [vm_compute; reflexivity|reflexivity|vm_compute; reflexivity|].
  destruct (H eq_refl) as [_ H2]. rewrite H2; [vm_compute; reflexivity|].
  vm_compute. discriminate.
Defined.

(** X8 on the review of two options: two steps down lead back. *)
Lemma selection_round_trip_witness :
  length (options reviewingModel) = 2
  /\ Nat.iter (length (options reviewingModel)) (moveSelection 1) reviewingModel
     = reviewingModel.
Proof.
  split; [vm_compute; reflexivity|].
  destruct (selection_round_trip reviewingModel) as (_ & _ & H);
    [vm_compute; discriminate
    |exact (proj2 (reachable_inv reviewingModel reviewingModel_reachable))
    |exact H].
Defined.

(** X9 from the first backend: forward to the second and back. *)
Lemma backend_cycle_round_trip_witness :
  exists m1, nextCLI startModel = Some m1
             /\ (cliIndex <$> prevCLI m1) = Some 0%Z.
Proof.
  destruct (backend_cycle_round_trip startModel (mkCLI (str "codex")))
    as [(m1 & H1 & H2 & _) _];
    [vm_compute; split; [discriminate|reflexivity]|vm_compute; reflexivity|].
  exists m1. split; [exact H1|]. rewrite H2. vm_compute. reflexivity.
Defined.

(** X11 on ctrl+r in the review: the selected value is run, and the program
    quits when the run has succeeded. *)
Lemma shell_runs_exit_on_success_witness :
  exists m',
    Update clearWorld reviewingModel (Key (key KeyCtrlR))
    = Some (m', CmdExec (str "ls -la") true, clearWorld)
    /\ Update clearWorld m' (execResult true None) = Some (m', CmdQuit, clearWorld).
Proof.
  exists (set_status (str "running: ls -la") reviewingModel).
  assert (Hu : Update clearWorld reviewingModel (Key (key KeyCtrlR))
               = Some (set_status (str "running: ls -la") reviewingModel,
                       CmdExec (str "ls -la") true, clearWorld))
    by (vm_compute; reflexivity).
  split; [exact Hu|].
  destruct (shell_runs_exit_on_success _ _ _ _ _ _ Hu eq_refl)
    as (value & _ & _ & _ & _ & _ & Hq & _).
  exact Hq.
Defined.

(** X12 on the empty input: Enter sends nothing. *)
Lemma blank_prompt_is_not_sent_witness :
  exists m' c,
    Update clearWorld startModel (Key (key KeyEnter)) = Some (m', c, clearWorld)
    /\ c = CmdNil /\ status m' = str "prompt is empty • " ++ helpInput.
Proof.
  destruct (blank_prompt_is_not_sent clearWorld startModel (key KeyEnter))
    as (m' & c & Hu & Hb & _);
    [vm_compute; reflexivity|vm_compute; split; [discriminate|reflexivity]
    |left; split; reflexivity|].
  destruct Hb as (Hc & _ & Hs); [vm_compute; constructor|].
  exists m', c. auto.
Defined.

(** X13 on the two-option answer between line breaks. *)
Lemma handleResponse_ignores_padding_witness :
  options (fst (handleResponse runningModel (newline ++ lsResponse ++ newline)
                  None (str "codex")))
  = [entry "ls -la" "list all files" 1; entry "ls" "list files" 2].
Proof.
  assert (Hn : Forall (fun c => asciiSpace c = true) newline)
    by (repeat constructor).
  rewrite (proj1 (handleResponse_ignores_padding clearWorld runningModel newline
                    lsResponse newline None (str "codex") Hn Hn)).
  vm_compute. reflexivity.
Defined.

(** X14 on the review, once the window size is known: it can be drawn. *)
Lemma View_panics_only_without_height_witness :
  ready shownReview = true /\ exists out, View shownReview = Some out.
Proof.
  split; [vm_compute; reflexivity|].
  apply (proj2 (View_panics_only_without_height shownReview shownReview_reachable)).
  vm_compute. discriminate.
Defined.

(** X15 on a failed run: the view is the same whatever the backend printed
    and whatever the error was. *)
Lemma View_hides_failed_run_witness :
  ready shownRunning = true
  /\ View (fst (handleResponse shownRunning (str "permission denied")
                  (Some (str "exit status 1")) (str "codex")))
     = View (fst (handleResponse shownRunning [] (Some (str "killed")) (str "codex"))).
Proof.
  assert (Hr : ready shownRunning = true) by (vm_compute; reflexivity).
  split; [exact Hr|].
  rewrite (proj2 (View_hides_failed_run shownRunning (str "permission denied")
                    (str "exit status 1") (str "codex") Hr)).
  rewrite (proj2 (View_hides_failed_run shownRunning [] (str "killed")
                    (str "codex") Hr)).
  reflexivity.
Defined.

(** X17 on an option without rank ahead of one with rank 1: the list with
    the two exchanged is the ranking. *)
Lemma sortOptions_is_the_stable_ranking_witness :
  sortOptions [entry "ls" "list files" 0; entry "ls -la" "list all files" 1]
  = [entry "ls -la" "list all files" 1; entry "ls" "list files" 0].
Proof.
  symmetry. apply sortOptions_is_the_stable_ranking.
  - repeat constructor.
  - intros e. rewrite !filter_cons, !filter_nil.
    repeat case_decide; try reflexivity; exfalso;
      unfold sameRank, before, entry in *; cbn [RecommendationOrder] in *; lia.
Defined.

(** X20 on an answer behind a log line that has braces of its own. *)
Lemma parseOptions_ignores_what_comes_before_witness :
  parseOptions lsResponse
  = ([entry "ls -la" "list all files" 1; entry "ls" "list files" 2], None)
  /\ parseOptions (str "{log} started. " ++ lsResponse)
     = ([entry "ls -la" "list all files" 1; entry "ls" "list files" 2], None).
Proof.
  assert (Hp : parseOptions lsResponse
               = ([entry "ls -la" "list all files" 1; entry "ls" "list files" 2], None))
    by (vm_compute; reflexivity).
  split; [exact Hp|].
  exact (proj1 parseOptions_ignores_what_comes_before _ _ _ Hp).
Defined.

(** X21 with the JSON decoder: the prompt for a user text parses into the
    placeholder option. *)
Lemma parseOptions_reads_the_prompt_example_witness :
  decodeResponse promptTail = Some [placeholderOption]
  /\ parseOptions (buildPrompt (str "list files")) = ([placeholderOption], None).
Proof.
  assert (Hd : decodeResponse promptTail = Some [placeholderOption])
    by (vm_compute; reflexivity).
  split; [exact Hd|].
  exact (parseOptions_reads_the_prompt_example (str "list files") Hd).
Defined.

(** The schema is taken from the system path when the other two files
    cannot be read, and from the compiled-in schema, through a temporary
    file, when no file can be read. *)
Example schema_from_system_path :
  schemaSources (os := installedOs)
  = (inl (systemSchemaPath, str "{}"),
     [CallReadFile (str "/opt/bin/options.schema.json");
      CallReadFile (str "/home/user/options.schema.json");
      CallReadFile systemSchemaPath]).
Proof. vm_compute. reflexivity. Qed.

Example schema_from_temporary_file :
  schemaSources (os := bareOs)
  = (inl (str "/tmp/insta-options-schema-1.json", str "{}"),
     [CallReadFile (str "/home/user/options.schema.json");
      CallReadFile systemSchemaPath;
      CallCreateTemp; CallWrite (str "{}"); CallClose]).
Proof. vm_compute. reflexivity. Qed.

(** The view of the review of the two-option answer. *)
Example view_of_the_review :
  View shownReview
  = Some (str "T[codex]|t[claude]|t[gemini]|t[opencode]" ++ newline
          ++ str "P[❯ list files in current directory]" ++ newline
          ++ str "▶ ls -la" ++ newline ++ str "  list all files" ++ newline
          ++ str "  ls" ++ newline ++ str "  list files" ++ newline
          ++ str "s[💡 " ++ helpViewing ++ str "]").
Proof. vm_compute. reflexivity. Qed.

End MoreExamples.
